(** * SharQ: a rate-limited, multi-tenant job queue on Redis

    A shallow embedding of [sharq/queue.py] (the class [SharQ], the
    object clients call) together with the part of its surroundings that
    its behaviour depends on:

    - the Python values and builtins the methods use ([Py]);
    - the Redis keyspace and the commands issued against it ([Redis]);
    - the six server-side Lua scripts, which live in [sharq/scripts/lua]
      and are modelled from the specification ([Lua]);
    - the helpers imported from [sharq.utils], an interface ([Utils])
      with an instance modelled from the specification ([SpecUtils]);
    - the configuration parser, the client library and the file system
      that the constructor and the reloaders call, an interface
      ([Host]).

    Methods run in a state-and-exception monad over a [world]: the Redis
    keyspace, the wall clock, and the trace of everything the client
    sent to the store. *)

From Stdlib Require Import ZArith String Ascii List.
From stdpp Require Import base option list gmap strings fin_maps sorting pretty.

Local Open Scope string_scope.
Local Open Scope list_scope.

(** ** Computations with state and exceptions *)

Inductive outcome (E A : Type) : Type :=
| Ok (a : A)
| Raise (e : E).
Arguments Ok {E A} a.
Arguments Raise {E A} e.

(** A computation over a state [S] that may raise an [E]. The state at the
    point of the raise is kept: neither Python nor a Redis script rolls
    back what was already written. *)
Definition comp (S E A : Type) : Type := S -> outcome E A * S.

Definition ret {S E A} (a : A) : comp S E A := fun s => (Ok a, s).

Definition raise {S E A} (e : E) : comp S E A := fun s => (Raise e, s).

Definition bind {S E A B} (c : comp S E A) (k : A -> comp S E B) : comp S E B :=
  fun s =>
    match c s with
    | (Ok a, s') => k a s'
    | (Raise e, s') => (Raise e, s')
    end.

(** Lifting of a pure, fallible step. *)
Definition lift {S E A} (r : outcome E A) : comp S E A := fun s => (r, s).

Notation "'let*' x ':=' c 'in' k" := (bind c (fun x => k))
  (at level 10, x pattern, c at level 99, k at level 200).
Notation "c1 ';;' c2" := (bind c1 (fun _ => c2))
  (at level 100, c2 at level 200, right associativity).

(** [for x in xs: body(x)] *)
Fixpoint for_each {S E A} (xs : list A) (body : A -> comp S E unit) : comp S E unit :=
  match xs with
  | [] => ret tt
  | x :: xs' => body x ;; for_each xs' body
  end.

(** ** Python values and builtins *)

Module Py.

(** What a caller passes for an identifier or an interval, and what the
    client library accepts as a key or an argument of a script: [None], an
    integer or a byte string. *)
Inductive scalar : Type :=
| SNone
| SInt (n : Z)
| SStr (s : string).

(** Payloads and the fields of a response. *)
#[warnings="-register-all"]
Inductive value : Type :=
| VNone
| VInt (n : Z)
| VStr (s : string)
| VList (l : list value)
| VDict (d : list (string * value)).

(** An element of a multi-bulk reply, and a reply. Replies nest at most
    twice in what the methods read: the metrics script answers with two
    rows. *)
Inductive item : Type :=
| Atom (x : scalar)
| Row (xs : list scalar).

Inductive reply : Type :=
| Single (x : scalar)
| Multi (items : list item).

Inductive exn : Type :=
| BadArgumentException (message : string)
| TypeError (message : string)
| ValueError (message : string)
| IndexError (message : string)
| RedisError (message : string).

Definition value_of_scalar (x : scalar) : value :=
  match x with
  | SNone => VNone
  | SInt n => VInt n
  | SStr s => VStr s
  end.

Definition value_of_item (i : item) : value :=
  match i with
  | Atom x => value_of_scalar x
  | Row xs => VList (map value_of_scalar xs)
  end.

(** [x is None] *)
Definition is_None (x : scalar) : bool :=
  match x with
  | SNone => true
  | _ => false
  end.

(** Truth value of [x] in [if x], [not x], [x or y]. *)
Definition truthy (x : scalar) : bool :=
  match x with
  | SNone => false
  | SInt n => negb (n =? 0)%Z
  | SStr s => negb (String.eqb s "")
  end.

(** [str(x)], also what ['%s' % x] substitutes. *)
Definition str (x : scalar) : string :=
  match x with
  | SNone => "None"
  | SInt n => pretty n
  | SStr s => s
  end.

(** The one-character string of the double quote. *)
Definition dquote : string := String (ascii_of_nat 34) "".

(** The characters of a string, as Python iterates over it. *)
Fixpoint chars (s : string) : list string :=
  match s with
  | "" => []
  | String c s' => String c "" :: chars s'
  end.

(** [s[1:-1]] on a string: from index 1, [len(s) - 2] characters (none
    when the string has fewer than two). *)
Definition slice_1_m1 (s : string) : string :=
  substring 1 (String.length s - 2) s.

(** [l[1:-1]] on a list. *)
Definition list_slice_1_m1 {A} (l : list A) : list A :=
  take (length l - 2) (drop 1 l).

(** [x[1:-1]] on an element of a reply. *)
Definition item_slice_1_m1 (i : item) : outcome exn item :=
  match i with
  | Atom (SStr s) => Ok (Atom (SStr (slice_1_m1 s)))
  | Row xs => Ok (Row (list_slice_1_m1 xs))
  | Atom SNone => Raise (TypeError "'NoneType' object has no attribute '__getitem__'")
  | Atom (SInt _) => Raise (TypeError "'long' object has no attribute '__getitem__'")
  end.

(** [s.split(sep)[0]]: the part of [s] before the first [sep], all of [s]
    when it has none. *)
Fixpoint split_head (sep : ascii) (s : string) : string :=
  match s with
  | "" => ""
  | String c s' => if Ascii.eqb c sep then "" else String c (split_head sep s')
  end.

(** The part after the first [sep], if [s] has one. *)
Fixpoint split_tail (sep : ascii) (s : string) : option string :=
  match s with
  | "" => None
  | String c s' => if Ascii.eqb c sep then Some s' else split_tail sep s'
  end.

(** The sequence a reply is when Python unpacks it: a list is its
    elements, a string its characters. *)
Definition reply_seq (r : reply) : outcome exn (list item) :=
  match r with
  | Multi items => Ok items
  | Single (SStr s) => Ok (map (fun c => Atom (SStr c)) (chars s))
  | Single SNone => Raise (TypeError "'NoneType' object is not iterable")
  | Single (SInt _) => Raise (TypeError "'long' object is not iterable")
  end.

(** [len(r)] *)
Definition reply_len (r : reply) : outcome exn nat :=
  match r with
  | Multi items => Ok (length items)
  | Single (SStr s) => Ok (String.length s)
  | Single SNone => Raise (TypeError "object of type 'NoneType' has no len()")
  | Single (SInt _) => Raise (TypeError "object of type 'long' has no len()")
  end.

(** [a, b = seq] *)
Definition unpack2 {A} (l : list A) : outcome exn (A * A) :=
  match l with
  | [a; b] => Ok (a, b)
  | _ :: _ :: _ :: _ => Raise (ValueError "too many values to unpack")
  | _ => Raise (ValueError "need more than 0 or 1 values to unpack")
  end.

(** [a, b, c = seq] *)
Definition unpack3 {A} (l : list A) : outcome exn (A * A * A) :=
  match l with
  | [a; b; c] => Ok (a, b, c)
  | _ :: _ :: _ :: _ :: _ => Raise (ValueError "too many values to unpack")
  | _ => Raise (ValueError "need more values to unpack")
  end.

(** [seq[i]] *)
Definition index {A} (l : list A) (i : nat) : outcome exn A :=
  match l !! i with
  | Some a => Ok a
  | None => Raise (IndexError "list index out of range")
  end.

(** [xrange(0, n, 2)] *)
Fixpoint xrange_by_2 (from count : nat) : list nat :=
  match count with
  | O => []
  | S count' => from :: xrange_by_2 (2 + from) count'
  end.

Definition xrange_0_n_2 (n : nat) : list nat := xrange_by_2 0 (Nat.div2 (n + 1)).

(** Decimal digits, most significant first, as [int] and Lua's [tonumber]
    read them. *)
Definition digit_of (c : ascii) : option Z :=
  let n := Z.of_nat (nat_of_ascii c) in
  if ((48 <=? n) && (n <=? 57))%Z then Some (n - 48)%Z else None.

Fixpoint digits_value (acc : Z) (s : string) : option Z :=
  match s with
  | "" => Some acc
  | String c s' =>
      match digit_of c with
      | Some d => digits_value (10 * acc + d)%Z s'
      | None => None
      end
  end.

(** An optional sign and at least one digit. *)
Definition parse_int (s : string) : option Z :=
  match s with
  | "" => None
  | String c s' =>
      if Ascii.eqb c "-"%char
      then (if String.eqb s' "" then None else Z.opp <$> digits_value 0 s')
      else if Ascii.eqb c "+"%char
      then (if String.eqb s' "" then None else digits_value 0 s')
      else digits_value 0 s
  end.

(** The blanks [int] skips at both ends of a string: the space and the
    characters 9 to 13. *)
Definition is_blank (c : ascii) : bool :=
  let n := nat_of_ascii c in
  ((n =? 32) || (9 <=? n) && (n <=? 13))%nat.

Fixpoint skip_blanks (l : list ascii) : list ascii :=
  match l with
  | c :: l' => if is_blank c then skip_blanks l' else l
  | [] => []
  end.

(** [s.strip()] *)
Definition strip (s : string) : string :=
  string_of_list_ascii
    (rev (skip_blanks (rev (skip_blanks (list_ascii_of_string s))))).

(** [int(x)]: a number is itself, a string is read as a decimal literal
    once the blanks around it are skipped, and [None] is a
    [TypeError]. *)
Definition int (x : scalar) : outcome exn Z :=
  match x with
  | SInt n => Ok n
  | SStr s =>
      match parse_int (strip s) with
      | Some n => Ok n
      | None => Raise (ValueError "invalid literal for int() with base 10")
      end
  | SNone => Raise (TypeError "int() argument must be a string or a number, not 'NoneType'")
  end.

(** [x or 0] *)
Definition or_0 (x : scalar) : scalar := if truthy x then x else SInt 0.

(** A dictionary with string keys, in insertion order. *)
Abbreviation dict := (list (string * value)).

(** [d[k] = v] *)
Fixpoint dict_set (k : string) (v : value) (d : dict) : dict :=
  match d with
  | [] => [(k, v)]
  | (k', v') :: d' => if String.eqb k' k then (k, v) :: d' else (k', v') :: dict_set k v d'
  end.

(** [d.update(u)] *)
Definition dict_update (d u : dict) : dict :=
  fold_left (fun acc kv => dict_set (fst kv) (snd kv) acc) u d.

(** [d[k]], when the key is there. *)
Fixpoint dict_get (k : string) (d : dict) : option value :=
  match d with
  | [] => None
  | (k', v) :: d' => if String.eqb k' k then Some v else dict_get k d'
  end.

End Py.

(** ** The Redis keyspace and its commands *)

Module Redis.

(** What a key holds. Scores are the integers the scripts compute
    (epoch milliseconds). *)
Inductive entry : Type :=
| EString (s : string)
| EList (l : list string)
| ESet (s : gset string)
| EZSet (z : gmap string Z)
| EHash (h : gmap string string).

Abbreviation keyspace := (gmap string entry).

(** A command: it reads and writes the keyspace and may answer with an
    error. *)
Abbreviation cmd := (comp (gmap string entry) string).

Definition WRONGTYPE : string :=
  "WRONGTYPE Operation against a key holding the wrong kind of value".

Definition get_key (key : string) : cmd (option entry) := fun db => (Ok (db !! key), db).

Definition set_key (key : string) (e : entry) : cmd unit := fun db => (Ok tt, <[key := e]> db).

Definition del_key (key : string) : cmd unit := fun db => (Ok tt, delete key db).

(** Readers of each kind of value: a missing key reads as the empty
    value, a key of another kind is an error. *)
Definition read_list (key : string) : cmd (list string) :=
  let* e := get_key key in
  match e with
  | None => ret []
  | Some (EList l) => ret l
  | Some _ => raise WRONGTYPE
  end.

Definition read_set (key : string) : cmd (gset string) :=
  let* e := get_key key in
  match e with
  | None => ret ∅
  | Some (ESet s) => ret s
  | Some _ => raise WRONGTYPE
  end.

Definition read_zset (key : string) : cmd (gmap string Z) :=
  let* e := get_key key in
  match e with
  | None => ret ∅
  | Some (EZSet z) => ret z
  | Some _ => raise WRONGTYPE
  end.

Definition read_hash (key : string) : cmd (gmap string string) :=
  let* e := get_key key in
  match e with
  | None => ret ∅
  | Some (EHash h) => ret h
  | Some _ => raise WRONGTYPE
  end.

(** Writers: a value that became empty deletes its key. *)
Definition write_list (key : string) (l : list string) : cmd unit :=
  match l with
  | [] => del_key key
  | _ => set_key key (EList l)
  end.

Definition write_set (key : string) (s : gset string) : cmd unit :=
  if decide (s = ∅) then del_key key else set_key key (ESet s).

Definition write_zset (key : string) (z : gmap string Z) : cmd unit :=
  if decide (z = ∅) then del_key key else set_key key (EZSet z).

Definition write_hash (key : string) (h : gmap string string) : cmd unit :=
  if decide (h = ∅) then del_key key else set_key key (EHash h).

(** Strings and counters *)
Definition GET (key : string) : cmd (option string) :=
  let* e := get_key key in
  match e with
  | None => ret None
  | Some (EString s) => ret (Some s)
  | Some _ => raise WRONGTYPE
  end.

Definition INCR (key : string) : cmd Z :=
  let* old := GET key in
  match old with
  | None => set_key key (EString (pretty 1%Z)) ;; ret 1%Z
  | Some s =>
      match Py.parse_int s with
      | Some n => set_key key (EString (pretty (n + 1)%Z)) ;; ret (n + 1)%Z
      | None => raise "ERR value is not an integer or out of range"
      end
  end.

(** Lists *)
Definition RPUSH (key value : string) : cmd Z :=
  let* l := read_list key in
  write_list key (l ++ [value]) ;; ret (Z.of_nat (length l) + 1)%Z.

Definition LPUSH (key value : string) : cmd Z :=
  let* l := read_list key in
  write_list key (value :: l) ;; ret (Z.of_nat (length l) + 1)%Z.

Definition LPOP (key : string) : cmd (option string) :=
  let* l := read_list key in
  match l with
  | [] => ret None
  | x :: l' => write_list key l' ;; ret (Some x)
  end.

Definition LLEN (key : string) : cmd Z :=
  let* l := read_list key in ret (Z.of_nat (length l)).

(** Sets *)
Definition SADD (key member : string) : cmd Z :=
  let* s := read_set key in
  write_set key ({[member]} ∪ s) ;; ret (if decide (member ∈ s) then 0 else 1)%Z.

Definition SREM (key member : string) : cmd Z :=
  let* s := read_set key in
  write_set key (s ∖ {[member]}) ;; ret (if decide (member ∈ s) then 1 else 0)%Z.

Definition SMEMBERS (key : string) : cmd (gset string) := read_set key.

(** Hashes *)
Definition HEXISTS (key field : string) : cmd bool :=
  let* h := read_hash key in ret (bool_decide (is_Some (h !! field))).

Definition HGET (key field : string) : cmd (option string) :=
  let* h := read_hash key in ret (h !! field).

Definition HSET (key field value : string) : cmd Z :=
  let* h := read_hash key in
  write_hash key (<[field := value]> h) ;;
  ret (if decide (is_Some (h !! field)) then 0 else 1)%Z.

Definition HDEL (key field : string) : cmd Z :=
  let* h := read_hash key in
  write_hash key (delete field h) ;;
  ret (if decide (is_Some (h !! field)) then 1 else 0)%Z.

(** Sorted sets: members in the order of their scores, equal scores in
    the order of the members' bytes. *)
Definition zset_le (a b : string * Z) : Prop :=
  (a.2 < b.2)%Z ∨ (a.2 = b.2 ∧ String.leb a.1 b.1 = true).

#[global] Instance zset_le_dec a b : Decision (zset_le a b).
Proof. unfold zset_le. apply _. Defined.

Definition zset_sorted (z : gmap string Z) : list (string * Z) :=
  merge_sort zset_le (map_to_list z).

Definition ZADD (key : string) (score : Z) (member : string) : cmd Z :=
  let* z := read_zset key in
  write_zset key (<[member := score]> z) ;;
  ret (if decide (is_Some (z !! member)) then 0 else 1)%Z.

Definition ZREM (key member : string) : cmd Z :=
  let* z := read_zset key in
  write_zset key (delete member z) ;;
  ret (if decide (is_Some (z !! member)) then 1 else 0)%Z.

Definition ZSCORE (key member : string) : cmd (option Z) :=
  let* z := read_zset key in ret (z !! member).

Definition ZCARD (key : string) : cmd Z :=
  let* z := read_zset key in ret (Z.of_nat (size z)).

(** The elements of [l] at the ranks [start .. stop], both inclusive, a
    negative rank counting from the end. *)
Definition rank_range {A} (l : list A) (start stop : Z) : list A :=
  let len := Z.of_nat (length l) in
  let start := (if start <? 0 then Z.max 0 (len + start) else start)%Z in
  let stop := (if stop <? 0 then len + stop else stop)%Z in
  let stop := Z.min stop (len - 1) in
  if ((stop <? start) || (len <=? start))%Z then []
  else take (Z.to_nat (stop - start + 1)) (drop (Z.to_nat start) l).

Definition ZRANGE (key : string) (start stop : Z) : cmd (list string) :=
  let* z := read_zset key in ret (rank_range (fst <$> zset_sorted z) start stop).

(** [ZRANGEBYSCORE key -inf max] *)
Definition ZRANGEBYSCORE_upto (key : string) (max : Z) : cmd (list string) :=
  let* z := read_zset key in
  ret (fst <$> filter (fun p => (p.2 <= max)%Z) (zset_sorted z)).

End Redis.

(** ** The world a client runs in *)

Import Py.

Inductive script_name : Type := Enqueue | Dequeue | Finish | Interval | Requeue | Metrics.

(** A command queued on a pipeline. *)
Inductive command : Type :=
| Zrange (key : string) (start stop : Z).

(** What the client did, in the order it did it: a reading of the clock,
    and each request it sent to the store. A pipeline is one request: its
    commands run as one [MULTI]/[EXEC] transaction. *)
Inductive event : Type :=
| EvEpoch (t : Z)
| EvScript (name : script_name) (keys args : list scalar)
| EvSmembers (key : string)
| EvLlen (key : string)
| EvTransaction (cmds : list command).

(** [clock k] is what the [k]-th reading of the wall clock returns. *)
Record world : Type := World {
  redis : gmap string Redis.entry;
  clock : nat -> Z;
  reads : nat;
  trace : list event;
}.

Abbreviation M := (comp world exn).

Definition log (e : event) : M unit :=
  fun w => (Ok tt, World (redis w) (clock w) (reads w) (trace w ++ [e])).

(** A command or a script run against the store; its error reaches the
    caller as the client library's exception. *)
Definition on_store {A} (c : Redis.cmd A) : M A :=
  fun w =>
    let '(r, db) := c (redis w) in
    (match r with
     | Ok a => Ok a
     | Raise message => Raise (RedisError message)
     end, World db (clock w) (reads w) (trace w)).

(** Modelled from the spec: [generate_epoch] of [sharq.utils], the clock
    of section 4.3, returns the current time as integer milliseconds since
    the epoch. *)
Definition generate_epoch : M Z :=
  fun w =>
    let t := clock w (reads w) in
    (Ok t, World (redis w) (clock w) (S (reads w)) (trace w ++ [EvEpoch t])).

(** A registered script: it receives its keys and arguments as the byte
    strings the client library encoded, and runs atomically. *)
Abbreviation script := (list string -> list string -> Redis.cmd reply).

(** [script(keys=keys, args=args)] *)
Definition call_script (name : script_name) (f : script) (keys args : list scalar) : M reply :=
  log (EvScript name keys args) ;;
  on_store (f (str <$> keys) (str <$> args)).

(** [self._r.smembers(key)] *)
Definition smembers (key : string) : M (gset string) :=
  log (EvSmembers key) ;; on_store (Redis.SMEMBERS key).

(** [self._r.llen(key)] *)
Definition llen (key : string) : M Z :=
  log (EvLlen key) ;; on_store (Redis.LLEN key).

Definition run_command (c : command) : Redis.cmd (list string) :=
  match c with
  | Zrange key start stop => Redis.ZRANGE key start stop
  end.

Fixpoint run_commands (cmds : list command) : Redis.cmd (list (list string)) :=
  match cmds with
  | [] => ret []
  | c :: cmds' =>
      let* r := run_command c in
      let* rs := run_commands cmds' in
      ret (r :: rs)
  end.

(** [pipe.execute()] of a pipeline holding [cmds]. *)
Definition pipeline_execute (cmds : list command) : M (list (list string)) :=
  log (EvTransaction cmds) ;; on_store (run_commands cmds).

(** ** The helpers of [sharq.utils] *)

(** The validators and the payload codec the methods import. A codec
    signals an unserializable payload with a [TypeError]. *)
Class Utils : Type := {
  is_valid_identifier : scalar -> bool;
  is_valid_interval : scalar -> bool;
  serialize_payload : value -> outcome exn string;
  deserialize_payload : item -> outcome exn value;
}.

(** ** The class [SharQ] *)

(** The attributes [_initialize] sets from the configuration file, and
    the scripts [_load_lua_scripts] registers. The connection [self._r] is
    the [redis] of the [world]. *)
Record SharQ : Type := {
  _key_prefix : string;
  _job_expire_interval : Z;
  _lua_enqueue : script;
  _lua_dequeue : script;
  _lua_finish : script;
  _lua_interval : script;
  _lua_requeue : script;
  _lua_metrics : script;
}.

(** An argument with a default value in the signature. *)
Inductive kwarg : Type :=
| Omitted
| Given (x : scalar).

Definition or_default (d : scalar) (a : kwarg) : scalar :=
  match a with
  | Omitted => d
  | Given x => x
  end.

(** [len(x)] and [x[k]] on an element of a reply. *)
Definition item_len (i : item) : outcome exn nat :=
  match i with
  | Row xs => Ok (length xs)
  | Atom (SStr s) => Ok (String.length s)
  | Atom SNone => Raise (TypeError "object of type 'NoneType' has no len()")
  | Atom (SInt _) => Raise (TypeError "object of type 'long' has no len()")
  end.

Definition item_index (i : item) (k : nat) : outcome exn scalar :=
  match i with
  | Row xs => index xs k
  | Atom (SStr s) =>
      match chars s !! k with
      | Some c => Ok (SStr c)
      | None => Raise (IndexError "string index out of range")
      end
  | Atom SNone => Raise (TypeError "'NoneType' object has no attribute '__getitem__'")
  | Atom (SInt _) => Raise (TypeError "'long' object has no attribute '__getitem__'")
  end.

(** The loop of [metrics] over the two rows of the script's reply; its
    state is the pair [(enqueue_counts, dequeue_counts)]. An assignment
    [d[k] = v] evaluates [v] before [k]. *)
Definition set_enqueue_count (k : string) (v : Z) : comp (dict * dict) exn unit :=
  fun counts => (Ok tt, (dict_set k (VInt v) counts.1, counts.2)).

Definition set_dequeue_count (k : string) (v : Z) : comp (dict * dict) exn unit :=
  fun counts => (Ok tt, (counts.1, dict_set k (VInt v) counts.2)).

Definition count_details (enqueue_details dequeue_details : item) : outcome exn (dict * dict) :=
  match item_len enqueue_details with
  | Raise e => Raise e
  | Ok n =>
      let loop :=
        for_each (xrange_0_n_2 n) (fun i =>
          let* count := lift (item_index enqueue_details (i + 1)) in
          let* count := lift (int (or_0 count)) in
          let* minute := lift (item_index enqueue_details i) in
          set_enqueue_count (str minute) count ;;
          let* count := lift (item_index dequeue_details (i + 1)) in
          let* count := lift (int (or_0 count)) in
          let* minute := lift (item_index dequeue_details i) in
          set_dequeue_count (str minute) count) in
      match loop ([], []) with
      | (Ok _, counts) => Ok counts
      | (Raise e, _) => Raise e
      end
  end.

Section Methods.

Context {U : Utils} (self : SharQ).

Definition enqueue (payload : value) (interval job_id queue_id : scalar)
    (queue_type : kwarg) : M dict :=
  let queue_type := or_default (SStr "default") queue_type in
  if negb (is_valid_interval interval) then
    raise (BadArgumentException "`interval` has an invalid value.")
  else if negb (is_valid_identifier job_id) then
    raise (BadArgumentException "`job_id` has an invalid value.")
  else if negb (is_valid_identifier queue_id) then
    raise (BadArgumentException "`queue_id` has an invalid value.")
  else if negb (is_valid_identifier queue_type) then
    raise (BadArgumentException "`queue_type` has an invalid value.")
  else
    let* serialized_payload :=
      match serialize_payload payload with
      | Raise (TypeError message) => raise (BadArgumentException message)
      | r => lift r
      end in
    let* epoch := generate_epoch in
    let timestamp := str (SInt epoch) in
    let keys := [SStr (_key_prefix self); queue_type] in
    let args := [SStr timestamp; queue_id; job_id;
                 SStr (dquote +:+ serialized_payload +:+ dquote); interval] in
    call_script Enqueue (_lua_enqueue self) keys args ;;
    let response := [("status", VStr "queued")] in
    ret response.

Definition dequeue (queue_type : kwarg) : M dict :=
  let queue_type := or_default (SStr "default") queue_type in
  if negb (is_valid_identifier queue_type) then
    raise (BadArgumentException "`queue_type` has an invalid value.")
  else
    let* epoch := generate_epoch in
    let timestamp := str (SInt epoch) in
    let keys := [SStr (_key_prefix self); queue_type] in
    let args := [SStr timestamp; SInt (_job_expire_interval self)] in
    let* dequeue_response := call_script Dequeue (_lua_dequeue self) keys args in
    let* len := lift (reply_len dequeue_response) in
    if (len <? 3)%nat then
      let response := [("status", VStr "failure")] in
      ret response
    else
      let* fields := lift (reply_seq dequeue_response) in
      let* (queue_id, job_id, payload) := lift (unpack3 fields) in
      let* payload := lift (item_slice_1_m1 payload) in
      let* payload := lift (deserialize_payload payload) in
      let response := [("status", VStr "success");
                       ("queue_id", value_of_item queue_id);
                       ("job_id", value_of_item job_id);
                       ("payload", payload)] in
      ret response.

(** [reply == 0] *)
Definition eq_0 (r : reply) : bool :=
  match r with
  | Single (SInt n) => (n =? 0)%Z
  | _ => false
  end.

Definition finish (job_id queue_id : scalar) (queue_type : kwarg) : M dict :=
  let queue_type := or_default (SStr "default") queue_type in
  if negb (is_valid_identifier job_id) then
    raise (BadArgumentException "`job_id` has an invalid value.")
  else if negb (is_valid_identifier queue_id) then
    raise (BadArgumentException "`queue_id` has an invalid value.")
  else if negb (is_valid_identifier queue_type) then
    raise (BadArgumentException "`queue_type` has an invalid value.")
  else
    let keys := [SStr (_key_prefix self); queue_type] in
    let args := [queue_id; job_id] in
    let response := [("status", VStr "success")] in
    let* finish_response := call_script Finish (_lua_finish self) keys args in
    if eq_0 finish_response then
      ret (dict_update response [("status", VStr "failure")])
    else
      ret response.

Definition interval (interval queue_id : scalar) (queue_type : kwarg) : M dict :=
  let queue_type := or_default (SStr "default") queue_type in
  if negb (is_valid_interval interval) then
    raise (BadArgumentException "`interval` has an invalid value.")
  else if negb (is_valid_identifier queue_id) then
    raise (BadArgumentException "`queue_id` has an invalid value.")
  else if negb (is_valid_identifier queue_type) then
    raise (BadArgumentException "`queue_type` has an invalid value.")
  else
    let interval_hmap_key := _key_prefix self +:+ ":interval" in
    let interval_queue_key := str queue_type +:+ ":" +:+ str queue_id in
    let keys := [SStr interval_hmap_key; SStr interval_queue_key] in
    let args := [interval] in
    let* interval_response := call_script Interval (_lua_interval self) keys args in
    if eq_0 interval_response then
      ret [("status", VStr "failure")]
    else
      ret [("status", VStr "success")].

Definition requeue : M unit :=
  let* epoch := generate_epoch in
  let timestamp := str (SInt epoch) in
  let* active_queue_type_list := smembers (_key_prefix self +:+ ":active:queue_type") in
  for_each (elements active_queue_type_list) (fun queue_type =>
    let keys := [SStr (_key_prefix self); SStr queue_type] in
    let args := [SStr timestamp] in
    call_script Requeue (_lua_requeue self) keys args ;;
    ret tt).

(** The part the global and the per-queue branches of [metrics] share:
    the registries, the timestamp, the script and the loop over its
    reply. [key] is the script's only key. *)
Definition read_rates (key : string) : M (gset string * (dict * dict)) :=
  let* active_queue_types := smembers (_key_prefix self +:+ ":active:queue_type") in
  let* ready_queue_types := smembers (_key_prefix self +:+ ":ready:queue_type") in
  let all_queue_types := active_queue_types ∪ ready_queue_types in
  let* epoch := generate_epoch in
  let timestamp := str (SInt epoch) in
  let keys := [SStr key] in
  let args := [SStr timestamp] in
  let* details := call_script Metrics (_lua_metrics self) keys args in
  let* details := lift (reply_seq details) in
  let* (enqueue_details, dequeue_details) := lift (unpack2 details) in
  let* counts := lift (count_details enqueue_details dequeue_details) in
  ret (all_queue_types, counts).

Definition metrics (queue_type queue_id : kwarg) : M dict :=
  let queue_type := or_default SNone queue_type in
  let queue_id := or_default SNone queue_id in
  if negb (is_None queue_id) && negb (is_valid_identifier queue_id) then
    raise (BadArgumentException "`queue_id` has an invalid value.")
  else if negb (is_None queue_type) && negb (is_valid_identifier queue_type) then
    raise (BadArgumentException "`queue_type` has an invalid value.")
  else
    let response := [("status", VStr "failure")] in
    if negb (truthy queue_type) && negb (truthy queue_id) then
      let* (all_queue_types, (enqueue_counts, dequeue_counts)) :=
        read_rates (_key_prefix self) in
      ret (dict_update response
             [("status", VStr "success");
              ("queue_types", VList (VStr <$> elements all_queue_types));
              ("enqueue_counts", VDict enqueue_counts);
              ("dequeue_counts", VDict dequeue_counts)])
    else if truthy queue_type && negb (truthy queue_id) then
      let* replies := pipeline_execute
        [Zrange (_key_prefix self +:+ ":" +:+ str queue_type) 0 (-1);
         Zrange (_key_prefix self +:+ ":" +:+ str queue_type +:+ ":active") 0 (-1)] in
      let* (ready_queues, active_queues) := lift (unpack2 replies) in
      let active_queues := split_head ":" <$> active_queues in
      let all_queue_set : gset string := list_to_set ready_queues ∪ list_to_set active_queues in
      ret (dict_update response
             [("status", VStr "success");
              ("queue_ids", VList (VStr <$> elements all_queue_set))])
    else if truthy queue_type && truthy queue_id then
      let key := _key_prefix self +:+ ":" +:+ str queue_type +:+ ":" +:+ str queue_id in
      let* (all_queue_types, (enqueue_counts, dequeue_counts)) := read_rates key in
      let* queue_length := llen key in
      ret (dict_update response
             [("status", VStr "success");
              ("queue_length", VInt queue_length);
              ("enqueue_counts", VDict enqueue_counts);
              ("dequeue_counts", VDict dequeue_counts)])
    else if negb (truthy queue_type) && truthy queue_id then
      raise (BadArgumentException "`queue_id` should be accompanied by `queue_type`.")
    else
      ret response.

End Methods.

(** ** Construction and reloading *)

(** What the constructor and the two reloaders reach outside the object:
    the configuration parser, the client library and the file system.
    Their behaviour is a parameter; any of their calls may raise. *)
Class Host : Type := {
  (** the objects of [ConfigParser.SafeConfigParser] *)
  parser : Type;
  (** the objects of [redis.StrictRedis] *)
  client : Type;
  (** the file system, as a call finds it *)
  files : Type;
  (** what the libraries and the file system raise *)
  failure : Type;
  (** [ConfigParser.SafeConfigParser()] *)
  SafeConfigParser : parser;
  (** [parser.read(filenames)]: its outcome and the parser it leaves *)
  config_read : files -> scalar -> parser -> outcome failure unit * parser;
  (** [parser.get(section, option)] *)
  config_get : parser -> string -> string -> outcome failure string;
  (** [redis.StrictRedis] called with keyword arguments, in the order given *)
  StrictRedis : list (string * string) -> outcome failure client;
  (** [client.register_script(text)] *)
  register_script : client -> scalar -> outcome failure script;
  (** [os.path.dirname(os.path.abspath(__file__))] *)
  module_dir : string;
  (** [open(path, 'r')] followed by [read()] *)
  open_read : files -> string -> outcome failure string;
}.

(** What the methods below raise: an exception of a builtin, a missing
    attribute, or whatever a library raised. *)
Inductive error {H : Host} : Type :=
| Builtin (e : exn)
| AttributeError (message : string)
| Library (e : failure).

(** The values the class assigns to attributes of [self]. *)
Inductive attr {H : Host} : Type :=
| AScalar (x : scalar)
| AParser (p : parser)
| AClient (r : client)
| AScript (f : script).

(** [os.path.join(a, b)] of [posixpath]. *)
Definition ends_with_slash (s : string) : bool :=
  match last (list_ascii_of_string s) with
  | Some c => Ascii.eqb c "/"
  | None => false
  end.

Definition path_join (a b : string) : string :=
  match b with
  | String "/" _ => b
  | _ => if String.eqb a "" || ends_with_slash a then a +:+ b else a +:+ "/" +:+ b
  end.

(** The object is its [__dict__]. *)
Abbreviation object := (gmap string attr).

(** The computations of the constructor and the reloaders. *)
Abbreviation Setup A := (comp object error A).

Section Construction.

Context {H : Host}.

(** [self.name] *)
Definition getattr (name : string) : Setup attr :=
  fun self =>
    match self !! name with
    | Some a => (Ok a, self)
    | None => (Raise (AttributeError ("'SharQ' object has no attribute '" +:+ name +:+ "'")),
               self)
    end.

(** [self.name = a] *)
Definition setattr (name : string) (a : attr) : Setup unit :=
  fun self => (Ok tt, <[name := a]> self).

(** A step of a builtin, and a call into a library. *)
Definition builtin {A} (r : outcome exn A) : Setup A :=
  lift match r with Ok a => Ok a | Raise e => Raise (Builtin e) end.

Definition library {A} (r : outcome failure A) : Setup A :=
  lift match r with Ok a => Ok a | Raise e => Raise (Library e) end.

(** [self.name] where a method or a call follows that asks for a parser,
    a client or a plain value. The class assigns no other kind of value
    under these names; one that was there would lack what is asked of
    it. *)
Definition getattr_parser (name : string) : Setup parser :=
  let* a := getattr name in
  match a with
  | AParser p => ret p
  | _ => raise (AttributeError "object has no attribute 'get'")
  end.

Definition getattr_client (name : string) : Setup client :=
  let* a := getattr name in
  match a with
  | AClient r => ret r
  | _ => raise (AttributeError "object has no attribute 'register_script'")
  end.

Definition getattr_scalar (name : string) : Setup scalar :=
  let* a := getattr name in
  match a with
  | AScalar x => ret x
  | _ => raise (Builtin (TypeError "expected a string"))
  end.

(** [self._config.get(section, option)] *)
Definition option_of (section option : string) : Setup string :=
  let* config := getattr_parser "_config" in
  library (config_get config section option).

(** The new parser is the object's parser before the file is read
    into it, and stays so if the reading raises. *)
Definition _load_config (fs : files) : Setup unit :=
  setattr "_config" (AParser SafeConfigParser) ;;
  let* config := getattr_parser "_config" in
  let* config_path := getattr_scalar "config_path" in
  let read := config_read fs config_path config in
  setattr "_config" (AParser read.2) ;;
  library read.1.

Definition reload_config (fs : files) (config_path : kwarg) : Setup unit :=
  let config_path := or_default SNone config_path in
  (if truthy config_path then setattr "config_path" (AScalar config_path) else ret tt) ;;
  _load_config fs.

(** One of the six blocks of [_load_lua_scripts]: the block of the
    script [name] reads [<name>.lua] into [self._lua_<name>_script] and
    registers it as [self._lua_<name>]. *)
Definition load_script (fs : files) (lua_script_path name : string) : Setup unit :=
  let* text := library (open_read fs (path_join lua_script_path (name +:+ ".lua"))) in
  setattr ("_lua_" +:+ name +:+ "_script") (AScalar (SStr text)) ;;
  let* r := getattr_client "_r" in
  let* text := getattr_scalar ("_lua_" +:+ name +:+ "_script") in
  let* registered := library (register_script r text) in
  setattr ("_lua_" +:+ name) (AScript registered).

Definition _load_lua_scripts (fs : files) : Setup unit :=
  let lua_script_path := path_join module_dir "scripts/lua" in
  load_script fs lua_script_path "enqueue" ;;
  load_script fs lua_script_path "dequeue" ;;
  load_script fs lua_script_path "finish" ;;
  load_script fs lua_script_path "interval" ;;
  load_script fs lua_script_path "requeue" ;;
  load_script fs lua_script_path "metrics".

Definition reload_lua_scripts (fs : files) : Setup unit := _load_lua_scripts fs.

Definition _initialize (fs : files) : Setup unit :=
  let* key_prefix := option_of "redis" "key_prefix" in
  setattr "_key_prefix" (AScalar (SStr key_prefix)) ;;
  let* job_expire_interval := option_of "sharq" "job_expire_interval" in
  let* job_expire_interval := builtin (int (SStr job_expire_interval)) in
  setattr "_job_expire_interval" (AScalar (SInt job_expire_interval)) ;;
  let* redis_connection_type := option_of "redis" "conn_type" in
  let* db := option_of "redis" "db" in
  (if String.eqb redis_connection_type "unix_sock" then
     let* unix_socket_path := option_of "redis" "unix_socket_path" in
     let* r := library (StrictRedis [("db", db); ("unix_socket_path", unix_socket_path)]) in
     setattr "_r" (AClient r)
   else if String.eqb redis_connection_type "tcp_sock" then
     let* host := option_of "redis" "host" in
     let* port := option_of "redis" "port" in
     let* r := library (StrictRedis [("db", db); ("host", host); ("port", port)]) in
     setattr "_r" (AClient r)
   else
     ret tt) ;;
  _load_lua_scripts fs.

Definition __init__ (fs : files) (config_path : scalar) : Setup unit :=
  setattr "config_path" (AScalar config_path) ;;
  _load_config fs ;;
  _initialize fs.

End Construction.

(** The scripts, in the order [_load_lua_scripts] loads them. *)
Definition script_names : list string :=
  ["enqueue"; "dequeue"; "finish"; "interval"; "requeue"; "metrics"].

(** The file of a script. *)
Definition script_file {H : Host} (name : string) : string :=
  path_join (path_join module_dir "scripts/lua") (name +:+ ".lua").


(** ** The scripts *)

Module Lua.

Import Redis.

(** The six scripts of [sharq/scripts/lua] ([enqueue.lua],
    [dequeue.lua], [finish.lua], [interval.lua], [requeue.lua],
    [metrics.lua]) are registered by [_load_lua_scripts] and read from
    disk; their text is not in [queue.py]. Each definition of this module
    follows the numbered steps of its section of the specification
    (4.5.1 to 4.5.5, and 4.6 for the counters read by [metrics]) over
    the key schema of section 3. Where the specification is silent the
    choice made is said in the definition's comment. *)

(** Modelled from the spec: section 3, the job list [P:T:Q] of a
    tenant, head first. *)
Definition job_list_key (P T Q : string) : string := P +:+ ":" +:+ T +:+ ":" +:+ Q.

(** Modelled from the spec: section 3, the payload map [P:payload]. *)
Definition payload_map_key (P : string) : string := P +:+ ":payload".

(** Modelled from the spec: section 3, the field ["T:Q:J"] of a job in
    the payload map. *)
Definition payload_field (T Q J : string) : string := T +:+ ":" +:+ Q +:+ ":" +:+ J.

(** Modelled from the spec: section 3, the interval map [P:interval]. *)
Definition interval_map_key (P : string) : string := P +:+ ":interval".

(** Modelled from the spec: section 3, the field ["T:Q"] of a tenant in
    the interval map. *)
Definition interval_field (T Q : string) : string := T +:+ ":" +:+ Q.

(** Modelled from the spec: section 3, the ready set [P:T] of a type,
    tenants scored by the time they may next be dequeued. *)
Definition ready_set_key (P T : string) : string := P +:+ ":" +:+ T.

(** Modelled from the spec: section 3, the active set [P:T:active] of a
    type, tokens scored by the time their job expires. *)
Definition active_set_key (P T : string) : string := P +:+ ":" +:+ T +:+ ":active".

(** Modelled from the spec: section 3, the token ["Q:J"] of a job in
    flight. *)
Definition active_token (Q J : string) : string := Q +:+ ":" +:+ J.

(** Modelled from the spec: section 3, the registry
    [P:ready:queue_type] of the types with ready work. *)
Definition ready_types_key (P : string) : string := P +:+ ":ready:queue_type".

(** Modelled from the spec: section 3, the registry
    [P:active:queue_type] of the types with work in flight. *)
Definition active_types_key (P : string) : string := P +:+ ":active:queue_type".

(** Modelled from the spec: section 3, the minute bucket of a rate
    counter. The specification leaves its spelling open; here it is the
    number of whole minutes since the epoch. *)
Definition minute_of (now : Z) : Z := (now `div` 60000)%Z.

(** Modelled from the spec: section 3, the rate counters
    [K:enqueue:<minute>] and [K:dequeue:<minute>], with [K] the prefix
    or the job list of a tenant. *)
Definition counter_key (K kind : string) (minute : Z) : string :=
  K +:+ ":" +:+ kind +:+ ":" +:+ pretty minute.

(** Modelled from the spec: the scripts take times and intervals as
    numbers; this is [tonumber(s)] where the script goes on to compute
    with the result, decimal integers being all the client sends. *)
Definition tonumber (s : string) : cmd Z :=
  match Py.parse_int s with
  | Some n => ret n
  | None => raise "ERR Error running script: attempt to perform arithmetic on a nil value"
  end.

(** Modelled from the spec: each script is given its keys and arguments
    by position; any other number of them is an error of the script. *)
Definition bad_call : string := "ERR Error running script: wrong number of keys or arguments".

(** Modelled from the spec: step 6 of section 4.5.1 and step 8 of
    4.5.2, the global and the tenant's counter of the minute go up by
    one. Counters are kept for good, which meets the retention of at
    least ten minutes. *)
Definition count (P T Q kind : string) (now : Z) : cmd unit :=
  INCR (counter_key P kind (minute_of now)) ;;
  INCR (counter_key (job_list_key P T Q) kind (minute_of now)) ;;
  ret tt.

(** Modelled from the spec: section 4.5.1,
    [enqueue(P, T; now, Q, J, payload, interval)]. The reply, which the
    client drops, is the word the section uses. *)
Definition enqueue (KEYS ARGV : list string) : cmd reply :=
  match KEYS, ARGV with
  | [P; T], [now; Q; J; payload; interval] =>
      let* now := tonumber now in
      let* bound := HEXISTS (interval_map_key P) (interval_field T Q) in
      (if bound : bool then ret tt
       else HSET (interval_map_key P) (interval_field T Q) interval ;; ret tt) ;;
      RPUSH (job_list_key P T Q) J ;;
      HSET (payload_map_key P) (payload_field T Q J) payload ;;
      let* score := ZSCORE (ready_set_key P T) Q in
      (match score with
       | Some _ => ret tt
       | None => ZADD (ready_set_key P T) now Q ;; ret tt
       end) ;;
      SADD (ready_types_key P) T ;;
      count P T Q "enqueue" now ;;
      ret (Single (SStr "queued"))
  | _, _ => raise bad_call
  end.

(** Modelled from the spec: section 4.5.2,
    [dequeue(P, T; now, expire_ms)]. No ready work is the empty reply;
    a payload that is missing is a [nil], at which the reply to the
    client ends. A ready tenant with no job, or with no interval where
    one is needed, breaks the invariants of section 3 and is a script
    error. *)
Definition dequeue (KEYS ARGV : list string) : cmd reply :=
  match KEYS, ARGV with
  | [P; T], [now; expire_ms] =>
      let* now := tonumber now in
      let* expire_ms := tonumber expire_ms in
      let* ready := ZRANGEBYSCORE_upto (ready_set_key P T) now in
      match ready with
      | [] => ret (Multi [])
      | Q :: _ =>
          let* head := LPOP (job_list_key P T Q) in
          match head with
          | None => raise "ERR Error running script: attempt to concatenate a nil value"
          | Some J =>
              let* payload := HGET (payload_map_key P) (payload_field T Q J) in
              let* remaining := LLEN (job_list_key P T Q) in
              (if (remaining =? 0)%Z then ZREM (ready_set_key P T) Q ;; ret tt
               else
                 let* interval := HGET (interval_map_key P) (interval_field T Q) in
                 let* interval := tonumber (default "" interval) in
                 ZADD (ready_set_key P T) (now + interval) Q ;; ret tt) ;;
              let* tenants := ZCARD (ready_set_key P T) in
              (if (tenants =? 0)%Z then SREM (ready_types_key P) T ;; ret tt else ret tt) ;;
              ZADD (active_set_key P T) (now + expire_ms) (active_token Q J) ;;
              SADD (active_types_key P) T ;;
              count P T Q "dequeue" now ;;
              ret (match payload with
                   | Some payload => Multi [Atom (SStr Q); Atom (SStr J); Atom (SStr payload)]
                   | None => Multi [Atom (SStr Q); Atom (SStr J)]
                   end)
          end
      end
  | _, _ => raise bad_call
  end.

(** Modelled from the spec: section 4.5.3, [finish(P, T; Q, J)]. *)
Definition finish (KEYS ARGV : list string) : cmd reply :=
  match KEYS, ARGV with
  | [P; T], [Q; J] =>
      let* removed := ZREM (active_set_key P T) (active_token Q J) in
      if (removed =? 0)%Z then ret (Single (SInt 0))
      else
        HDEL (payload_map_key P) (payload_field T Q J) ;;
        let* active := ZCARD (active_set_key P T) in
        (if (active =? 0)%Z then SREM (active_types_key P) T ;; ret tt else ret tt) ;;
        ret (Single (SInt 1))
  | _, _ => raise bad_call
  end.

(** Modelled from the spec: section 4.5.4,
    [interval(P:interval, P:T:Q; interval)]. The client sends ["T:Q"]
    as the second key: it is the field of the interval map, and the job
    list is looked up under the prefix the first key starts with. *)
Definition interval (KEYS ARGV : list string) : cmd reply :=
  match KEYS, ARGV with
  | [interval_map; tenant], [interval] =>
      let P := substring 0 (String.length interval_map - String.length ":interval") interval_map in
      let* jobs := LLEN (P +:+ ":" +:+ tenant) in
      let* bound := HEXISTS interval_map tenant in
      if (jobs =? 0)%Z && negb bound then ret (Single (SInt 0))
      else HSET interval_map tenant interval ;; ret (Single (SInt 1))
  | _, _ => raise bad_call
  end.

(** Modelled from the spec: section 4.5.5, steps 1 to 4 for one expired
    token, which is split at its first colon. *)
Definition requeue_one (P T : string) (now : Z) (token : string) : cmd unit :=
  let Q := Py.split_head ":" token in
  let J := default "" (Py.split_tail ":" token) in
  ZREM (active_set_key P T) token ;;
  LPUSH (job_list_key P T Q) J ;;
  let* score := ZSCORE (ready_set_key P T) Q in
  (match score with
   | Some _ => ret tt
   | None => ZADD (ready_set_key P T) now Q ;; ret tt
   end) ;;
  SADD (ready_types_key P) T ;;
  let* active := ZCARD (active_set_key P T) in
  if (active =? 0)%Z then SREM (active_types_key P) T ;; ret tt else ret tt.

(** Modelled from the spec: section 4.5.5, [requeue(P, T; now)], over
    the tokens whose score is at most [now]. The script's reply, which
    the client drops, is [nil]. *)
Definition requeue (KEYS ARGV : list string) : cmd reply :=
  match KEYS, ARGV with
  | [P; T], [now] =>
      let* now := tonumber now in
      let* expired := ZRANGEBYSCORE_upto (active_set_key P T) now in
      for_each expired (requeue_one P T now) ;;
      ret (Single SNone)
  | _, _ => raise bad_call
  end.

(** Modelled from the spec: section 4.6, the minutes
    [now_minute, ..., now_minute - 9]. *)
Fixpoint last_minutes (n : nat) (minute : Z) : list Z :=
  match n with
  | O => []
  | S n' => minute :: last_minutes n' (minute - 1)
  end.

(** Modelled from the spec: section 4.6, the counters of those minutes
    as the client reads them, each minute followed by its count, [nil]
    where no counter exists. *)
Fixpoint read_counters (K kind : string) (minutes : list Z) : cmd (list scalar) :=
  match minutes with
  | [] => ret []
  | m :: minutes' =>
      let* c := GET (counter_key K kind m) in
      let* rest := read_counters K kind minutes' in
      ret (SStr (pretty m) :: from_option SStr SNone c :: rest)
  end.

(** Modelled from the spec: section 4.6, the per-minute counts of the
    last ten minutes under the key [K] ([P] for the global rates,
    [P:T:Q] for a tenant's), in the shape the client unpacks: the row of
    the enqueues, then that of the dequeues. *)
Definition metrics (KEYS ARGV : list string) : cmd reply :=
  match KEYS, ARGV with
  | [K], [now] =>
      let* now := tonumber now in
      let minutes := last_minutes 10 (minute_of now) in
      let* enqueues := read_counters K "enqueue" minutes in
      let* dequeues := read_counters K "dequeue" minutes in
      ret (Multi [Row enqueues; Row dequeues])
  | _, _ => raise bad_call
  end.

End Lua.

(** ** An instance of the helpers, and a configured client *)

Module SpecUtils.

(** Modelled from the spec: section 4.1, the characters of an
    identifier: letters, digits, [_] and [-]. *)
Definition identifier_char (c : ascii) : bool :=
  let n := nat_of_ascii c in
  ((65 <=? n) && (n <=? 90) || (97 <=? n) && (n <=? 122) || (48 <=? n) && (n <=? 57)
   || (n =? 95) || (n =? 45))%nat.

(** Modelled from the spec: [is_valid_identifier] of [sharq.utils],
    section 4.1: non-empty, letters, digits, [_] and [-] only, of bounded
    length. The bound, which the specification does not give, is a
    parameter. *)
Definition is_valid_identifier (max_length : nat) (x : scalar) : bool :=
  match x with
  | SStr s =>
      negb (String.eqb s "") && (String.length s <=? max_length)%nat
      && forallb identifier_char (list_ascii_of_string s)
  | _ => false
  end.

(** Modelled from the spec: [is_valid_interval] of [sharq.utils],
    section 4.1: an integer, at least the floor set by policy and at most
    [2^31 - 1]. *)
Definition is_valid_interval (floor : Z) (x : scalar) : bool :=
  match x with
  | SInt n => ((floor <=? n) && (n <=? 2 ^ 31 - 1))%Z
  | _ => false
  end.

(** Modelled from the spec: the payload codec of [sharq.utils], section
    4.2, is opaque: any pair with [deserialize(serialize(x)) == x] whose
    [serialize] rejects what it cannot encode. This is the least such
    pair: a byte string is its own token, anything else is
    unserializable. *)
Definition serialize_payload (payload : value) : outcome exn string :=
  match payload with
  | VStr s => Ok s
  | _ => Raise (TypeError "can't serialize payload")
  end.

(** Modelled from the spec: the inverse of [serialize_payload] above. *)
Definition deserialize_payload (token : item) : outcome exn value :=
  match token with
  | Atom (SStr s) => Ok (VStr s)
  | _ => Raise (TypeError "can't deserialize payload")
  end.

(** The helpers with identifiers of at most a hundred characters and
    the floor of 1000 ms on intervals. *)
Definition utils : Utils :=
  Build_Utils (is_valid_identifier 100) (is_valid_interval 1000)
    serialize_payload deserialize_payload.

(** A client configured with the prefix and the expiry of the
    specification's scenarios, its scripts those of [Lua]. *)
Definition sharq : SharQ := {|
  _key_prefix := "sharq";
  _job_expire_interval := 2000;
  _lua_enqueue := Lua.enqueue;
  _lua_dequeue := Lua.dequeue;
  _lua_finish := Lua.finish;
  _lua_interval := Lua.interval;
  _lua_requeue := Lua.requeue;
  _lua_metrics := Lua.metrics;
|}.

(** The clock whose readings are [times], then the last of them for
    good. *)
Definition clock_of (times : list Z) : nat -> Z :=
  fun k => default (default 0%Z (last times)) (times !! k).

(** An empty store, nothing sent yet. *)
Definition boot (times : list Z) : world := World ∅ (clock_of times) 0 [].

(** The world once [c] has run in [w]. *)
Definition after {A} (c : M A) (w : world) : world := (c w).2.

Definition sms : kwarg := Given (SStr "sms").

(** One job queued at time 0: ["hello"] as [j1] of the tenant [q1],
    type [sms], to be dequeued no more often than every five seconds. *)
Definition one_queued : world :=
  after (enqueue (U := utils) sharq (VStr "hello") (SInt 5000) (SStr "j1") (SStr "q1") sms)
    (boot [0%Z]).

(** That job dequeued, and not finished. *)
Definition one_in_flight : world := after (dequeue (U := utils) sharq sms) one_queued.

(** Two tenants: the job of [q1] in flight, the job of [q2] ready. *)
Definition two_tenants : world :=
  after (dequeue (U := utils) sharq sms)
    (after (enqueue (U := utils) sharq (VStr "world") (SInt 5000) (SStr "j2") (SStr "q2") sms)
       one_queued).

(** The replies to a sequence of requests, each made in the world the
    one before it left. *)
Fixpoint replies (requests : list (M dict)) (w : world) : list (outcome exn dict) :=
  match requests with
  | [] => []
  | c :: requests' => (c w).1 :: replies requests' (c w).2
  end.

(** A method that returns nothing, among requests that return a
    dictionary. *)
Definition no_reply (c : M unit) : M dict := c ;; ret [].

End SpecUtils.

(** * Properties *)

(** ** Vocabulary of the statements *)

Definition status (s : string) : dict := [("status", VStr s)].

(** The payload is one the codec cannot serialize. *)
Definition unserializable {U : Utils} (payload : value) : Prop :=
  exists message, serialize_payload payload = Raise (TypeError message).

(** The outcome is a bad-argument error. *)
Definition bad_argument {A} (r : outcome exn A) : Prop :=
  exists message, r = Raise (BadArgumentException message).

(** The token of a serialized payload, as [enqueue] hands it to its
    script. *)
Definition payload_token (serialized : string) : string := dquote +:+ serialized +:+ dquote.

(** The event of one run of the requeue script, for the type [T] at the
    time [t]. *)
Definition requeue_call (self : SharQ) (t : Z) (T : string) : event :=
  EvScript Requeue [SStr (_key_prefix self); SStr T] [SStr (pretty t)].

(** The loop of [requeue] over the types, at the timestamp [t]. *)
Definition requeue_loop (self : SharQ) (t : Z) (types : list string) : M unit :=
  for_each types (fun queue_type =>
    call_script Requeue (_lua_requeue self)
      [SStr (_key_prefix self); SStr queue_type] [SStr (str (SInt t))] ;;
    ret tt).

(** No character of [s] is [c]. *)
Definition free_of (c : ascii) (s : string) : Prop :=
  Forall (fun x => x <> c) (list_ascii_of_string s).

(** [Q] is the part of [token] before its first colon: [Q] has no
    colon, and [token] is [Q] alone or [Q], a colon and whatever
    follows. *)
Definition before_first_colon (Q token : string) : Prop :=
  free_of ":" Q /\ (token = Q \/ exists rest, token = Q +:+ ":" +:+ rest).

(** [ids] lists, each once, the members of the ready set and the part
    before the first colon of each token of the active set. *)
Definition tenants_of (ready active : gmap string Z) (ids : list string) : Prop :=
  NoDup ids
  /\ forall Q, Q ∈ ids <->
       Q ∈ dom ready \/ exists token, token ∈ dom active /\ before_first_colon Q token.

(** The active set of the type [T] does not hold the token of the job
    [J] of the tenant [Q]. *)
Definition token_gone (P T Q J : string) (db : gmap string Redis.entry) : Prop :=
  db !! Lua.active_set_key P T = None
  \/ exists z, db !! Lua.active_set_key P T = Some (Redis.EZSet z)
               /\ z <> ∅ /\ z !! Lua.active_token Q J = None.

(** The command [c] leaves the key [k] as it finds it. *)
Definition frame {A} (k : string) (c : Redis.cmd A) : Prop :=
  forall db r db', c db = (r, db') -> db' !! k = db !! k.

(** [c], started where [Pre] holds, answers only with results and in
    states that [Post] relates. *)
Definition hoare {A} (Pre : gmap string Redis.entry -> Prop) (c : Redis.cmd A)
    (Post : A -> gmap string Redis.entry -> Prop) : Prop :=
  forall db a db', Pre db -> c db = (Ok a, db') -> Post a db'.

(** The key [key] holds the hash [h]. *)
Definition holds_hash (key : string) (h : gmap string string)
    (db : gmap string Redis.entry) : Prop :=
  db !! key = Some (Redis.EHash h).

(** The payload map holds [token] under the field of the job [J] of the
    tenant [Q] of the type [T]. *)
Definition payload_stored (P T Q J token : string) (db : gmap string Redis.entry) : Prop :=
  exists h, holds_hash (Lua.payload_map_key P) h db
            /\ h !! Lua.payload_field T Q J = Some token.

(** What the reply of the dequeue script for the type [T] is, given the
    payload map [h]: empty, or a queue id and a job id followed by the
    payload [h] holds for them, if it holds one. *)
Definition dequeue_reply (T : string) (h : gmap string string) (r : reply) : Prop :=
  r = Multi []
  \/ exists Q J,
       r = match h !! Lua.payload_field T Q J with
           | Some payload => Multi [Atom (SStr Q); Atom (SStr J); Atom (SStr payload)]
           | None => Multi [Atom (SStr Q); Atom (SStr J)]
           end.

(** ** Vocabulary of the further statements *)

(** The row of a reply of the metrics script that alternates each
    minute with its count. *)
Definition flat (pairs : list (scalar * scalar)) : list scalar :=
  concat ((fun p => [p.1; p.2]) <$> pairs).

(** The number [int(count or 0)] is, where it is one. *)
Definition count_of (count : scalar) : Z :=
  match int (or_0 count) with
  | Ok n => n
  | Raise _ => 0%Z
  end.

(** The dictionary the pairs fill, from [acc], a later minute of the
    same name replacing an earlier one. *)
Definition counts_from (acc : dict) (pairs : list (scalar * scalar)) : dict :=
  fold_left (fun d p => dict_set (str p.1) (VInt (count_of p.2)) d) pairs acc.

(** Every count of the pairs is [None], a number or a decimal string. *)
Definition countable (pairs : list (scalar * scalar)) : Prop :=
  Forall (fun p => exists n, int (or_0 p.2) = Ok n) pairs.

(** The body of the loop of [metrics], as [count_details] runs it. *)
Definition count_body (enqueue_details dequeue_details : item) (i : nat)
    : comp (dict * dict) exn unit :=
  let* count := lift (item_index enqueue_details (i + 1)) in
  let* count := lift (int (or_0 count)) in
  let* minute := lift (item_index enqueue_details i) in
  set_enqueue_count (str minute) count ;;
  let* count := lift (item_index dequeue_details (i + 1)) in
  let* count := lift (int (or_0 count)) in
  let* minute := lift (item_index dequeue_details i) in
  set_dequeue_count (str minute) count.

(** The object once the block of the script [name] has stored [text]
    and its registration [f]. *)
Definition with_script {H : Host} (text : string -> string) (f : string -> script)
    (self : object) (name : string) : object :=
  <["_lua_" +:+ name := AScript (f name)]>
    (<["_lua_" +:+ name +:+ "_script" := AScalar (SStr (text name))]> self).

(** An attribute as a string, an integer, a script, when it is one. *)
Definition the_string {H : Host} (a : attr) : option string :=
  match a with AScalar (SStr s) => Some s | _ => None end.

Definition the_int {H : Host} (a : attr) : option Z :=
  match a with AScalar (SInt n) => Some n | _ => None end.

Definition the_script {H : Host} (a : attr) : option script :=
  match a with AScript f => Some f | _ => None end.

(** The attributes the methods of the queue read, when the object has
    them all. *)
Definition as_SharQ {H : Host} (self : object) : option SharQ :=
  key_prefix ← self !! "_key_prefix" ≫= the_string;
  job_expire_interval ← self !! "_job_expire_interval" ≫= the_int;
  lua_enqueue ← self !! "_lua_enqueue" ≫= the_script;
  lua_dequeue ← self !! "_lua_dequeue" ≫= the_script;
  lua_finish ← self !! "_lua_finish" ≫= the_script;
  lua_interval ← self !! "_lua_interval" ≫= the_script;
  lua_requeue ← self !! "_lua_requeue" ≫= the_script;
  lua_metrics ← self !! "_lua_metrics" ≫= the_script;
  Some (Build_SharQ key_prefix job_expire_interval lua_enqueue lua_dequeue lua_finish
          lua_interval lua_requeue lua_metrics).

(** The options [_initialize] reads whatever the connection type, in
    the order it reads them. *)
Definition common_options : list (string * string) :=
  [("redis", "key_prefix"); ("sharq", "job_expire_interval"); ("redis", "conn_type");
   ("redis", "db")].

(** The attributes [_initialize] sets before it opens a connection. *)
Definition configured {H : Host} (key_prefix : string) (job_expire_interval : Z)
    (self : object) : object :=
  <["_job_expire_interval" := AScalar (SInt job_expire_interval)]>
    (<["_key_prefix" := AScalar (SStr key_prefix)]> self).

(** ** More clients, and a host, for the examples *)

Module SpecDoubles.

Import SpecUtils.

(** A client whose dequeue script answers with four fields. *)
Definition talkative : SharQ := {|
  _key_prefix := "sharq";
  _job_expire_interval := 2000;
  _lua_enqueue := Lua.enqueue;
  _lua_dequeue := fun _ _ =>
    ret (Multi [Atom (SStr "q1"); Atom (SStr "j1"); Atom (SStr (payload_token "hello"));
                Atom (SStr "more")]);
  _lua_finish := Lua.finish;
  _lua_interval := Lua.interval;
  _lua_requeue := Lua.requeue;
  _lua_metrics := Lua.metrics;
|}.

(** A client whose requeue script fails for the type [a]. *)
Definition failing : SharQ := {|
  _key_prefix := "sharq";
  _job_expire_interval := 2000;
  _lua_enqueue := Lua.enqueue;
  _lua_dequeue := Lua.dequeue;
  _lua_finish := Lua.finish;
  _lua_interval := Lua.interval;
  _lua_requeue := fun KEYS _ =>
    if decide (KEYS = ["sharq"; "a"]) then raise "ERR" else ret (Single SNone);
  _lua_metrics := Lua.metrics;
|}.

(** Three types with jobs in flight. *)
Definition three_types : world :=
  World {["sharq:active:queue_type" := Redis.ESet {["a"; "b"; "c"]}]} (clock_of [7%Z]) 0 [].

(** The ten minutes up to minute 0, the first with [count]. *)
Definition ten_minutes (count : scalar) : item :=
  Row [SStr "0"; count; SStr "-1"; SNone; SStr "-2"; SNone; SStr "-3"; SNone;
       SStr "-4"; SNone; SStr "-5"; SNone; SStr "-6"; SNone; SStr "-7"; SNone;
       SStr "-8"; SNone; SStr "-9"; SNone].

(** The counts of these ten minutes, the first being [count]. *)
Definition ten_counts (count : Z) : dict :=
  [("0", VInt count); ("-1", VInt 0); ("-2", VInt 0); ("-3", VInt 0); ("-4", VInt 0);
   ("-5", VInt 0); ("-6", VInt 0); ("-7", VInt 0); ("-8", VInt 0); ("-9", VInt 0)].

End SpecDoubles.

Module SpecHost.

(** A file system of two kinds of files: configuration files, each a
    table of [(section, option, value)], and text files. *)
Record disk : Type := {
  configs : list (string * list (string * string * string));
  texts : list (string * string);
}.

(** The file at [path], if there is one. *)
Fixpoint file_at {A} (path : string) (dir : list (string * A)) : option A :=
  match dir with
  | [] => None
  | (name, file) :: dir' => if String.eqb name path then Some file else file_at path dir'
  end.

(** The table has an entry of the section. *)
Definition has_section (table : list (string * string * string)) (section : string) : bool :=
  existsb (fun entry => String.eqb entry.1.1 section) table.

(** The value of an option of a section, if the table has it. *)
Fixpoint find_option (table : list (string * string * string)) (section key : string) :
    option string :=
  match table with
  | [] => None
  | (s, o, v) :: table' =>
      if String.eqb s section && String.eqb o key then Some v
      else find_option table' section key
  end.

(** [get(section, option)] on the table: a section that is not there is
    a [NoSectionError], an option that its section lacks a
    [NoOptionError], each named with its message. *)
Definition lookup_option (table : list (string * string * string)) (section option : string) :
    outcome string string :=
  match find_option table section option with
  | Some v => Ok v
  | None =>
      if has_section table section
      then Raise ("NoOptionError: No option '" +:+ option +:+ "' in section: '"
                  +:+ section +:+ "'")
      else Raise ("NoSectionError: No section: '" +:+ section +:+ "'")
  end.

(** A script file holds the name of its script; registering the name
    gives the script of [Lua]. *)
Definition interpret (text : scalar) : outcome string script :=
  match text with
  | SStr "enqueue" => Ok Lua.enqueue
  | SStr "dequeue" => Ok Lua.dequeue
  | SStr "finish" => Ok Lua.finish
  | SStr "interval" => Ok Lua.interval
  | SStr "requeue" => Ok Lua.requeue
  | SStr "metrics" => Ok Lua.metrics
  | _ => Raise "ResponseError"
  end.

(** A host for the examples: the parser is the table read so far, a
    missing configuration file is skipped, the client is its keywords,
    and the package lives in [/opt/sharq]. *)
Definition host : Host := {|
  parser := list (string * string * string);
  client := list (string * string);
  files := disk;
  failure := string;
  SafeConfigParser := [];
  config_read := fun fs path table =>
    match path with
    | SStr file => (Ok tt, table ++ default [] (file_at file (configs fs)))
    | _ => (Raise "TypeError", table)
    end;
  config_get := lookup_option;
  StrictRedis := Ok;
  register_script := fun _ text => interpret text;
  module_dir := "/opt/sharq";
  open_read := fun fs path =>
    match file_at path (texts fs) with
    | Some text => Ok text
    | None => Raise "IOError"
    end;
|}.

(** The six script files, where [_load_lua_scripts] looks for them. *)
Definition scripts_installed : list (string * string) :=
  (fun name => (script_file (H := host) name, name)) <$> script_names.

(** The options of a client of a local server, of connection type
    [conn_type]. *)
Definition tcp_config (conn_type : string) : list (string * string * string) :=
  [("redis", "key_prefix", "sharq"); ("sharq", "job_expire_interval", "2000");
   ("redis", "conn_type", conn_type); ("redis", "db", "0");
   ("redis", "host", "127.0.0.1"); ("redis", "port", "6379")].

(** An installation configured for a TCP connection. *)
Definition installed : disk :=
  {| configs := [("/etc/sharq.conf", tcp_config "tcp_sock")]; texts := scripts_installed |}.

(** The same with a connection type the constructor does not know. *)
Definition misconfigured : disk :=
  {| configs := [("/etc/sharq.conf", tcp_config "tcp")]; texts := scripts_installed |}.

(** The installation after [finish.lua] was removed. *)
Definition finish_removed : disk :=
  {| configs := configs installed;
     texts := filter (fun file => file.2 <> "finish") scripts_installed |}.

(** A configuration that lacks the option [db] and nothing else. *)
Definition without_db : list (string * string * string) :=
  [("redis", "key_prefix", "sharq"); ("sharq", "job_expire_interval", "2000");
   ("redis", "conn_type", "tcp_sock");
   ("redis", "host", "127.0.0.1"); ("redis", "port", "6379")].

(** A configuration that lacks the section [sharq], and the option
    [db] as well. *)
Definition without_sharq : list (string * string * string) :=
  [("redis", "key_prefix", "sharq"); ("redis", "conn_type", "tcp_sock");
   ("redis", "host", "127.0.0.1"); ("redis", "port", "6379")].

(** The installation with these two configuration files. *)
Definition incomplete : disk :=
  {| configs := [("/etc/without_db.conf", without_db);
                 ("/etc/without_sharq.conf", without_sharq)];
     texts := scripts_installed |}.

(** The client of that installation. *)
Definition tcp_client : list (string * string) :=
  [("db", "0"); ("host", "127.0.0.1"); ("port", "6379")].

(** An object that has this client and nothing else. *)
Definition connected : gmap string (attr (H := host)) :=
  {["_r" := AClient (H := host) tcp_client]}.

(** What registering the text [name] gives. *)
Definition registered (name : string) : script :=
  match interpret (SStr name) with
  | Ok f => f
  | Raise _ => fun _ _ => raise "NOSCRIPT"
  end.

End SpecHost.

(** ** Strings *)

Lemma substring_0_app (s t : string) : substring 0 (String.length s) (s +:+ t) = s.
Proof.
  induction s as [|c s IH]; simpl.
  - by destruct t.
  - by rewrite IH.
Qed.

Lemma length_app (s t : string) :
  String.length (s +:+ t) = String.length s + String.length t.
Proof. induction s as [|c s IH]; simpl; [done | by rewrite IH]. Qed.

(** Stripping the first and the last character undoes the quoting. *)
Lemma slice_payload_token (s : string) : slice_1_m1 (payload_token s) = s.
Proof.
  unfold slice_1_m1, payload_token, dquote.
  change (String (ascii_of_nat 34) "" +:+ s +:+ String (ascii_of_nat 34) "")
    with (String (ascii_of_nat 34) (s +:+ String (ascii_of_nat 34) "")).
  cbn [String.length substring].
  rewrite length_app. cbn [String.length].
  replace (S (String.length s + 1) - 2) with (String.length s) by lia.
  apply substring_0_app.
Qed.

Lemma app_inv_head_string (p a b : string) : p +:+ a = p +:+ b -> a = b.
Proof. induction p as [|c p IH]; simpl; [done |]. intros H. injection H as H. auto. Qed.

Lemma split_head_app (sep : ascii) (s rest : string) :
  free_of sep s -> split_head sep (s +:+ String sep rest) = s.
Proof.
  unfold free_of. induction s as [|c s IH]; simpl; intros Hfree.
  - by rewrite Ascii.eqb_refl.
  - apply Forall_cons in Hfree as [Hc Hfree]. apply Ascii.eqb_neq in Hc as ->.
    by rewrite IH.
Qed.

Lemma split_head_free (sep : ascii) (s : string) : free_of sep (split_head sep s).
Proof.
  unfold free_of. induction s as [|c s IH]; simpl; [constructor |].
  destruct (Ascii.eqb c sep) eqn:Hc; simpl; [constructor |].
  constructor; [by apply Ascii.eqb_neq | done].
Qed.

Lemma split_head_id (sep : ascii) (s : string) : free_of sep s -> split_head sep s = s.
Proof.
  unfold free_of. induction s as [|c s IH]; simpl; intros Hfree; [done |].
  apply Forall_cons in Hfree as [Hc Hfree]. apply Ascii.eqb_neq in Hc as ->.
  by rewrite IH.
Qed.

Lemma split_head_cases (sep : ascii) (s : string) :
  s = split_head sep s \/ exists rest, s = split_head sep s +:+ String sep rest.
Proof.
  induction s as [|c s IH]; simpl; [by left |].
  destruct (Ascii.eqb c sep) eqn:Hc; simpl.
  - apply Ascii.eqb_eq in Hc as ->. right. by exists s.
  - destruct IH as [IH | [rest IH]]; [left | right; exists rest];
      try change (String c s = String c (split_head sep s +:+ String sep rest)); congruence.
Qed.

(** The part before the first colon is what [split(':')[0]] gives, and
    nothing else is. *)
Lemma before_first_colon_split (Q token : string) :
  before_first_colon Q token <-> Q = split_head ":" token.
Proof.
  unfold before_first_colon. split.
  - intros [Hfree [-> | [rest ->]]]; symmetry;
      [by apply split_head_id | by apply split_head_app].
  - intros ->. split; [apply split_head_free |].
    destruct (split_head_cases ":" token) as [H | [rest H]]; [by left | right; by exists rest].
Qed.

(** Refutes [H : "literal" = T +:+ ":suffix"] by reading [T] off the
    literal one character at a time. *)
Ltac peel T H :=
  repeat (destruct T as [|? T]; simpl in H; [discriminate H | injection H as _ H]);
  destruct T; discriminate H.

(** The key of the active set of a type is neither the payload map nor
    the registry of active types, whatever the type is called. *)
Lemma payload_map_not_active_set (P T : string) :
  Lua.payload_map_key P <> Lua.active_set_key P T.
Proof.
  unfold Lua.payload_map_key, Lua.active_set_key. intros H.
  apply app_inv_head_string in H. injection H as H. peel T H.
Qed.

Lemma active_types_not_active_set (P T : string) :
  Lua.active_types_key P <> Lua.active_set_key P T.
Proof.
  unfold Lua.active_types_key, Lua.active_set_key. intros H.
  apply app_inv_head_string in H. injection H as H. peel T H.
Qed.

(** ** The store *)

Section Frame.

Import Redis.

Lemma frame_ret {A} k (a : A) : frame k (ret a).
Proof. by intros db r db' [= _ <-]. Qed.

Lemma frame_raise {A} k e : frame k (raise e : cmd A).
Proof. by intros db r db' [= _ <-]. Qed.

Lemma frame_bind {A B} k (c : cmd A) (f : A -> cmd B) :
  frame k c -> (forall a, frame k (f a)) -> frame k (bind c f).
Proof.
  intros Hc Hf db r db'. unfold bind.
  destruct (c db) as [[a | e] db1] eqn:Hrun.
  - intros Hk. rewrite (Hf a _ _ _ Hk). eauto.
  - intros [= _ <-]. eauto.
Qed.

Lemma frame_get_key k key : frame k (get_key key).
Proof. by intros db r db' [= _ <-]. Qed.

Lemma frame_set_key k key e : k <> key -> frame k (set_key key e).
Proof. intros Hne db r db' [= _ <-]. by rewrite lookup_insert_ne. Qed.

Lemma frame_del_key k key : k <> key -> frame k (del_key key).
Proof. intros Hne db r db' [= _ <-]. by rewrite lookup_delete_ne. Qed.

End Frame.

(** Commands are built from reads and writes of single keys: a frame
    goal is split along the command. *)
Ltac frame_step :=
  match goal with
  | |- frame _ (bind _ _) => apply frame_bind; [| intros ?]
  | |- frame _ (match ?x with _ => _ end) => destruct x
  | |- frame _ (if ?b then _ else _) => destruct b
  | |- frame _ (ret _) => apply frame_ret
  | |- frame _ (raise _) => apply frame_raise
  | |- frame _ (Redis.get_key _) => apply frame_get_key
  | |- frame _ (Redis.set_key _ _) => apply frame_set_key; try done
  | |- frame _ (Redis.del_key _) => apply frame_del_key; try done
  end.

Ltac frame_prim := intros; repeat frame_step.

Section Store.

Import Redis.

Lemma frame_HDEL k key field : k <> key -> frame k (HDEL key field).
Proof. unfold HDEL, read_hash, write_hash. frame_prim. Qed.

Lemma frame_SREM k key member : k <> key -> frame k (SREM key member).
Proof. unfold SREM, read_set, write_set. frame_prim. Qed.

Lemma frame_ZCARD k key : frame k (ZCARD key).
Proof. unfold ZCARD, read_zset. frame_prim. Qed.

(** Reading writes nothing. *)
Lemma read_set_keeps key db : (read_set key db).2 = db.
Proof.
  unfold read_set, get_key, bind. simpl.
  by destruct (db !! key) as [[]|].
Qed.

Lemma read_zset_keeps key db : (read_zset key db).2 = db.
Proof.
  unfold read_zset, get_key, bind. simpl.
  by destruct (db !! key) as [[]|].
Qed.

(** The ranks [0 .. -1] are the whole list. *)
Lemma rank_range_all {A} (l : list A) : rank_range l 0 (-1) = l.
Proof.
  unfold rank_range. destruct l as [|x l]; [done |].
  set (len := Z.of_nat (length (x :: l))).
  assert (Hlen : (0 < len)%Z) by (subst len; simpl length; lia).
  change (0 <? 0)%Z with false. change (-1 <? 0)%Z with true. cbv iota.
  replace (len + -1)%Z with (len - 1)%Z by lia. rewrite Z.min_id.
  replace (len - 1 <? 0)%Z with false by (symmetry; apply Z.ltb_ge; lia).
  replace (len <=? 0)%Z with false by (symmetry; apply Z.leb_gt; lia).
  cbv iota beta. simpl orb. cbv iota.
  replace (Z.to_nat (len - 1 - 0 + 1)) with (length (x :: l)) by (subst len; lia).
  change (Z.to_nat 0) with 0. rewrite drop_0. apply firstn_all.
Qed.

Lemma elem_of_zset_sorted (z : gmap string Z) (m : string) :
  m ∈ (zset_sorted z).*1 <-> m ∈ dom z.
Proof.
  unfold zset_sorted. rewrite merge_sort_Permutation.
  rewrite elem_of_dom. rewrite list_elem_of_fmap. split.
  - intros [[m' s] [-> Hin]]. apply elem_of_map_to_list in Hin. by exists s.
  - intros [s Hs]. exists (m, s). split; [done |]. by apply elem_of_map_to_list.
Qed.

(** [ZRANGE key 0 -1] answers with every member of the sorted set at
    [key], and writes nothing. *)
Lemma ZRANGE_all key db z :
  (read_zset key db).1 = Ok z ->
  exists members,
    ZRANGE key 0 (-1) db = (Ok members, db)
    /\ forall m, m ∈ members <-> m ∈ dom z.
Proof.
  intros Hread. exists ((zset_sorted z).*1). split.
  - unfold ZRANGE, bind. pose proof (read_zset_keeps key db) as Hkeep.
    destruct (read_zset key db) as [[z' | e] db']; simpl in *; [| done].
    injection Hread as ->. subst db'. unfold ret. by rewrite rank_range_all.
  - apply elem_of_zset_sorted.
Qed.

End Store.

(** ** Scripts as commands with pre- and postconditions *)

Section Hoare.
Import Redis.

Lemma hoare_ret {A} (Pre : gmap string entry -> Prop) (a : A) (Post : A -> gmap string entry -> Prop) :
  (forall db, Pre db -> Post a db) -> hoare Pre (ret a) Post.
Proof. intros H db a' db' Hpre Hrun. unfold ret in Hrun. simplify_eq. auto. Qed.

Lemma hoare_raise {A} Pre e (Post : A -> gmap string entry -> Prop) : hoare Pre (raise e) Post.
Proof. by intros db a db' _ [=]. Qed.

Lemma hoare_bind {A B} Pre (c : cmd A) Mid (f : A -> cmd B) Post :
  hoare Pre c Mid -> (forall a, hoare (Mid a) (f a) Post) -> hoare Pre (bind c f) Post.
Proof.
  intros Hc Hf db b db' Hpre. unfold bind.
  destruct (c db) as [[a | e] db1] eqn:Hrun; [| done].
  intros Hk. eapply Hf; [| exact Hk]. eapply Hc; eauto.
Qed.

Lemma hoare_True {A} (c : cmd A) : hoare (fun _ => True) c (fun _ _ => True).
Proof. by intros db a db' _ _. Qed.

Lemma hoare_weaken {A} (Pre Pre' : gmap string entry -> Prop) (c : cmd A)
    (Post Post' : A -> gmap string entry -> Prop) :
  hoare Pre' c Post' -> (forall db, Pre db -> Pre' db) ->
  (forall a db, Post' a db -> Post a db) -> hoare Pre c Post.
Proof.
  intros Hc Hpre Hpost db a db' Hdb Hrun. apply Hpost.
  eapply Hc; [apply Hpre; exact Hdb | exact Hrun].
Qed.

Lemma hoare_for_each {A} (I : gmap string entry -> Prop) (xs : list A) (body : A -> cmd unit) :
  (forall x, hoare I (body x) (fun _ => I)) -> hoare I (for_each xs body) (fun _ => I).
Proof.
  intros Hbody. induction xs as [|x xs IH]; simpl.
  - by apply hoare_ret.
  - eapply hoare_bind; [apply Hbody | intros ?; apply IH].
Qed.

(** A command that succeeded on a key of another kind than a hash did
    not find a hash there: the hash at [pm] is as it was. *)
Ltac keeps_hash k pm :=
  let db := fresh "db" in let a := fresh "a" in let db' := fresh "db'" in
  let Hpre := fresh "Hpre" in let Hrun := fresh "Hrun" in
  intros db a db' Hpre Hrun; unfold holds_hash in *;
  destruct (decide (k = pm)) as [-> | Hne];
  [ rewrite Hpre in Hrun; simpl in Hrun; discriminate Hrun
  | destruct (db !! k) as [[]|]; simpl in Hrun;
    repeat case_decide; simpl in Hrun; simplify_eq;
    rewrite ?lookup_insert_ne, ?lookup_delete_ne by done; done ].

Variables (pm : string) (h : gmap string string).

Lemma keeps_ZADD k s m : hoare (holds_hash pm h) (ZADD k s m) (fun _ => holds_hash pm h).
Proof.
  unfold ZADD, read_zset, write_zset, bind, get_key, set_key, del_key, ret, raise.
  keeps_hash k pm.
Qed.

Lemma keeps_ZREM k m : hoare (holds_hash pm h) (ZREM k m) (fun _ => holds_hash pm h).
Proof.
  unfold ZREM, read_zset, write_zset, bind, get_key, set_key, del_key, ret, raise.
  keeps_hash k pm.
Qed.

Lemma keeps_SADD k m : hoare (holds_hash pm h) (SADD k m) (fun _ => holds_hash pm h).
Proof.
  unfold SADD, read_set, write_set, bind, get_key, set_key, del_key, ret, raise.
  keeps_hash k pm.
Qed.

Lemma keeps_SREM k m : hoare (holds_hash pm h) (SREM k m) (fun _ => holds_hash pm h).
Proof.
  unfold SREM, read_set, write_set, bind, get_key, set_key, del_key, ret, raise.
  keeps_hash k pm.
Qed.

Lemma keeps_RPUSH k v : hoare (holds_hash pm h) (RPUSH k v) (fun _ => holds_hash pm h).
Proof.
  unfold RPUSH, read_list, write_list, bind, get_key, set_key, del_key, ret, raise.
  intros db a db' Hpre Hrun. unfold holds_hash in *.
  destruct (decide (k = pm)) as [-> | Hne]; [by rewrite Hpre in Hrun |].
  destruct (db !! k) as [[| l | | |]|]; simpl in Hrun; try done.
  - destruct (l ++ [v]); simpl in Hrun; simplify_eq;
      rewrite ?lookup_insert_ne, ?lookup_delete_ne by done; done.
  - simplify_eq. by rewrite lookup_insert_ne.
Qed.

Lemma keeps_LPOP k : hoare (holds_hash pm h) (LPOP k) (fun _ => holds_hash pm h).
Proof.
  unfold LPOP, read_list, write_list, bind, get_key, set_key, del_key, ret, raise.
  intros db a db' Hpre Hrun. unfold holds_hash in *.
  destruct (decide (k = pm)) as [-> | Hne]; [by rewrite Hpre in Hrun |].
  destruct (db !! k) as [[| [|x [|y l]] | | |]|]; simpl in Hrun; simplify_eq;
    rewrite ?lookup_insert_ne, ?lookup_delete_ne by done; done.
Qed.


Lemma keeps_INCR k : hoare (holds_hash pm h) (INCR k) (fun _ => holds_hash pm h).
Proof.
  unfold INCR, GET, bind, get_key, set_key, ret, raise.
  intros db a db' Hpre Hrun. unfold holds_hash in *.
  destruct (decide (k = pm)) as [-> | Hne]; [by rewrite Hpre in Hrun |].
  destruct (db !! k) as [[s | | | |]|]; simpl in Hrun; try done.
  - destruct (parse_int s); simpl in Hrun; [| done]. simplify_eq. by rewrite lookup_insert_ne.
  - simplify_eq. by rewrite lookup_insert_ne.
Qed.

(** A command that leaves the key alone keeps what it holds. *)
Lemma keeps_of_frame {A} (c : cmd A) :
  frame pm c -> hoare (holds_hash pm h) c (fun _ => holds_hash pm h).
Proof. intros Hframe db a db' Hpre Hrun. unfold holds_hash. by rewrite (Hframe _ _ _ Hrun). Qed.

Lemma hoare_pure {A} (fact : Prop) Pre (c : cmd A) Post :
  (fact -> hoare Pre c Post) -> hoare (fun db => fact /\ Pre db) c Post.
Proof. intros Hc db a db' [Hfact Hpre]. by apply Hc. Qed.

Lemma HGET_spec field :
  hoare (holds_hash pm h) (HGET pm field) (fun r db => r = h !! field /\ holds_hash pm h db).
Proof.
  intros db a db' Hpre. unfold HGET, read_hash, bind, get_key, ret. unfold holds_hash in Hpre.
  rewrite Hpre. simpl. by intros [= <- <-].
Qed.

End Hoare.

(** One step of a script that keeps the hash at its key. *)
Ltac keep :=
  first
    [ apply keeps_ZADD | apply keeps_ZREM | apply keeps_SADD | apply keeps_SREM
    | apply keeps_RPUSH | apply keeps_LPOP | apply keeps_INCR
    | solve [ apply keeps_of_frame;
              unfold Lua.tonumber, Redis.ZSCORE, Redis.ZCARD, Redis.LLEN, Redis.HEXISTS,
                Redis.HGET, Redis.ZRANGEBYSCORE_upto, Redis.read_zset, Redis.read_list,
                Redis.read_hash;
              frame_prim ] ].

Ltac keep_all :=
  repeat first
    [ keep
    | eapply hoare_bind; [keep | intros ?]
    | apply hoare_ret; intros; assumption
    | apply hoare_raise
    | match goal with
      | |- hoare _ (match ?x with _ => _ end) _ => destruct x
      | |- hoare _ (if ?b then _ else _) _ => destruct b
      end ].

Section Scripts.

Import Redis.

Variables P T : string.

Lemma keeps_count h Q kind now :
  hoare (holds_hash (Lua.payload_map_key P) h) (Lua.count P T Q kind now)
    (fun _ => holds_hash (Lua.payload_map_key P) h).
Proof. unfold Lua.count. keep_all. Qed.

Lemma Lua_dequeue_spec h now expire_ms :
  hoare (holds_hash (Lua.payload_map_key P) h) (Lua.dequeue [P; T] [now; expire_ms])
    (fun r db => holds_hash (Lua.payload_map_key P) h db /\ dequeue_reply T h r).
Proof.
  unfold Lua.dequeue.
  eapply hoare_bind; [keep | intros now'].
  eapply hoare_bind; [keep | intros expire'].
  eapply hoare_bind; [keep | intros ready].
  destruct ready as [|Q ready].
  { apply hoare_ret. intros db Hdb. split; [done | by left]. }
  eapply hoare_bind; [keep | intros head].
  destruct head as [J|]; [| apply hoare_raise].
  eapply hoare_bind; [apply HGET_spec | intros payload].
  apply hoare_pure. intros ->.
  eapply hoare_bind; [keep | intros remaining].
  eapply hoare_bind.
  { instantiate (1 := fun _ => holds_hash (Lua.payload_map_key P) h).
    destruct (remaining =? 0)%Z; keep_all. }
  intros ?.
  eapply hoare_bind; [keep | intros tenants].
  eapply hoare_bind.
  { instantiate (1 := fun _ => holds_hash (Lua.payload_map_key P) h).
    destruct (tenants =? 0)%Z; keep_all. }
  intros ?.
  eapply hoare_bind; [keep | intros ?].
  eapply hoare_bind; [keep | intros ?].
  eapply hoare_bind; [apply keeps_count | intros ?].
  apply hoare_ret. intros db Hdb. split; [done |]. right. by exists Q, J.
Qed.


(** The reply of the dequeue script is a list of at most three
    elements, whatever it is run on. *)
Lemma Lua_dequeue_reply_length KEYS ARGV db r db' :
  Lua.dequeue KEYS ARGV db = (Ok r, db') ->
  exists fields, r = Multi fields /\ length fields <= 3.
Proof.
  intros Hrun.
  assert (Hspec : hoare (fun _ => True) (Lua.dequeue KEYS ARGV)
                    (fun r _ => exists fields, r = Multi fields /\ length fields <= 3)).
  { clear. unfold Lua.dequeue.
    repeat first
      [ apply hoare_raise
      | apply hoare_ret; intros; eexists; split; [reflexivity | simpl; lia]
      | eapply hoare_bind; [apply hoare_True | intros ?]
      | match goal with
        | |- hoare _ (match ?x with _ => _ end) _ => destruct x
        | |- hoare _ (ret (match ?x with _ => _ end)) _ => destruct x
        end ]. }
  exact (Hspec db r db' I Hrun).
Qed.

Lemma keeps_payload_stored {A} Q J token (c : cmd A) :
  (forall h, hoare (holds_hash (Lua.payload_map_key P) h) c
               (fun _ => holds_hash (Lua.payload_map_key P) h)) ->
  hoare (payload_stored P T Q J token) c (fun _ => payload_stored P T Q J token).
Proof.
  intros Hc db a db' (h & Hh & Hfield) Hrun. exists h. split; [| done].
  eapply Hc; eauto.
Qed.

Lemma HSET_payload_spec Q J token :
  hoare (fun _ => True) (HSET (Lua.payload_map_key P) (Lua.payload_field T Q J) token)
    (fun _ => payload_stored P T Q J token).
Proof.
  intros db a db' _. unfold HSET, read_hash, write_hash, bind, get_key, set_key, ret, raise.
  destruct (db !! Lua.payload_map_key P) as [[| | | | h]|]; simpl; try done.
  - rewrite decide_False by apply insert_non_empty. simpl. intros [= _ <-].
    exists (<[Lua.payload_field T Q J := token]> h). unfold holds_hash.
    by rewrite !lookup_insert_eq.
  - rewrite decide_False by apply insert_non_empty. simpl. intros [= _ <-].
    exists (<[Lua.payload_field T Q J := token]> ∅). unfold holds_hash.
    by rewrite !lookup_insert_eq.
Qed.

Lemma Lua_enqueue_spec now Q J token interval :
  hoare (fun _ => True) (Lua.enqueue [P; T] [now; Q; J; token; interval])
    (fun _ => payload_stored P T Q J token).
Proof.
  unfold Lua.enqueue.
  eapply hoare_bind; [apply hoare_True | intros ?].
  eapply hoare_bind; [apply hoare_True | intros ?].
  eapply hoare_bind; [apply hoare_True | intros ?].
  eapply hoare_bind; [apply hoare_True | intros ?].
  eapply hoare_bind; [apply HSET_payload_spec | intros ?].
  eapply hoare_bind; [apply keeps_payload_stored; intros; keep | intros score].
  eapply hoare_bind.
  { instantiate (1 := fun _ => payload_stored P T Q J token).
    apply keeps_payload_stored. intros h. destruct score; keep_all. }
  intros ?.
  eapply hoare_bind; [apply keeps_payload_stored; intros; keep | intros ?].
  eapply hoare_bind; [apply keeps_payload_stored; intros; apply keeps_count | intros ?].
  by apply hoare_ret.
Qed.

End Scripts.

(** ** The finish script *)

Section FinishScript.

Import Redis.

Variables P T Q J : string.

(** Where the token is gone, the script answers 0 and writes nothing. *)
Lemma finish_script_gone db :
  token_gone P T Q J db -> Lua.finish [P; T] [Q; J] db = (Ok (Single (SInt 0)), db).
Proof.
  unfold token_gone, Lua.finish, ZREM, read_zset, write_zset, bind, get_key, ret.
  intros [HK | (z & HK & Hz & Htok)]; rewrite HK; simpl.
  - rewrite delete_empty. simpl.
    rewrite decide_True by done. unfold del_key. simpl.
    by rewrite delete_id.
  - rewrite (delete_id z) by done. rewrite decide_False by done.
    unfold set_key. simpl. rewrite Htok. simpl.
    by rewrite insert_id.
Qed.

(** Where the script answers anything but 0, the token is gone
    afterwards. *)
Lemma finish_script_removes db r db' :
  Lua.finish [P; T] [Q; J] db = (Ok r, db') -> r <> Single (SInt 0) -> token_gone P T Q J db'.
Proof.
  unfold Lua.finish. unfold bind at 1.
  destruct (ZREM (Lua.active_set_key P T) (Lua.active_token Q J) db) as [[removed | e] db1] eqn:Hrem;
    [| done].
  assert (H1 : token_gone P T Q J db1).
  { revert Hrem. unfold token_gone, ZREM, read_zset, write_zset, bind, get_key, ret, raise.
    destruct (db !! Lua.active_set_key P T) as [[]|] eqn:HK; simpl; try done.
    - case_decide as Hempty; simpl; intros [= _ <-].
      + left. apply lookup_delete_eq.
      + right. eexists. rewrite lookup_insert_eq. split_and!; [done | done |].
        apply lookup_delete_eq.
    - rewrite delete_empty. rewrite decide_True by done. simpl. intros [= _ <-].
      left. apply lookup_delete_eq. }
  destruct (removed =? 0)%Z; [by intros [= <- <-] |].
  intros Hrest _.
  assert (HK : db' !! Lua.active_set_key P T = db1 !! Lua.active_set_key P T).
  { revert Hrest. apply frame_bind; [apply frame_HDEL, not_eq_sym, payload_map_not_active_set |].
    intros _. apply frame_bind; [apply frame_ZCARD |]. intros active.
    apply frame_bind; [| intros; apply frame_ret].
    destruct (active =? 0)%Z; [| apply frame_ret].
    apply frame_bind; [| intros; apply frame_ret].
    apply frame_SREM, not_eq_sym, active_types_not_active_set. }
  unfold token_gone. by rewrite HK.
Qed.

End FinishScript.

(** ** The methods *)

Section Properties.

Context {U : Utils} (self : SharQ).

(** *** What one request does to the world *)

Lemma call_script_run name f keys args w :
  call_script name f keys args w =
  (match (f (str <$> keys) (str <$> args) (redis w)).1 with
   | Ok r => Ok r
   | Raise message => Raise (RedisError message)
   end,
   World (f (str <$> keys) (str <$> args) (redis w)).2 (clock w) (reads w)
     (trace w ++ [EvScript name keys args])).
Proof.
  unfold call_script, bind, log, on_store. simpl.
  by destruct (f _ _ (redis w)) as [[r | message] db].
Qed.

Lemma smembers_run key w :
  smembers key w =
  (match (Redis.SMEMBERS key (redis w)).1 with
   | Ok s => Ok s
   | Raise message => Raise (RedisError message)
   end,
   World (redis w) (clock w) (reads w) (trace w ++ [EvSmembers key])).
Proof.
  unfold smembers, bind, log, on_store. simpl.
  pose proof (read_set_keeps key (redis w)) as Hkeep. unfold Redis.SMEMBERS.
  destruct (Redis.read_set key (redis w)) as [[s | message] db]; simpl in *; by subst.
Qed.

Lemma pipeline_execute_run cmds w :
  pipeline_execute cmds w =
  (match (run_commands cmds (redis w)).1 with
   | Ok rs => Ok rs
   | Raise message => Raise (RedisError message)
   end,
   World (run_commands cmds (redis w)).2 (clock w) (reads w)
     (trace w ++ [EvTransaction cmds])).
Proof.
  unfold pipeline_execute, bind, log, on_store. simpl.
  by destruct (run_commands cmds (redis w)) as [[rs | message] db].
Qed.

(** *** [enqueue] and [dequeue] *)

Lemma enqueue_run payload interval job_id queue_id queue_type w serialized :
  let T := or_default (SStr "default") queue_type in
  let keys := [SStr (_key_prefix self); T] in
  let args := [SStr (pretty (clock w (reads w))); queue_id; job_id;
               SStr (payload_token serialized); interval] in
  let script := _lua_enqueue self (str <$> keys) (str <$> args) (redis w) in
  is_valid_interval interval = true ->
  is_valid_identifier job_id = true ->
  is_valid_identifier queue_id = true ->
  is_valid_identifier T = true ->
  serialize_payload payload = Ok serialized ->
  enqueue self payload interval job_id queue_id queue_type w =
  (match script.1 with
   | Ok _ => Ok (status "queued")
   | Raise message => Raise (RedisError message)
   end,
   World script.2 (clock w) (S (reads w))
     (trace w ++ [EvEpoch (clock w (reads w)); EvScript Enqueue keys args])).
Proof.
  intros T keys args script Hi Hj Hq Ht Hs. unfold enqueue. fold T.
  rewrite Hi, Hj, Hq, Ht, Hs. simpl.
  unfold bind at 1. unfold lift at 1.
  unfold bind at 1. unfold generate_epoch at 1.
  unfold bind at 1. rewrite call_script_run. simpl.
  fold (payload_token serialized). fold keys args. subst script. simpl.
  destruct (_lua_enqueue self _ _ (redis w)) as [[r | message] db]; simpl;
    by rewrite <- app_assoc.
Qed.

(** C2. [enqueue] raises a bad-argument error exactly when the interval,
    the job id, the queue id or the queue type fails validation or the
    payload is unserializable; that error leaves the world as it was:
    the clock not read, nothing sent to the store, nothing written. On
    every other input the payload serializes and the method answers
    [{'status': 'queued'}] when the script ran and passes on the store's
    error when it did not; it has no failure status. The codec is taken
    to signal failure by [TypeError], the exception the method
    translates. *)
Theorem enqueue_bad_argument_or_queued
    (payload : value) (interval job_id queue_id : scalar) (queue_type : kwarg) (w : world)
    (Hcodec : forall e, serialize_payload payload = Raise e -> exists message, e = TypeError message) :
  let T := or_default (SStr "default") queue_type in
  let run := enqueue self payload interval job_id queue_id queue_type w in
  (bad_argument run.1 <->
     is_valid_interval interval = false \/ is_valid_identifier job_id = false \/
     is_valid_identifier queue_id = false \/ is_valid_identifier T = false \/
     unserializable payload)
  /\ (bad_argument run.1 -> run.2 = w)
  /\ (~ bad_argument run.1 ->
      exists serialized,
        serialize_payload payload = Ok serialized /\
        let keys := [_key_prefix self; str T] in
        let args := [pretty (clock w (reads w)); str queue_id; str job_id;
                     payload_token serialized; str interval] in
        run.1 = match (_lua_enqueue self keys args (redis w)).1 with
                | Ok _ => Ok (status "queued")
                | Raise message => Raise (RedisError message)
                end).
Proof.
  intros T run.
  destruct (is_valid_interval interval) eqn:Hi.
  2: { subst run. unfold enqueue. rewrite Hi. simpl.
       split_and!; [split; [by left | eexists; reflexivity] | done | intros []; eexists; reflexivity]. }
  destruct (is_valid_identifier job_id) eqn:Hj.
  2: { subst run. unfold enqueue. rewrite Hi, Hj. simpl.
       split_and!; [split; [by right; left | eexists; reflexivity] | done | intros []; eexists; reflexivity]. }
  destruct (is_valid_identifier queue_id) eqn:Hq.
  2: { subst run. unfold enqueue. rewrite Hi, Hj, Hq. simpl.
       split_and!; [split; [by right; right; left | eexists; reflexivity] | done | intros []; eexists; reflexivity]. }
  destruct (is_valid_identifier T) eqn:Ht.
  2: { subst run. unfold enqueue. fold T. rewrite Hi, Hj, Hq, Ht. simpl.
       split_and!; [split; [by right; right; right; left | eexists; reflexivity] | done | intros []; eexists; reflexivity]. }
  destruct (serialize_payload payload) as [serialized | e] eqn:Hs.
  - subst run. rewrite (enqueue_run _ _ _ _ _ _ serialized) by done. fold T. simpl.
    assert (Hnot : ~ bad_argument
      match (_lua_enqueue self [_key_prefix self; str T]
               [pretty (clock w (reads w)); str queue_id; str job_id;
                payload_token serialized; str interval] (redis w)).1 with
      | Ok _ => Ok (status "queued")
      | Raise message => Raise (RedisError message)
      end).
    { intros [message H]. by destruct (_lua_enqueue self _ _ (redis w)).1. }
    split_and!.
    + split; [done |]. intros [?|[?|[?|[?|[? ?]]]]]; congruence.
    + done.
    + intros _. by exists serialized.
  - destruct (Hcodec e eq_refl) as [message ->].
    assert (Hrun : run = (Raise (BadArgumentException message), w)).
    { subst run. unfold enqueue. fold T. by rewrite Hi, Hj, Hq, Ht, Hs. }
    rewrite Hrun. simpl. split_and!.
    + split; [| eexists; reflexivity]. intros _. do 4 right. by exists message.
    + done.
    + intros []. eexists; reflexivity.
Qed.

(** What [dequeue] returns once its script has answered [r]. *)
Lemma dequeue_run queue_type w :
  let T := or_default (SStr "default") queue_type in
  let keys := [SStr (_key_prefix self); T] in
  let args := [SStr (pretty (clock w (reads w))); SInt (_job_expire_interval self)] in
  let script := _lua_dequeue self (str <$> keys) (str <$> args) (redis w) in
  let w' := World script.2 (clock w) (S (reads w))
              (trace w ++ [EvEpoch (clock w (reads w)); EvScript Dequeue keys args]) in
  is_valid_identifier T = true ->
  dequeue self queue_type w =
  match script.1 with
  | Raise message => (Raise (RedisError message), w')
  | Ok r =>
      (let* len := lift (reply_len r) in
       if (len <? 3)%nat then ret (status "failure")
       else
         let* fields := lift (reply_seq r) in
         let* (queue_id, job_id, payload) := lift (unpack3 fields) in
         let* payload := lift (item_slice_1_m1 payload) in
         let* payload := lift (deserialize_payload payload) in
         ret [("status", VStr "success"); ("queue_id", value_of_item queue_id);
              ("job_id", value_of_item job_id); ("payload", payload)]) w'
  end.
Proof.
  intros T keys args script w' Ht. unfold dequeue. fold T. rewrite Ht. simpl.
  unfold bind at 1. unfold generate_epoch at 1.
  unfold bind at 1. rewrite call_script_run. simpl.
  subst w' script. simpl.
  destruct (_lua_dequeue self _ _ (redis w)) as [[r | message] db]; simpl;
    by rewrite <- app_assoc.
Qed.

(** C3. For a valid queue type, when the dequeue script answers with the
    list [fields] (of at most three elements, as the script of section
    4.5.2 does): if it has fewer than three elements the reply is
    [{'status': 'failure'}] and nothing else; otherwise it is the
    triple of a queue id, a job id and a payload token, and the reply is
    [{'status': 'success'}] with that queue id, that job id and the
    payload deserialized from the token without its first and last
    character. *)
Theorem dequeue_failure_or_success (queue_type : kwarg) (w : world) (fields : list item) :
  let T := or_default (SStr "default") queue_type in
  let run := dequeue self queue_type w in
  is_valid_identifier T = true ->
  (_lua_dequeue self [_key_prefix self; str T]
     [pretty (clock w (reads w)); pretty (_job_expire_interval self)] (redis w)).1
    = Ok (Multi fields) ->
  length fields <= 3 ->
  (length fields < 3 -> run.1 = Ok (status "failure"))
  /\ (~ length fields < 3 ->
      exists queue_id job_id token,
        fields = [queue_id; job_id; token] /\
        forall stripped payload,
          item_slice_1_m1 token = Ok stripped ->
          deserialize_payload stripped = Ok payload ->
          run.1 = Ok [("status", VStr "success");
                      ("queue_id", value_of_item queue_id);
                      ("job_id", value_of_item job_id);
                      ("payload", payload)]).
Proof.
  intros T run Ht Hscript Hlen. subst run.
  rewrite dequeue_run by done. fold T. simpl. rewrite Hscript. simpl.
  unfold bind at 1. unfold lift at 1.
  split.
  - intros Hlt. apply Nat.ltb_lt in Hlt. by rewrite Hlt.
  - intros Hge.
    destruct fields as [|queue_id [|job_id [|token [|extra fields]]]]; simpl in *; try lia.
    exists queue_id, job_id, token. split; [done |].
    intros stripped payload Hstrip Hpayload.
    unfold bind, lift. simpl. by rewrite Hstrip, Hpayload.
Qed.

(** C1. For every payload the codec accepts, [enqueue] hands its script,
    as fourth argument, the serialized payload between two double
    quotes; and a [dequeue] whose script returns that token for the job
    answers with a payload equal to the one enqueued: stripping the
    first and the last character undoes the quoting, and the codec's
    [deserialize(serialize(x)) == x] does the rest. *)
Theorem payload_round_trip
    (payload : value) (interval job_id queue_id : scalar) (queue_type : kwarg) (w : world)
    (serialized : string)
    (Hcodec : forall x s, serialize_payload x = Ok s -> deserialize_payload (Atom (SStr s)) = Ok x) :
  let T := or_default (SStr "default") queue_type in
  is_valid_interval interval = true ->
  is_valid_identifier job_id = true ->
  is_valid_identifier queue_id = true ->
  is_valid_identifier T = true ->
  serialize_payload payload = Ok serialized ->
  exists token,
    token = payload_token serialized
    /\ trace (enqueue self payload interval job_id queue_id queue_type w).2
       = trace w ++
         [EvEpoch (clock w (reads w));
          EvScript Enqueue [SStr (_key_prefix self); T]
            [SStr (pretty (clock w (reads w))); queue_id; job_id; SStr token; interval]]
    /\ forall (queue_type' : kwarg) (w' : world) (queue_id' job_id' : item),
         let T' := or_default (SStr "default") queue_type' in
         is_valid_identifier T' = true ->
         (_lua_dequeue self [_key_prefix self; str T']
            [pretty (clock w' (reads w')); pretty (_job_expire_interval self)] (redis w')).1
           = Ok (Multi [queue_id'; job_id'; Atom (SStr token)]) ->
         (dequeue self queue_type' w').1
         = Ok [("status", VStr "success");
               ("queue_id", value_of_item queue_id');
               ("job_id", value_of_item job_id');
               ("payload", payload)].
Proof.
  intros T Hi Hj Hq Ht Hs. exists (payload_token serialized). split_and!; [done | |].
  - rewrite (enqueue_run _ _ _ _ _ _ serialized) by done. simpl.
    done.
  - intros queue_type' w' queue_id' job_id' T' Ht' Hscript.
    rewrite dequeue_run by done. fold T'. simpl. rewrite Hscript. simpl.
    unfold bind, lift. simpl. rewrite slice_payload_token.
    by rewrite (Hcodec _ _ Hs).
Qed.
(** The store's part of C1, for the scripts of sections 4.5.1 and 4.5.2:
    when [enqueue] has queued a payload and the [dequeue] that follows
    it, for the same type, returns the job and the queue it was enqueued
    under, the payload of the reply is the payload enqueued. *)
Theorem enqueue_then_dequeue_payload
    (payload : value) (interval job_id queue_id : scalar) (queue_type : kwarg) (w : world)
    (serialized : string)
    (Hcodec : forall x s, serialize_payload x = Ok s -> deserialize_payload (Atom (SStr s)) = Ok x) :
  let T := or_default (SStr "default") queue_type in
  let queued := enqueue self payload interval job_id queue_id queue_type w in
  _lua_enqueue self = Lua.enqueue ->
  _lua_dequeue self = Lua.dequeue ->
  is_valid_interval interval = true ->
  is_valid_identifier job_id = true ->
  is_valid_identifier queue_id = true ->
  is_valid_identifier T = true ->
  serialize_payload payload = Ok serialized ->
  queued.1 = Ok (status "queued") ->
  forall response,
    (dequeue self queue_type queued.2).1 = Ok response ->
    dict_get "queue_id" response = Some (VStr (str queue_id)) ->
    dict_get "job_id" response = Some (VStr (str job_id)) ->
    dict_get "payload" response = Some payload.
Proof.
  intros T queued Henqueue Hdequeue Hi Hj Hq Ht Hs. subst queued.
  rewrite (enqueue_run _ _ _ _ _ _ serialized) by done. fold T. simpl.
  rewrite Henqueue.
  destruct (Lua.enqueue _ _ (redis w)) as [[r | message] db] eqn:Hrun; simpl; [| done].
  intros _ response.
  apply Lua_enqueue_spec in Hrun as (h & Hh & Hfield); [| done].
  rewrite dequeue_run by done. fold T. simpl. rewrite Hdequeue.
  match goal with |- context [Lua.dequeue ?K ?A db] =>
    destruct (Lua.dequeue K A db) as [[r' | message] db'] eqn:Hrun' end; simpl; [| done].
  apply (Lua_dequeue_spec _ _ h) in Hrun' as [_ Hreply]; [| done].
  destruct Hreply as [-> | (Q & J & ->)]; [by intros [= <-] |].
  destruct (h !! Lua.payload_field (str T) Q J) as [token|] eqn:Htoken; [| by intros [= <-]].
  unfold bind, lift. simpl.
  destruct (deserialize_payload (Atom (SStr (slice_1_m1 token)))) as [v | e] eqn:Hv;
    simpl; [| done].
  intros [= <-]. simpl. intros [= ->] [= ->].
  rewrite Hfield in Htoken. injection Htoken as <-.
  rewrite slice_payload_token in Hv. rewrite (Hcodec _ _ Hs) in Hv. by injection Hv as ->.
Qed.
(** *** [finish] *)

Lemma eq_0_true (r : reply) : eq_0 r = true <-> r = Single (SInt 0).
Proof.
  destruct r as [[| n |] |]; simpl; try (split; done).
  rewrite Z.eqb_eq. split; [by intros -> | by intros [= ->]].
Qed.

Lemma finish_run job_id queue_id queue_type w :
  let T := or_default (SStr "default") queue_type in
  let keys := [SStr (_key_prefix self); T] in
  let args := [queue_id; job_id] in
  let script := _lua_finish self (str <$> keys) (str <$> args) (redis w) in
  is_valid_identifier job_id = true ->
  is_valid_identifier queue_id = true ->
  is_valid_identifier T = true ->
  finish self job_id queue_id queue_type w =
  (match script.1 with
   | Ok r => Ok (status (if eq_0 r then "failure" else "success"))
   | Raise message => Raise (RedisError message)
   end,
   World script.2 (clock w) (reads w) (trace w ++ [EvScript Finish keys args])).
Proof.
  intros T keys args script Hj Hq Ht. unfold finish. fold T.
  rewrite Hj, Hq, Ht. simpl.
  unfold bind at 1. rewrite call_script_run. simpl. subst script. simpl.
  destruct (_lua_finish self _ _ (redis w)) as [[r | message] db]; simpl; [| done].
  by destruct (eq_0 r).
Qed.

(** C4. For valid identifiers, the reply of [finish] is
    [{'status': 'failure'}] when the finish script returns 0 and
    [{'status': 'success'}] when it returns anything else. With the
    finish script of section 4.5.3, a finish that succeeded is followed,
    for the same job, queue and type, by one that fails and leaves the
    store as the first left it. *)
Theorem finish_failure_iff_zero (job_id queue_id : scalar) (queue_type : kwarg) (w : world) :
  let T := or_default (SStr "default") queue_type in
  let run := finish self job_id queue_id queue_type w in
  is_valid_identifier job_id = true ->
  is_valid_identifier queue_id = true ->
  is_valid_identifier T = true ->
  (forall r,
     (_lua_finish self [_key_prefix self; str T] [str queue_id; str job_id] (redis w)).1 = Ok r ->
     (r = Single (SInt 0) -> run.1 = Ok (status "failure"))
     /\ (r <> Single (SInt 0) -> run.1 = Ok (status "success")))
  /\ (_lua_finish self = Lua.finish ->
      run.1 = Ok (status "success") ->
      let again := finish self job_id queue_id queue_type run.2 in
      again.1 = Ok (status "failure") /\ redis again.2 = redis run.2).
Proof.
  intros T run Hj Hq Ht. subst run. split.
  - intros r Hr. rewrite finish_run by done. fold T. simpl. rewrite Hr. split.
    + intros H. apply eq_0_true in H. by rewrite H.
    + intros H. destruct (eq_0 r) eqn:H0; [| done]. by apply eq_0_true in H0.
  - intros Hlua. rewrite finish_run by done. fold T. simpl. rewrite Hlua.
    destruct (Lua.finish [_key_prefix self; str T] [str queue_id; str job_id] (redis w))
      as [[r | message] db] eqn:Hfirst; simpl; [| done].
    destruct (eq_0 r) eqn:H0; [done |]. intros _.
    assert (Hgone : token_gone (_key_prefix self) (str T) (str queue_id) (str job_id) db).
    { eapply finish_script_removes; [exact Hfirst |].
      intros Hr. apply eq_0_true in Hr. congruence. }
    rewrite finish_run by done. fold T. simpl. rewrite Hlua.
    by rewrite finish_script_gone.
Qed.
(** *** [requeue] *)

Lemma requeue_loop_cons t T types w :
  requeue_loop self t (T :: types) w =
  let script := _lua_requeue self [_key_prefix self; T] [pretty t] (redis w) in
  let w1 := World script.2 (clock w) (reads w) (trace w ++ [requeue_call self t T]) in
  match script.1 with
  | Ok _ => requeue_loop self t types w1
  | Raise message => (Raise (RedisError message), w1)
  end.
Proof.
  unfold requeue_loop at 1. simpl.
  unfold bind at 1. unfold bind at 1. rewrite call_script_run. simpl.
  by destruct (_lua_requeue self _ _ (redis w)) as [[r | message] db].
Qed.

Lemma requeue_loop_run (t : Z) (types : list string) (w : world) :
  let run := requeue_loop self t types w in
  exists n,
    n <= length types
    /\ trace run.2 = trace w ++ (requeue_call self t <$> take n types)
    /\ reads run.2 = reads w
    /\ (run.1 = Ok tt -> n = length types)
    /\ (run.1 = Ok tt \/ exists message, run.1 = Raise (RedisError message)).
Proof.
  revert w. induction types as [|T types IH]; intros w.
  - exists 0. simpl. rewrite app_nil_r. repeat split; auto.
  - simpl. rewrite requeue_loop_cons. simpl.
    destruct (_lua_requeue self _ _ (redis w)) as [[r | message] db]; simpl.
    + match goal with |- context [requeue_loop _ _ _ ?w1] =>
        destruct (IH w1) as (n & Hn & Htrace & Hreads & Hok & Hres) end.
      exists (S n). simpl in *. split_and!; [lia | | done | | done].
      * rewrite Htrace. by rewrite <- app_assoc.
      * intros H. by rewrite Hok.
    + exists 1. simpl. split_and!; [lia | done | done | done |].
      right. by eexists.
Qed.

Lemma requeue_unfold (w : world) :
  let t := clock w (reads w) in
  let registry := _key_prefix self +:+ ":active:queue_type" in
  let w1 := World (redis w) (clock w) (S (reads w))
              (trace w ++ [EvEpoch t; EvSmembers registry]) in
  requeue self w =
  match (Redis.SMEMBERS registry (redis w)).1 with
  | Ok s => requeue_loop self t (elements s) w1
  | Raise message => (Raise (RedisError message), w1)
  end.
Proof.
  intros t registry w1. unfold requeue.
  unfold bind at 1. unfold generate_epoch at 1.
  unfold bind at 1. rewrite smembers_run. simpl. fold registry t.
  subst w1. rewrite <- app_assoc. simpl.
  by destruct (Redis.SMEMBERS registry (redis w)).1.
Qed.

Lemma requeue_run (w : world) :
  let t := clock w (reads w) in
  let registry := _key_prefix self +:+ ":active:queue_type" in
  let types := match (Redis.SMEMBERS registry (redis w)).1 with
               | Ok s => elements s
               | Raise _ => []
               end in
  let run := requeue self w in
  exists n,
    n <= length types
    /\ trace run.2 = trace w ++ EvEpoch t :: EvSmembers registry :: (requeue_call self t <$> take n types)
    /\ reads run.2 = S (reads w)
    /\ (run.1 = Ok tt -> n = length types /\ exists s, (Redis.SMEMBERS registry (redis w)).1 = Ok s)
    /\ (run.1 = Ok tt \/ exists message, run.1 = Raise (RedisError message)).
Proof.
  intros t registry types run. subst run types. rewrite requeue_unfold. fold t registry.
  destruct (Redis.SMEMBERS registry (redis w)).1 as [s | message]; simpl.
  - match goal with |- context [requeue_loop _ _ _ ?w1] =>
      destruct (requeue_loop_run t (elements s) w1) as (n & Hn & Htrace & Hreads & Hok & Hres) end.
    exists n. simpl in *. split_and!; [done | | done | | done].
    + rewrite Htrace. by rewrite <- !app_assoc.
    + intros H. split; [auto | by eexists].
  - exists 0. simpl. split_and!; [done | done | done | done |].
    right. by eexists.
Qed.

(** C5. [requeue] takes no argument and returns nothing. It reads the
    clock, asks the store once for the members of
    [<prefix>:active:queue_type], and then runs the requeue script for
    the enumerated types one after the other, each run with the keys
    [(prefix, type)] of a single type, no type twice; it runs it for all
    of them unless the store raises, which ends the pass. *)
Theorem requeue_one_script_per_type (w : world) (types : gset string) :
  let t := clock w (reads w) in
  let registry := _key_prefix self +:+ ":active:queue_type" in
  let run := requeue self w in
  (Redis.SMEMBERS registry (redis w)).1 = Ok types ->
  exists n,
    trace run.2 = trace w ++ EvEpoch t :: EvSmembers registry ::
                  ((fun T => EvScript Requeue [SStr (_key_prefix self); SStr T] [SStr (pretty t)])
                     <$> take n (elements types))
    /\ NoDup (elements types)
    /\ (forall T, T ∈ elements types <-> T ∈ types)
    /\ (run.1 = Ok tt -> n = length (elements types))
    /\ (run.1 = Ok tt \/ exists message, run.1 = Raise (RedisError message)).
Proof.
  intros t registry run Hreg.
  destruct (requeue_run w) as (n & Hn & Htrace & _ & Hok & Hres).
  fold registry t run in Htrace, Hok, Hres. rewrite Hreg in *.
  exists n. split_and!; [done | apply NoDup_elements | | | done].
  - intros T. apply elem_of_elements.
  - intros H. by apply Hok.
Qed.

(** C10. [requeue] reads the clock exactly once, before it asks for the
    active queue types, and every run of the requeue script in the pass
    gets that one reading as its only argument. *)
Theorem requeue_single_timestamp (w : world) :
  let t := clock w (reads w) in
  let run := requeue self w in
  reads run.2 = S (reads w)
  /\ exists calls,
       trace run.2 = trace w ++ EvEpoch t ::
                     EvSmembers (_key_prefix self +:+ ":active:queue_type") :: calls
       /\ Forall (fun e => exists T,
                    e = EvScript Requeue [SStr (_key_prefix self); SStr T] [SStr (pretty t)])
            calls.
Proof.
  intros t run.
  destruct (requeue_run w) as (n & Hn & Htrace & Hreads & _).
  split; [done |]. eexists. split; [exact Htrace |].
  apply Forall_fmap, Forall_forall. intros T _. by exists T.
Qed.

(** *** [metrics] *)

(** C7. For a valid queue type and no queue id, [metrics] sends the store
    one transaction of two reads, [ZRANGE <prefix>:<type> 0 -1] and
    [ZRANGE <prefix>:<type>:active 0 -1], writes nothing, and answers
    [{'status': 'success', 'queue_ids': ids}] where [ids] holds, each
    once, exactly the members of the ready set and the part before the
    first colon of each token of the active set. *)
Theorem metrics_queue_ids (queue_type queue_id : kwarg) (w : world)
    (ready active : gmap string Z) :
  let T := or_default SNone queue_type in
  let ready_key := _key_prefix self +:+ ":" +:+ str T in
  let active_key := _key_prefix self +:+ ":" +:+ str T +:+ ":active" in
  is_valid_identifier T = true ->
  truthy T = true ->
  or_default SNone queue_id = SNone ->
  (Redis.read_zset ready_key (redis w)).1 = Ok ready ->
  (Redis.read_zset active_key (redis w)).1 = Ok active ->
  exists ids,
    metrics self queue_type queue_id w =
      (Ok [("status", VStr "success"); ("queue_ids", VList (VStr <$> ids))],
       World (redis w) (clock w) (reads w)
         (trace w ++ [EvTransaction [Zrange ready_key 0 (-1); Zrange active_key 0 (-1)]]))
    /\ tenants_of ready active ids.
Proof.
  intros T ready_key active_key Hvalid Htruthy Hid Hready Hactive.
  destruct (ZRANGE_all _ _ _ Hready) as (ready_queues & Hzr & Hr).
  destruct (ZRANGE_all _ _ _ Hactive) as (active_queues & Hza & Ha).
  eexists. split.
  - unfold metrics. fold T. rewrite Hid. simpl is_None. simpl negb.
    rewrite andb_false_l.
    assert (HT : T <> SNone) by (intros HT; by rewrite HT in Htruthy).
    rewrite Hvalid, Htruthy. simpl negb. rewrite andb_false_r. simpl.
    assert (Hrun : run_commands [Zrange ready_key 0 (-1); Zrange active_key 0 (-1)] (redis w)
                   = (Ok [ready_queues; active_queues], redis w)).
    { simpl. unfold bind. by rewrite Hzr, Hza. }
    unfold bind at 1. rewrite pipeline_execute_run.
    fold ready_key active_key. rewrite Hrun. reflexivity.
  - split; [apply NoDup_elements |].
    intros Q. rewrite elem_of_elements, elem_of_union, !elem_of_list_to_set.
    rewrite Hr, list_elem_of_fmap. setoid_rewrite Ha.
    setoid_rewrite before_first_colon_split.
    split; (intros [? | (token & ? & ?)]; [by left | right; by exists token]).
Qed.


(** C9. [metrics] validates the identifiers it is given before anything
    else: a queue id that is given and invalid raises the invalid-value
    error for [queue_id], whether or not a queue type comes with it; and
    past that check a queue type that is given and invalid raises the one
    for [queue_type]. In both cases the world is left as it was. *)
Theorem metrics_validates_first (queue_type queue_id : kwarg) (w : world) :
  let T := or_default SNone queue_type in
  let Q := or_default SNone queue_id in
  let run := metrics self queue_type queue_id w in
  (Q <> SNone -> is_valid_identifier Q = false ->
   run = (Raise (BadArgumentException "`queue_id` has an invalid value."), w))
  /\ (Q = SNone \/ is_valid_identifier Q = true ->
      T <> SNone -> is_valid_identifier T = false ->
      run = (Raise (BadArgumentException "`queue_type` has an invalid value."), w)).
Proof.
  intros T Q run. subst run. unfold metrics. fold T Q. split.
  - intros HQ Hinvalid. rewrite Hinvalid. by destruct Q.
  - intros HQ HT Hinvalid. rewrite Hinvalid.
    assert (Hfirst : negb (is_None Q) && negb (is_valid_identifier Q) = false).
    { destruct HQ as [-> | ->]; [done | apply andb_false_r]. }
    rewrite Hfirst. by destruct T.
Qed.

(** C6. [metrics] called with a queue id and no queue type raises a
    bad-argument error and returns no reply: the invalid-value error
    when the id is invalid, the id-without-type error otherwise. The
    world is left as it was. Valid identifiers are taken to be non-empty
    (section 4.1), hence true in a condition. *)
Theorem metrics_id_without_type (queue_type : kwarg) (Q : scalar) (w : world)
    (Hnonempty : forall x, is_valid_identifier x = true -> truthy x = true) :
  or_default SNone queue_type = SNone ->
  Q <> SNone ->
  metrics self queue_type (Given Q) w =
    (Raise (BadArgumentException
              (if is_valid_identifier Q
               then "`queue_id` should be accompanied by `queue_type`."
               else "`queue_id` has an invalid value.")), w).
Proof.
  intros HT HQ. unfold metrics. cbv zeta. rewrite HT.
  change (or_default SNone (Given Q)) with Q.
  destruct (is_valid_identifier Q) eqn:Hvalid.
  - rewrite (Hnonempty Q Hvalid). by destruct Q.
  - by destruct Q.
Qed.

(** C8, as amended. In [enqueue], [dequeue], [finish] and [interval] a
    call that omits [queue_type] is the call with
    [queue_type='default']. In [metrics] it is the call with
    [queue_type=None]. ([requeue] has no such parameter.) *)
Theorem queue_type_defaults :
  (forall payload interval job_id queue_id,
     enqueue self payload interval job_id queue_id Omitted
     = enqueue self payload interval job_id queue_id (Given (SStr "default")))
  /\ dequeue self Omitted = dequeue self (Given (SStr "default"))
  /\ (forall job_id queue_id,
        finish self job_id queue_id Omitted = finish self job_id queue_id (Given (SStr "default")))
  /\ (forall milliseconds queue_id,
        interval self milliseconds queue_id Omitted
        = interval self milliseconds queue_id (Given (SStr "default")))
  /\ (forall queue_id, metrics self Omitted queue_id = metrics self (Given SNone) queue_id).
Proof. by split_and!. Qed.

End Properties.

(** ** Further properties of the methods *)

Lemma read_list_keeps key db : (Redis.read_list key db).2 = db.
Proof.
  unfold Redis.read_list, Redis.get_key, bind. simpl.
  by destruct (db !! key) as [[]|].
Qed.

Section MoreProperties.

Context {U : Utils} (self : SharQ).

(** *** Bad arguments *)

Lemma not_bad_argument_Ok {A} (a : A) : ~ bad_argument (Ok a).
Proof. by intros [message H]. Qed.

Lemma not_bad_argument_RedisError {A} message :
  ~ bad_argument (Raise (RedisError message) : outcome exn A).
Proof. by intros [message' H]. Qed.

(** *** [enqueue] *)

(** X1. [enqueue] checks its arguments in the order interval, job id,
    queue id, queue type, payload, and the first check that fails
    decides the error: the invalid-value error that names the argument,
    or, for a payload the codec rejects with a [TypeError], a
    bad-argument error with the codec's own message. Any other exception
    of the codec is raised as it is. In each case the world is left as
    it was. *)
Theorem enqueue_rejection (payload : value) (milliseconds job_id queue_id : scalar)
    (queue_type : kwarg) (w : world) :
  let T := or_default (SStr "default") queue_type in
  let run := enqueue self payload milliseconds job_id queue_id queue_type w in
  (is_valid_interval milliseconds = false ->
   run = (Raise (BadArgumentException "`interval` has an invalid value."), w))
  /\ (is_valid_interval milliseconds = true -> is_valid_identifier job_id = false ->
      run = (Raise (BadArgumentException "`job_id` has an invalid value."), w))
  /\ (is_valid_interval milliseconds = true -> is_valid_identifier job_id = true ->
      is_valid_identifier queue_id = false ->
      run = (Raise (BadArgumentException "`queue_id` has an invalid value."), w))
  /\ (is_valid_interval milliseconds = true -> is_valid_identifier job_id = true ->
      is_valid_identifier queue_id = true -> is_valid_identifier T = false ->
      run = (Raise (BadArgumentException "`queue_type` has an invalid value."), w))
  /\ (is_valid_interval milliseconds = true -> is_valid_identifier job_id = true ->
      is_valid_identifier queue_id = true -> is_valid_identifier T = true ->
      forall e, serialize_payload payload = Raise e ->
        run = (Raise match e with
                     | TypeError message => BadArgumentException message
                     | _ => e
                     end, w)).
Proof.
  intros T run. subst run. unfold enqueue. fold T. split_and!.
  - by intros ->.
  - by intros -> ->.
  - by intros -> -> ->.
  - by intros -> -> -> ->.
  - intros -> -> -> -> e ->. by destruct e.
Qed.

(** X2. An [enqueue] whose arguments pass validation reads the clock
    once and runs the enqueue script once, with the keys
    [(prefix, type)] and the arguments [(timestamp, queue_id, job_id,
    quoted payload, interval)]. The store is left as the script left
    it; the answer is [{'status': 'queued'}] whatever the script
    returned, and an error of the script is raised as the store's
    error. *)
Theorem enqueue_request (payload : value) (milliseconds job_id queue_id : scalar)
    (queue_type : kwarg) (w : world) (serialized : string) :
  let T := or_default (SStr "default") queue_type in
  let t := clock w (reads w) in
  let script := _lua_enqueue self [_key_prefix self; str T]
                  [pretty t; str queue_id; str job_id; payload_token serialized;
                   str milliseconds] (redis w) in
  let run := enqueue self payload milliseconds job_id queue_id queue_type w in
  is_valid_interval milliseconds = true ->
  is_valid_identifier job_id = true ->
  is_valid_identifier queue_id = true ->
  is_valid_identifier T = true ->
  serialize_payload payload = Ok serialized ->
  run.2 = World script.2 (clock w) (S (reads w))
            (trace w ++
             [EvEpoch t;
              EvScript Enqueue [SStr (_key_prefix self); T]
                [SStr (pretty t); queue_id; job_id; SStr (payload_token serialized);
                 milliseconds]])
  /\ (forall r, script.1 = Ok r -> run.1 = Ok (status "queued"))
  /\ (forall message, script.1 = Raise message -> run.1 = Raise (RedisError message)).
Proof.
  intros T t script run Hi Hj Hq Ht Hs. subst run.
  rewrite (enqueue_run _ _ _ _ _ _ _ serialized) by done. fold T t. simpl. fold script.
  split_and!; [done | by intros r -> | by intros message ->].
Qed.

(** *** [dequeue] *)

(** What [dequeue] makes of the reply of its script touches nothing. *)
Lemma dequeue_world queue_type w :
  let T := or_default (SStr "default") queue_type in
  let keys := [SStr (_key_prefix self); T] in
  let args := [SStr (pretty (clock w (reads w))); SInt (_job_expire_interval self)] in
  let script := _lua_dequeue self (str <$> keys) (str <$> args) (redis w) in
  is_valid_identifier T = true ->
  (dequeue self queue_type w).2
  = World script.2 (clock w) (S (reads w))
      (trace w ++ [EvEpoch (clock w (reads w)); EvScript Dequeue keys args]).
Proof.
  intros T keys args script Ht. rewrite dequeue_run by done. fold T keys args script.
  destruct script.1 as [r | message]; [| done].
  unfold bind, lift, ret.
  destruct (reply_len r) as [len | e]; simpl; [| done].
  destruct (len <? 3)%nat; simpl; [done |].
  destruct (reply_seq r) as [fields | e]; simpl; [| done].
  destruct (unpack3 fields) as [[[queue_id job_id] payload] | e]; simpl; [| done].
  destruct (item_slice_1_m1 payload) as [stripped | e]; simpl; [| done].
  by destruct (deserialize_payload stripped).
Qed.

Lemma dequeue_invalid_type (queue_type : kwarg) (w : world) :
  is_valid_identifier (or_default (SStr "default") queue_type) = false ->
  dequeue self queue_type w
  = (Raise (BadArgumentException "`queue_type` has an invalid value."), w).
Proof. intros Ht. unfold dequeue. by rewrite Ht. Qed.

(** X3. [dequeue] raises a bad-argument error exactly when the queue
    type fails validation; the error is then the invalid-value error for
    [queue_type] and the world is left as it was. The codec is taken
    not to raise that exception itself. *)
Theorem dequeue_bad_argument (queue_type : kwarg) (w : world)
    (Hcodec : forall token message,
       deserialize_payload token <> Raise (BadArgumentException message)) :
  let T := or_default (SStr "default") queue_type in
  let run := dequeue self queue_type w in
  (bad_argument run.1 <-> is_valid_identifier T = false)
  /\ (bad_argument run.1 ->
      run = (Raise (BadArgumentException "`queue_type` has an invalid value."), w)).
Proof.
  intros T run.
  destruct (is_valid_identifier T) eqn:Ht.
  2: { subst run. rewrite dequeue_invalid_type by done. split; [| done].
       split; [done | by eexists]. }
  assert (Hnot : ~ bad_argument run.1).
  { subst run. rewrite dequeue_run by done.
    match goal with |- context [(_lua_dequeue self ?K ?A (redis w)).1] =>
      destruct (_lua_dequeue self K A (redis w)).1 as [r | message] end;
      [| apply not_bad_argument_RedisError].
    unfold bind, lift, ret.
    destruct r as [[| n | s] | fields]; simpl; try by intros [? ?].
    - destruct (String.length s <? 3)%nat; simpl; [apply not_bad_argument_Ok |].
      destruct (unpack3 _) as [[[queue_id job_id] payload] | e] eqn:Hunpack; simpl.
      + destruct (item_slice_1_m1 payload) as [stripped | e] eqn:Hslice; simpl.
        * destruct (deserialize_payload stripped) as [v | e] eqn:Hv; simpl;
            [apply not_bad_argument_Ok |].
          intros [message [= ->]]. by apply Hcodec in Hv.
        * destruct payload as [[| |]|]; simpl in Hslice; simplify_eq; by intros [? ?].
      + unfold unpack3 in Hunpack. repeat case_match; simplify_eq; by intros [? ?].
    - destruct (length fields <? 3)%nat; simpl; [apply not_bad_argument_Ok |].
      destruct (unpack3 _) as [[[queue_id job_id] payload] | e] eqn:Hunpack; simpl.
      + destruct (item_slice_1_m1 payload) as [stripped | e] eqn:Hslice; simpl.
        * destruct (deserialize_payload stripped) as [v | e] eqn:Hv; simpl;
            [apply not_bad_argument_Ok |].
          intros [message [= ->]]. by apply Hcodec in Hv.
        * destruct payload as [[| |]|]; simpl in Hslice; simplify_eq; by intros [? ?].
      + unfold unpack3 in Hunpack. repeat case_match; simplify_eq; by intros [? ?]. }
  split; [| done]. split; [done | congruence].
Qed.

(** X4. For a valid queue type, [dequeue] reads the clock once and
    runs the dequeue script once, with the keys [(prefix, type)] and the
    arguments [(timestamp, job_expire_interval)]. The store is left as
    the script left it, and an error of the script is raised as the
    store's error. *)
Theorem dequeue_request (queue_type : kwarg) (w : world) :
  let T := or_default (SStr "default") queue_type in
  let t := clock w (reads w) in
  let run := dequeue self queue_type w in
  is_valid_identifier T = true ->
  trace run.2 = trace w ++
    [EvEpoch t;
     EvScript Dequeue [SStr (_key_prefix self); T] [SStr (pretty t); SInt (_job_expire_interval self)]]
  /\ reads run.2 = S (reads w)
  /\ redis run.2
     = (_lua_dequeue self [_key_prefix self; str T]
          [pretty t; pretty (_job_expire_interval self)] (redis w)).2
  /\ forall message,
       (_lua_dequeue self [_key_prefix self; str T]
          [pretty t; pretty (_job_expire_interval self)] (redis w)).1 = Raise message ->
       run.1 = Raise (RedisError message).
Proof.
  intros T t run Ht. subst run. rewrite dequeue_world by done. split_and!; try done.
  intros message Hscript. rewrite dequeue_run by done. fold T. simpl. fold t.
  by rewrite Hscript.
Qed.

(** X5. Whatever the dequeue script answers, a dictionary that
    [dequeue] returns is either [{'status': 'failure'}] or has exactly
    the keys [status] (with ['success']), [queue_id], [job_id] and
    [payload]. *)
Theorem dequeue_reply_shape (queue_type : kwarg) (w : world) (response : dict) :
  (dequeue self queue_type w).1 = Ok response ->
  response = status "failure"
  \/ exists queue_id job_id payload,
       response = [("status", VStr "success"); ("queue_id", queue_id); ("job_id", job_id);
                   ("payload", payload)].
Proof.
  destruct (is_valid_identifier (or_default (SStr "default") queue_type)) eqn:Ht.
  2: { by rewrite dequeue_invalid_type. }
  rewrite dequeue_run by done.
  match goal with |- context [(_lua_dequeue self ?K ?A (redis w)).1] =>
    destruct (_lua_dequeue self K A (redis w)).1 as [r | message] end; [| done].
  unfold bind, lift, ret.
  destruct (reply_len r) as [len | e]; simpl; [| done].
  destruct (len <? 3)%nat; simpl; [intros [= <-]; by left |].
  destruct (reply_seq r) as [fields | e]; simpl; [| done].
  destruct (unpack3 fields) as [[[queue_id job_id] payload] | e]; simpl; [| done].
  destruct (item_slice_1_m1 payload) as [stripped | e]; simpl; [| done].
  destruct (deserialize_payload stripped) as [v | e]; simpl; [| done].
  intros [= <-]. right. by eexists _, _, _.
Qed.

(** X6. When the dequeue script answers with more than three
    fields, [dequeue] fails with the [ValueError] of the unpacking, and
    the store keeps what the script did. *)
Theorem dequeue_too_many_values (queue_type : kwarg) (w : world) (fields : list item) :
  let T := or_default (SStr "default") queue_type in
  let script := _lua_dequeue self [_key_prefix self; str T]
                  [pretty (clock w (reads w)); pretty (_job_expire_interval self)] (redis w) in
  let run := dequeue self queue_type w in
  is_valid_identifier T = true ->
  script.1 = Ok (Multi fields) ->
  3 < length fields ->
  run.1 = Raise (ValueError "too many values to unpack")
  /\ redis run.2 = script.2.
Proof.
  intros T script run Ht Hscript Hlen. subst run. split.
  - rewrite dequeue_run by done. fold T. simpl. fold script. rewrite Hscript.
    unfold bind, lift. simpl.
    replace (length fields <? 3)%nat with false by (symmetry; apply Nat.ltb_ge; lia).
    by destruct fields as [|? [|? [|? [|? ?]]]]; simpl in *; try lia.
  - by rewrite dequeue_world.
Qed.

(** *** [finish] *)

(** X7. [finish] raises a bad-argument error exactly when the job
    id, the queue id or the queue type fails validation, and then leaves
    the world as it was. The checks run in that order, and the first that
    fails names its argument in the error. *)
Theorem finish_bad_argument (job_id queue_id : scalar) (queue_type : kwarg) (w : world) :
  let T := or_default (SStr "default") queue_type in
  let run := finish self job_id queue_id queue_type w in
  (bad_argument run.1 <->
     is_valid_identifier job_id = false \/ is_valid_identifier queue_id = false \/
     is_valid_identifier T = false)
  /\ (bad_argument run.1 -> run.2 = w)
  /\ (is_valid_identifier job_id = false ->
      run.1 = Raise (BadArgumentException "`job_id` has an invalid value."))
  /\ (is_valid_identifier job_id = true -> is_valid_identifier queue_id = false ->
      run.1 = Raise (BadArgumentException "`queue_id` has an invalid value."))
  /\ (is_valid_identifier job_id = true -> is_valid_identifier queue_id = true ->
      is_valid_identifier T = false ->
      run.1 = Raise (BadArgumentException "`queue_type` has an invalid value.")).
Proof.
  intros T run.
  destruct (is_valid_identifier job_id) eqn:Hj.
  2: { assert (Hrun : run = (Raise (BadArgumentException "`job_id` has an invalid value."), w))
         by (subst run; unfold finish; by rewrite Hj).
       rewrite Hrun. simpl. split_and!; try done. split; [by left | by eexists]. }
  destruct (is_valid_identifier queue_id) eqn:Hq.
  2: { assert (Hrun : run = (Raise (BadArgumentException "`queue_id` has an invalid value."), w))
         by (subst run; unfold finish; by rewrite Hj, Hq).
       rewrite Hrun. simpl. split_and!; try done. split; [by right; left | by eexists]. }
  destruct (is_valid_identifier T) eqn:Ht.
  2: { assert (Hrun : run = (Raise (BadArgumentException "`queue_type` has an invalid value."), w))
         by (subst run; unfold finish; fold T; by rewrite Hj, Hq, Ht).
       rewrite Hrun. simpl. split_and!; try done. split; [by right; right | by eexists]. }
  assert (Hnot : ~ bad_argument run.1).
  { subst run. rewrite finish_run by done.
    simpl. destruct (_lua_finish self _ _ (redis w)).1;
      [apply not_bad_argument_Ok | apply not_bad_argument_RedisError]. }
  split_and!; try done. split; [done | intros [|[|]]; congruence].
Qed.

(** X8. For valid identifiers, [finish] runs the finish script once,
    with the keys [(prefix, type)] and the arguments
    [(queue_id, job_id)], and does not read the clock. The store is left
    as the script left it, and an error of the script is raised as the
    store's error. *)
Theorem finish_request (job_id queue_id : scalar) (queue_type : kwarg) (w : world) :
  let T := or_default (SStr "default") queue_type in
  let script := _lua_finish self [_key_prefix self; str T] [str queue_id; str job_id]
                  (redis w) in
  let run := finish self job_id queue_id queue_type w in
  is_valid_identifier job_id = true ->
  is_valid_identifier queue_id = true ->
  is_valid_identifier T = true ->
  run.2 = World script.2 (clock w) (reads w)
            (trace w ++ [EvScript Finish [SStr (_key_prefix self); T] [queue_id; job_id]])
  /\ (forall message, script.1 = Raise message -> run.1 = Raise (RedisError message)).
Proof.
  intros T script run Hj Hq Ht. subst run. rewrite finish_run by done.
  fold T. simpl. fold script. split; [done | by intros message ->].
Qed.

(** *** [interval] *)

(** What a call of [interval] with valid arguments does. *)
Lemma interval_run milliseconds queue_id queue_type w :
  let T := or_default (SStr "default") queue_type in
  let keys := [SStr (_key_prefix self +:+ ":interval");
               SStr (str T +:+ ":" +:+ str queue_id)] in
  let args := [milliseconds] in
  let script := _lua_interval self (str <$> keys) (str <$> args) (redis w) in
  is_valid_interval milliseconds = true ->
  is_valid_identifier queue_id = true ->
  is_valid_identifier T = true ->
  interval self milliseconds queue_id queue_type w =
  (match script.1 with
   | Ok r => Ok (status (if eq_0 r then "failure" else "success"))
   | Raise message => Raise (RedisError message)
   end,
   World script.2 (clock w) (reads w) (trace w ++ [EvScript Interval keys args])).
Proof.
  intros T keys args script Hi Hq Ht. unfold interval. fold T.
  rewrite Hi, Hq, Ht. simpl.
  unfold bind at 1. rewrite call_script_run. simpl. subst script. simpl.
  destruct (_lua_interval self _ _ (redis w)) as [[r | message] db]; simpl; [| done].
  by destruct (eq_0 r).
Qed.

(** X9. [interval] raises a bad-argument error exactly when the
    interval, the queue id or the queue type fails validation, and then
    leaves the world as it was. The checks run in that order, and the
    first that fails names its argument in the error. *)
Theorem interval_bad_argument (milliseconds queue_id : scalar) (queue_type : kwarg)
    (w : world) :
  let T := or_default (SStr "default") queue_type in
  let run := interval self milliseconds queue_id queue_type w in
  (bad_argument run.1 <->
     is_valid_interval milliseconds = false \/ is_valid_identifier queue_id = false \/
     is_valid_identifier T = false)
  /\ (bad_argument run.1 -> run.2 = w)
  /\ (is_valid_interval milliseconds = false ->
      run.1 = Raise (BadArgumentException "`interval` has an invalid value."))
  /\ (is_valid_interval milliseconds = true -> is_valid_identifier queue_id = false ->
      run.1 = Raise (BadArgumentException "`queue_id` has an invalid value."))
  /\ (is_valid_interval milliseconds = true -> is_valid_identifier queue_id = true ->
      is_valid_identifier T = false ->
      run.1 = Raise (BadArgumentException "`queue_type` has an invalid value.")).
Proof.
  intros T run.
  destruct (is_valid_interval milliseconds) eqn:Hi.
  2: { assert (Hrun : run = (Raise (BadArgumentException "`interval` has an invalid value."), w))
         by (subst run; unfold interval; by rewrite Hi).
       rewrite Hrun. simpl. split_and!; try done. split; [by left | by eexists]. }
  destruct (is_valid_identifier queue_id) eqn:Hq.
  2: { assert (Hrun : run = (Raise (BadArgumentException "`queue_id` has an invalid value."), w))
         by (subst run; unfold interval; by rewrite Hi, Hq).
       rewrite Hrun. simpl. split_and!; try done. split; [by right; left | by eexists]. }
  destruct (is_valid_identifier T) eqn:Ht.
  2: { assert (Hrun : run = (Raise (BadArgumentException "`queue_type` has an invalid value."), w))
         by (subst run; unfold interval; fold T; by rewrite Hi, Hq, Ht).
       rewrite Hrun. simpl. split_and!; try done. split; [by right; right | by eexists]. }
  assert (Hnot : ~ bad_argument run.1).
  { subst run. rewrite interval_run by done.
    simpl. destruct (_lua_interval self _ _ (redis w)).1;
      [apply not_bad_argument_Ok | apply not_bad_argument_RedisError]. }
  split_and!; try done. split; [done | intros [|[|]]; congruence].
Qed.

(** X10. For valid arguments, [interval] runs the interval script
    once, with the keys [(<prefix>:interval, <type>:<queue_id>)] and the
    interval as its only argument, and does not read the clock. It
    answers [{'status': 'failure'}] exactly when the script returns 0
    and [{'status': 'success'}] on any other return; an error of the
    script is raised as the store's error. *)
Theorem interval_reply (milliseconds queue_id : scalar) (queue_type : kwarg) (w : world) :
  let T := or_default (SStr "default") queue_type in
  let script := _lua_interval self [_key_prefix self +:+ ":interval"; str T +:+ ":" +:+ str queue_id]
                  [str milliseconds] (redis w) in
  let run := interval self milliseconds queue_id queue_type w in
  is_valid_interval milliseconds = true ->
  is_valid_identifier queue_id = true ->
  is_valid_identifier T = true ->
  run.1 = match script.1 with
          | Ok r => Ok (status (if eq_0 r then "failure" else "success"))
          | Raise message => Raise (RedisError message)
          end
  /\ (forall r, script.1 = Ok r ->
        (run.1 = Ok (status "failure") <-> r = Single (SInt 0)))
  /\ run.2 = World script.2 (clock w) (reads w)
               (trace w ++ [EvScript Interval
                              [SStr (_key_prefix self +:+ ":interval");
                               SStr (str T +:+ ":" +:+ str queue_id)] [milliseconds]]).
Proof.
  intros T script run Hi Hq Ht. subst run. rewrite interval_run by done.
  fold T. simpl. fold script. split_and!; [done | | done].
  intros r ->. rewrite <- eq_0_true. by destruct (eq_0 r).
Qed.

(** *** [requeue] *)

(** X11. When the registry of active queue types is empty,
    [requeue] returns after reading the clock and the registry, without
    running a script. When the registry cannot be read, it raises the
    store's error at that point, also without running a script. *)
Theorem requeue_without_active_types (w : world) :
  let t := clock w (reads w) in
  let registry := _key_prefix self +:+ ":active:queue_type" in
  let w' := World (redis w) (clock w) (S (reads w))
              (trace w ++ [EvEpoch t; EvSmembers registry]) in
  ((Redis.SMEMBERS registry (redis w)).1 = Ok ∅ -> requeue self w = (Ok tt, w'))
  /\ (forall message,
        (Redis.SMEMBERS registry (redis w)).1 = Raise message ->
        requeue self w = (Raise (RedisError message), w')).
Proof.
  intros t registry w'. split.
  - intros Hnone. rewrite requeue_unfold. fold registry. rewrite Hnone.
    by rewrite elements_empty.
  - intros message Hfail. rewrite requeue_unfold. fold registry. by rewrite Hfail.
Qed.

(** The loop over a list of types is the loop over its parts, one after the other. *)
Lemma requeue_loop_app t pre post w :
  requeue_loop self t (pre ++ post) w =
  match requeue_loop self t pre w with
  | (Ok _, w1) => requeue_loop self t post w1
  | (Raise e, w1) => (Raise e, w1)
  end.
Proof.
  revert w. induction pre as [|T pre IH]; intros w; [done |].
  rewrite <- app_comm_cons, !requeue_loop_cons. simpl.
  destruct (_lua_requeue self _ _ (redis w)).1; [apply IH | done].
Qed.

(** X12. When the requeue script fails for a type, [requeue]
    raises the store's error there: the types enumerated before it have
    been requeued, what the failed run did to the store stays, and the
    types after it are not visited. *)
Theorem requeue_stops_at_first_error (w w1 : world) (types : gset string)
    (done_types rest : list string) (T message : string) :
  let t := clock w (reads w) in
  let registry := _key_prefix self +:+ ":active:queue_type" in
  let script := _lua_requeue self [_key_prefix self; T] [pretty t] (redis w1) in
  (Redis.SMEMBERS registry (redis w)).1 = Ok types ->
  elements types = done_types ++ T :: rest ->
  requeue_loop self t done_types
    (World (redis w) (clock w) (S (reads w)) (trace w ++ [EvEpoch t; EvSmembers registry]))
  = (Ok tt, w1) ->
  script.1 = Raise message ->
  requeue self w
  = (Raise (RedisError message),
     World script.2 (clock w1) (reads w1) (trace w1 ++ [requeue_call self t T])).
Proof.
  intros t registry script Hreg Helements Hdone Hfail.
  rewrite requeue_unfold. fold registry t. rewrite Hreg, Helements.
  rewrite requeue_loop_app, Hdone, requeue_loop_cons. simpl. fold script.
  by rewrite Hfail.
Qed.

(** *** [metrics] *)

Lemma llen_run key w :
  llen key w =
  (match (Redis.LLEN key (redis w)).1 with
   | Ok n => Ok n
   | Raise message => Raise (RedisError message)
   end,
   World (redis w) (clock w) (reads w) (trace w ++ [EvLlen key])).
Proof.
  unfold llen, bind, log, on_store. simpl.
  unfold Redis.LLEN, bind. pose proof (read_list_keeps key (redis w)) as Hkeep.
  destruct (Redis.read_list key (redis w)) as [[l | message] db]; simpl in *; by subst.
Qed.

(** The requests [metrics] makes for its rates, and what it reads from
    them, the script answering with two rows. *)
Lemma read_rates_run (key : string) (w : world) (active ready : gset string)
    (enqueue_details dequeue_details : item) (counts : dict * dict) :
  let t := clock w (reads w) in
  let active_key := _key_prefix self +:+ ":active:queue_type" in
  let ready_key := _key_prefix self +:+ ":ready:queue_type" in
  let script := _lua_metrics self [key] [pretty t] (redis w) in
  (Redis.SMEMBERS active_key (redis w)).1 = Ok active ->
  (Redis.SMEMBERS ready_key (redis w)).1 = Ok ready ->
  script.1 = Ok (Multi [enqueue_details; dequeue_details]) ->
  count_details enqueue_details dequeue_details = Ok counts ->
  read_rates self key w
  = (Ok (active ∪ ready, counts),
     World script.2 (clock w) (S (reads w))
       (trace w ++ [EvSmembers active_key; EvSmembers ready_key; EvEpoch t;
                    EvScript Metrics [SStr key] [SStr (pretty t)]])).
Proof.
  intros t active_key ready_key script Hactive Hready Hscript Hcounts.
  unfold read_rates. fold active_key ready_key.
  unfold bind at 1. rewrite smembers_run. simpl. rewrite Hactive.
  unfold bind at 1. rewrite smembers_run. simpl. rewrite Hready.
  unfold bind at 1. unfold generate_epoch at 1. simpl.
  unfold bind at 1. rewrite call_script_run. simpl. fold t script. rewrite Hscript.
  unfold bind, lift, ret. simpl. rewrite Hcounts. simpl.
  by rewrite <- !app_assoc.
Qed.

(** X13. Called without a queue type and without a queue id,
    [metrics] reads the two registries of queue types, reads the clock
    once and runs the metrics script once with the prefix as its key;
    when the script answers with two rows that decode, the reply is
    [{'status': 'success', 'queue_types': ..., 'enqueue_counts': ...,
    'dequeue_counts': ...}], the queue types being the union of the two
    registries. *)
Theorem metrics_global (queue_type queue_id : kwarg) (w : world) (active ready : gset string)
    (enqueue_details dequeue_details : item) (enqueue_counts dequeue_counts : dict) :
  let t := clock w (reads w) in
  let active_key := _key_prefix self +:+ ":active:queue_type" in
  let ready_key := _key_prefix self +:+ ":ready:queue_type" in
  let script := _lua_metrics self [_key_prefix self] [pretty t] (redis w) in
  or_default SNone queue_type = SNone ->
  or_default SNone queue_id = SNone ->
  (Redis.SMEMBERS active_key (redis w)).1 = Ok active ->
  (Redis.SMEMBERS ready_key (redis w)).1 = Ok ready ->
  script.1 = Ok (Multi [enqueue_details; dequeue_details]) ->
  count_details enqueue_details dequeue_details = Ok (enqueue_counts, dequeue_counts) ->
  metrics self queue_type queue_id w
  = (Ok [("status", VStr "success");
         ("queue_types", VList (VStr <$> elements (active ∪ ready)));
         ("enqueue_counts", VDict enqueue_counts);
         ("dequeue_counts", VDict dequeue_counts)],
     World script.2 (clock w) (S (reads w))
       (trace w ++ [EvSmembers active_key; EvSmembers ready_key; EvEpoch t;
                    EvScript Metrics [SStr (_key_prefix self)] [SStr (pretty t)]])).
Proof.
  intros t active_key ready_key script HT HQ Hactive Hready Hscript Hcounts.
  unfold metrics. rewrite HT, HQ. simpl.
  unfold bind at 1. by rewrite (read_rates_run _ _ active ready _ _ _ Hactive Hready Hscript Hcounts).
Qed.

(** X14. Called with a valid queue type and a valid queue id,
    [metrics] runs the metrics script on the key
    [<prefix>:<type>:<queue_id>] and then asks for the length of the list
    under that same key, as the script left it; the reply carries that
    length as [queue_length] beside the two dictionaries of counts, and
    no [queue_types]. *)
Theorem metrics_queue_length (queue_type queue_id : kwarg) (w : world)
    (active ready : gset string) (enqueue_details dequeue_details : item)
    (enqueue_counts dequeue_counts : dict) (jobs : list string) :
  let T := or_default SNone queue_type in
  let Q := or_default SNone queue_id in
  let t := clock w (reads w) in
  let key := _key_prefix self +:+ ":" +:+ str T +:+ ":" +:+ str Q in
  let script := _lua_metrics self [key] [pretty t] (redis w) in
  is_valid_identifier T = true -> truthy T = true ->
  is_valid_identifier Q = true -> truthy Q = true ->
  (Redis.SMEMBERS (_key_prefix self +:+ ":active:queue_type") (redis w)).1 = Ok active ->
  (Redis.SMEMBERS (_key_prefix self +:+ ":ready:queue_type") (redis w)).1 = Ok ready ->
  script.1 = Ok (Multi [enqueue_details; dequeue_details]) ->
  count_details enqueue_details dequeue_details = Ok (enqueue_counts, dequeue_counts) ->
  (Redis.read_list key script.2).1 = Ok jobs ->
  metrics self queue_type queue_id w
  = (Ok [("status", VStr "success");
         ("queue_length", VInt (Z.of_nat (length jobs)));
         ("enqueue_counts", VDict enqueue_counts);
         ("dequeue_counts", VDict dequeue_counts)],
     World script.2 (clock w) (S (reads w))
       (trace w ++ [EvSmembers (_key_prefix self +:+ ":active:queue_type");
                    EvSmembers (_key_prefix self +:+ ":ready:queue_type");
                    EvEpoch t;
                    EvScript Metrics [SStr key] [SStr (pretty t)];
                    EvLlen key])).
Proof.
  intros T Q t key script HT HTt HQ HQt Hactive Hready Hscript Hcounts Hjobs.
  unfold metrics. fold T Q.
  rewrite HT, HQ, HTt, HQt, !andb_false_r. simpl. fold key.
  unfold bind at 1. rewrite (read_rates_run _ _ active ready _ _ _ Hactive Hready Hscript Hcounts).
  fold t script. unfold bind at 1. rewrite llen_run. simpl.
  unfold Redis.LLEN, bind. pose proof (read_list_keeps key script.2) as Hkeep.
  destruct (Redis.read_list key script.2) as [[l | message] db]; simpl in *; [| done].
  injection Hjobs as ->. by rewrite <- !app_assoc.
Qed.

(** X15. Every dictionary [metrics] returns has the status
    ['success']: the failure status it starts from is replaced in each
    branch that returns. *)
Theorem metrics_never_failure (queue_type queue_id : kwarg) (w : world) (response : dict) :
  (metrics self queue_type queue_id w).1 = Ok response ->
  dict_get "status" response = Some (VStr "success").
Proof.
  unfold metrics.
  destruct (negb (is_None (or_default SNone queue_id)) && _); [done |].
  destruct (negb (is_None (or_default SNone queue_type)) && _); [done |].
  destruct (truthy (or_default SNone queue_type)), (truthy (or_default SNone queue_id));
    simpl; try done.
  - unfold bind. destruct (read_rates self _ w) as [[[types [ec dc]] | e] w']; simpl; [| done].
    destruct (llen _ w') as [[n | e] w'']; simpl; [| done]. by intros [= <-].
  - unfold bind. destruct (pipeline_execute _ w) as [[replies | e] w']; simpl; [| done].
    unfold lift. destruct (unpack2 replies) as [[ready active] | e]; simpl; [| done].
    by intros [= <-].
  - unfold bind. destruct (read_rates self _ w) as [[[types [ec dc]] | e] w']; simpl; [| done].
    by intros [= <-].
Qed.

(** The per-type branch of [metrics], the two sorted sets readable. *)
Lemma metrics_per_type_run (queue_type queue_id : kwarg) (w : world)
    (ready active : gmap string Z) :
  let T := or_default SNone queue_type in
  let ready_key := _key_prefix self +:+ ":" +:+ str T in
  let active_key := _key_prefix self +:+ ":" +:+ str T +:+ ":active" in
  is_valid_identifier T = true ->
  truthy T = true ->
  or_default SNone queue_id = SNone ->
  (Redis.read_zset ready_key (redis w)).1 = Ok ready ->
  (Redis.read_zset active_key (redis w)).1 = Ok active ->
  exists ready_queues active_queues,
    (forall m, m ∈ ready_queues <-> m ∈ dom ready)
    /\ (forall m, m ∈ active_queues <-> m ∈ dom active)
    /\ (metrics self queue_type queue_id w).1
       = Ok [("status", VStr "success");
             ("queue_ids",
              VList (VStr <$> elements (list_to_set ready_queues
                                          ∪ list_to_set (split_head ":" <$> active_queues)
                                        : gset string)))].
Proof.
  intros T ready_key active_key Hvalid Htruthy Hid Hready Hactive.
  destruct (ZRANGE_all _ _ _ Hready) as (ready_queues & Hzr & Hr).
  destruct (ZRANGE_all _ _ _ Hactive) as (active_queues & Hza & Ha).
  exists ready_queues, active_queues. split_and!; [done | done |].
  unfold metrics. fold T. rewrite Hid. simpl is_None. simpl negb.
  rewrite andb_false_l.
  rewrite Hvalid, Htruthy. simpl negb. rewrite andb_false_r. simpl.
  assert (Hrun : run_commands [Zrange ready_key 0 (-1); Zrange active_key 0 (-1)] (redis w)
                 = (Ok [ready_queues; active_queues], redis w)).
  { simpl. unfold bind. by rewrite Hzr, Hza. }
  unfold bind at 1. rewrite pipeline_execute_run.
  fold ready_key active_key. by rewrite Hrun.
Qed.

(** X16. A tenant with a job in flight is listed by [metrics]
    for the type of that job: where the active set holds the token
    [<queue_id>:<job_id>] and the queue id has no colon, the queue id is
    among the [queue_ids] of the reply. *)
Theorem metrics_lists_tenant_in_flight (queue_type queue_id : kwarg) (w : world)
    (ready active : gmap string Z) (Q J : string) :
  let T := or_default SNone queue_type in
  is_valid_identifier T = true ->
  truthy T = true ->
  or_default SNone queue_id = SNone ->
  (Redis.read_zset (_key_prefix self +:+ ":" +:+ str T) (redis w)).1 = Ok ready ->
  (Redis.read_zset (_key_prefix self +:+ ":" +:+ str T +:+ ":active") (redis w)).1 = Ok active ->
  free_of ":" Q ->
  Q +:+ ":" +:+ J ∈ dom active ->
  exists ids,
    (metrics self queue_type queue_id w).1
    = Ok [("status", VStr "success"); ("queue_ids", VList (VStr <$> ids))]
    /\ Q ∈ ids.
Proof.
  intros T Hvalid Htruthy Hid Hready Hactive Hfree Hin.
  destruct (metrics_per_type_run queue_type queue_id w ready active)
    as (ready_queues & active_queues & _ & Ha & Hrun); try done.
  eexists. split; [exact Hrun |].
  rewrite elem_of_elements, elem_of_union, !elem_of_list_to_set. right.
  apply list_elem_of_fmap. exists (Q +:+ ":" +:+ J). split; [| by apply Ha].
  symmetry. by apply split_head_app.
Qed.

End MoreProperties.

(** ** The loop of [metrics] over the reply of its script *)

Section Dict.

Lemma dict_get_set_eq k v (d : dict) : dict_get k (dict_set k v d) = Some v.
Proof.
  induction d as [|[k' v'] d IH]; simpl.
  - by rewrite String.eqb_refl.
  - destruct (String.eqb k' k) eqn:Hk; simpl; [by rewrite String.eqb_refl | by rewrite Hk].
Qed.

Lemma dict_get_set_ne k k' v (d : dict) :
  k <> k' -> dict_get k' (dict_set k v d) = dict_get k' d.
Proof.
  intros Hne. induction d as [|[k1 v1] d IH]; simpl.
  - by apply String.eqb_neq in Hne as ->.
  - destruct (String.eqb k1 k) eqn:Hk; simpl.
    + apply String.eqb_eq in Hk as ->. by apply String.eqb_neq in Hne as ->.
    + by rewrite IH.
Qed.

Lemma counts_from_other k acc pairs :
  k ∉ (fun p => str p.1) <$> pairs ->
  dict_get k (counts_from acc pairs) = dict_get k acc.
Proof.
  revert acc. induction pairs as [|[m c] pairs IH]; intros acc Hk; [done |].
  rewrite fmap_cons in Hk. apply not_elem_of_cons in Hk as [Hne Hk].
  change (counts_from acc ((m, c) :: pairs))
    with (counts_from (dict_set (str m) (VInt (count_of c)) acc) pairs).
  rewrite IH by done. by apply dict_get_set_ne.
Qed.

(** Where no minute comes twice, each is bound to its own count. *)
Lemma counts_from_lookup acc pairs m c :
  NoDup ((fun p => str p.1) <$> pairs) ->
  (m, c) ∈ pairs ->
  dict_get (str m) (counts_from acc pairs) = Some (VInt (count_of c)).
Proof.
  revert acc. induction pairs as [|[m' c'] pairs IH]; intros acc Hnodup Hin.
  - by apply elem_of_nil in Hin.
  - rewrite fmap_cons in Hnodup. apply NoDup_cons in Hnodup as [Hfresh Hnodup].
    change (counts_from acc ((m', c') :: pairs))
      with (counts_from (dict_set (str m') (VInt (count_of c')) acc) pairs).
    apply elem_of_cons in Hin as [[= -> ->] | Hin].
    + rewrite counts_from_other by done. apply dict_get_set_eq.
    + by apply IH.
Qed.

End Dict.

Section CountDetails.

Lemma length_flat pairs : length (flat pairs) = 2 * length pairs.
Proof.
  induction pairs as [|p pairs IH]; [done |].
  change (flat (p :: pairs)) with (p.1 :: p.2 :: flat pairs). simpl. rewrite IH. lia.
Qed.

Lemma flat_app a b : flat (a ++ b) = flat a ++ flat b.
Proof. unfold flat. by rewrite fmap_app, concat_app. Qed.

Lemma flat_lookup_minute pre m c rest :
  flat (pre ++ (m, c) :: rest) !! (2 * length pre) = Some m.
Proof.
  rewrite flat_app. rewrite lookup_app_r by (rewrite length_flat; lia).
  rewrite length_flat. by replace (2 * length pre - 2 * length pre) with 0 by lia.
Qed.

Lemma flat_lookup_count pre m c rest :
  flat (pre ++ (m, c) :: rest) !! (2 * length pre + 1) = Some c.
Proof.
  rewrite flat_app. rewrite lookup_app_r by (rewrite length_flat; lia).
  rewrite length_flat. by replace (2 * length pre + 1 - 2 * length pre) with 1 by lia.
Qed.

Lemma flat_lookup_end pairs k : length (flat pairs) <= k -> flat pairs !! k = None.
Proof. apply lookup_ge_None_2. Qed.

Lemma xrange_flat pairs : xrange_0_n_2 (length (flat pairs)) = xrange_by_2 0 (length pairs).
Proof.
  unfold xrange_0_n_2. rewrite length_flat. f_equal.
  replace (2 * length pairs + 1) with (S (2 * length pairs)) by lia.
  by rewrite Nat.div2_succ_double.
Qed.

Lemma count_body_step pre_e pre_d m c m' c' es ds n n' (acc : dict * dict) :
  length pre_e = length pre_d ->
  int (or_0 c) = Ok n ->
  int (or_0 c') = Ok n' ->
  count_body (Row (flat (pre_e ++ (m, c) :: es))) (Row (flat (pre_d ++ (m', c') :: ds)))
    (2 * length pre_e) acc
  = (Ok tt, (dict_set (str m) (VInt n) acc.1, dict_set (str m') (VInt n') acc.2)).
Proof.
  intros Hpre Hn Hn'.
  unfold count_body, bind, lift, item_index, index, set_enqueue_count, set_dequeue_count.
  rewrite flat_lookup_count, flat_lookup_minute, Hn.
  rewrite Hpre, flat_lookup_count, flat_lookup_minute, Hn'. done.
Qed.

Lemma count_loop_decodes (es ds post pre_e pre_d : list (scalar * scalar))
    (acc : dict * dict) :
  length pre_e = length pre_d ->
  length es = length ds ->
  countable es -> countable ds ->
  for_each (xrange_by_2 (2 * length pre_e) (length es))
    (count_body (Row (flat (pre_e ++ es))) (Row (flat (pre_d ++ ds ++ post)))) acc
  = (Ok tt, (counts_from acc.1 es, counts_from acc.2 ds)).
Proof.
  revert ds pre_e pre_d acc.
  induction es as [|[m c] es IH]; intros [|[m' c'] ds] pre_e pre_d acc Hpre Hlen He Hd;
    simpl in Hlen; try done.
  { by destruct acc. }
  apply Forall_cons in He as [[n Hn] He]. apply Forall_cons in Hd as [[n' Hn'] Hd].
  cbn [length xrange_by_2 for_each]. unfold bind at 1.
  rewrite <- app_comm_cons.
  rewrite (count_body_step _ _ _ _ _ _ _ _ n n') by done.
  specialize (IH ds (pre_e ++ [(m, c)]) (pre_d ++ [(m', c')])
                (dict_set (str m) (VInt n) acc.1, dict_set (str m') (VInt n') acc.2)).
  rewrite <- !app_assoc in IH. cbn [app] in IH.
  replace (2 * length (pre_e ++ [(m, c)])) with (2 + 2 * length pre_e) in IH
    by (rewrite List.length_app; simpl; lia).
  rewrite IH; [| rewrite !List.length_app; simpl; lia | lia | done | done].
  unfold counts_from, count_of. cbn [fold_left fst snd]. simpl in Hn, Hn'.
  by rewrite Hn, Hn'.
Qed.

(** X17. Where the two rows of the metrics script alternate minutes
    with counts that read as integers, and the row of the dequeues is at
    least as long as the row of the enqueues, the loop of [metrics]
    succeeds with the two dictionaries the pairs fill in order; what the
    row of the dequeues holds beyond the length of the other is not
    read, [None] counts as 0, and where no minute comes twice each
    minute is bound to its own count. *)
Theorem count_details_decodes (es ds post : list (scalar * scalar)) :
  length es = length ds ->
  countable es -> countable ds ->
  count_details (Row (flat es)) (Row (flat (ds ++ post)))
  = Ok (counts_from [] es, counts_from [] ds)
  /\ (NoDup ((fun p => str p.1) <$> es) ->
      forall minute count, (minute, count) ∈ es ->
        dict_get (str minute) (counts_from [] es) = Some (VInt (count_of count))).
Proof.
  intros Hlen He Hd. split; [| intros; by apply counts_from_lookup].
  unfold count_details. cbn [item_len]. rewrite xrange_flat.
  change (for_each (xrange_by_2 0 (length es)) ?body)
    with (for_each (xrange_by_2 (2 * length (@nil (scalar * scalar))) (length es))
            (count_body (Row (flat ([] ++ es))) (Row (flat ([] ++ ds ++ post))))).
  by rewrite count_loop_decodes.
Qed.

(** Where the row of the dequeues runs out first, so does the loop. *)
Lemma count_loop_short (es ds pre_e pre_d : list (scalar * scalar)) (acc : dict * dict) :
  length pre_e = length pre_d ->
  length ds < length es ->
  countable es -> countable ds ->
  (for_each (xrange_by_2 (2 * length pre_e) (length es))
     (count_body (Row (flat (pre_e ++ es))) (Row (flat (pre_d ++ ds)))) acc).1
  = Raise (IndexError "list index out of range").
Proof.
  revert ds pre_e pre_d acc.
  induction es as [|[m c] es IH]; intros [|[m' c'] ds] pre_e pre_d acc Hpre Hlen He Hd;
    simpl in Hlen; try lia.
  - apply Forall_cons in He as [[n Hn] He]. simpl in Hn.
    cbn [length xrange_by_2 for_each]. unfold bind at 1.
    unfold count_body, bind, lift, item_index, index, set_enqueue_count.
    rewrite flat_lookup_count, flat_lookup_minute, Hn. rewrite app_nil_r.
    rewrite flat_lookup_end by (rewrite length_flat; lia). done.
  - apply Forall_cons in He as [[n Hn] He]. apply Forall_cons in Hd as [[n' Hn'] Hd].
    cbn [length xrange_by_2 for_each]. unfold bind at 1.
    rewrite (count_body_step _ _ _ _ _ _ _ _ n n') by done.
    specialize (IH ds (pre_e ++ [(m, c)]) (pre_d ++ [(m', c')])
                  (dict_set (str m) (VInt n) acc.1, dict_set (str m') (VInt n') acc.2)).
    rewrite <- !app_assoc in IH. cbn [app] in IH.
    replace (2 * length (pre_e ++ [(m, c)])) with (2 + 2 * length pre_e) in IH
      by (rewrite List.length_app; simpl; lia).
    apply IH; [rewrite !List.length_app; simpl; lia | lia | done | done].
Qed.

(** X18. The loop of [metrics] runs over the row of the
    enqueues: where the row of the dequeues is the shorter one, it fails
    with an [IndexError]. *)
Theorem count_details_short_dequeue_row (es ds : list (scalar * scalar)) :
  length ds < length es ->
  countable es -> countable ds ->
  count_details (Row (flat es)) (Row (flat ds)) = Raise (IndexError "list index out of range").
Proof.
  intros Hlen He Hd. unfold count_details. cbn [item_len]. rewrite xrange_flat.
  change (for_each (xrange_by_2 0 (length es)) ?body)
    with (for_each (xrange_by_2 (2 * length (@nil (scalar * scalar))) (length es))
            (count_body (Row (flat ([] ++ es))) (Row (flat ([] ++ ds))))).
  pose proof (count_loop_short es ds [] [] ([], []) eq_refl Hlen He Hd) as Hloop.
  destruct (for_each _ _ _) as [[[]|e] counts]; simpl in Hloop; [done | by injection Hloop as ->].
Qed.

End CountDetails.

(** ** Construction and reloading *)

Ltac script_cases Hn :=
  unfold script_names in Hn;
  repeat (apply elem_of_cons in Hn as [-> | Hn]); [.. | by apply elem_of_nil in Hn].

Ltac lookup_attr :=
  cbn [foldl]; unfold with_script; cbn [String.append];
  repeat first [rewrite lookup_insert_eq | rewrite lookup_insert_ne by done].

Section ConstructionProperties.

Context {H : Host}.

Lemma bind_ret_tt {S E} (c : comp S E unit) (s : S) : (c ;; ret tt) s = c s.
Proof. unfold bind, ret. by destruct (c s) as [[[] | e] s']. Qed.

Lemma load_script_run fs dir name (self : object) :
  load_script fs dir name self =
  match open_read fs (path_join dir (name +:+ ".lua")) with
  | Raise e => (Raise (Library e), self)
  | Ok text =>
      let stored := <["_lua_" +:+ name +:+ "_script" := AScalar (SStr text)]> self in
      match self !! "_r" with
      | Some (AClient r) =>
          match register_script r (SStr text) with
          | Ok f => (Ok tt, <["_lua_" +:+ name := AScript f]> stored)
          | Raise e => (Raise (Library e), stored)
          end
      | Some _ => (Raise (AttributeError "object has no attribute 'register_script'"), stored)
      | None => (Raise (AttributeError "'SharQ' object has no attribute '_r'"), stored)
      end
  end.
Proof.
  unfold load_script, bind, library, lift, setattr, getattr_client, getattr_scalar, getattr, bind.
  destruct (open_read fs _) as [text | e]; [| done]. cbv zeta.
  rewrite lookup_insert_ne by done.
  destruct (self !! "_r") as [[x | p | r | f] |]; try done.
  cbn [raise ret]. rewrite lookup_insert_eq. unfold ret.
  by destruct (register_script r (SStr text)).
Qed.

Lemma _load_lua_scripts_loop fs (self : object) :
  _load_lua_scripts fs self
  = for_each script_names (load_script fs (path_join module_dir "scripts/lua")) self.
Proof.
  unfold _load_lua_scripts, script_names. cbn [for_each].
  unfold bind.
  repeat match goal with |- context [load_script ?a ?b ?c ?d] =>
    destruct (load_script a b c d) as [[[] | ?] ?]; try done end.
Qed.

Lemma with_script_client text f (self : object) name :
  with_script text f self name !! "_r" = self !! "_r".
Proof. unfold with_script. by rewrite !lookup_insert_ne. Qed.

Lemma load_scripts_run fs r text f names (self : object) :
  self !! "_r" = Some (AClient r) ->
  (forall n, n ∈ names ->
     open_read fs (script_file n) = Ok (text n)
     /\ register_script r (SStr (text n)) = Ok (f n)) ->
  for_each names (load_script fs (path_join module_dir "scripts/lua")) self
  = (Ok tt, foldl (with_script text f) self names).
Proof.
  revert self. induction names as [|n names IH]; intros self Hr Hall; [done |].
  cbn [for_each foldl]. unfold bind at 1. rewrite load_script_run, Hr.
  destruct (Hall n) as [Hopen Hreg]; [by left |].
  unfold script_file in Hopen. rewrite Hopen. cbv zeta. rewrite Hreg.
  apply IH.
  - by rewrite with_script_client.
  - intros m Hm. apply Hall. by right.
Qed.

Lemma load_scripts_app fs names rest (self : object) :
  for_each (names ++ rest) (load_script fs (path_join module_dir "scripts/lua")) self
  = match for_each names (load_script fs (path_join module_dir "scripts/lua")) self with
    | (Ok _, self') =>
        for_each rest (load_script fs (path_join module_dir "scripts/lua")) self'
    | (Raise e, self') => (Raise e, self')
    end.
Proof.
  revert self. induction names as [|n names IH]; intros self; [done |].
  cbn [for_each app]. unfold bind.
  destruct (load_script _ _ n self) as [[[] | e] self']; [apply IH | done].
Qed.


Lemma option_of_run section option (self : object) config :
  self !! "_config" = Some (AParser config) ->
  option_of section option self
  = (match config_get config section option with
     | Ok v => Ok v
     | Raise e => Raise (Library e)
     end, self).
Proof.
  intros Hconfig. unfold option_of, getattr_parser, getattr, bind, library, lift, ret.
  by rewrite Hconfig.
Qed.

Lemma _load_config_run fs (self : object) path :
  self !! "config_path" = Some (AScalar path) ->
  _load_config fs self
  = (match (config_read fs path SafeConfigParser).1 with
     | Ok _ => Ok tt
     | Raise e => Raise (Library e)
     end,
     <["_config" := AParser (config_read fs path SafeConfigParser).2]> self).
Proof.
  intros Hpath.
  unfold _load_config, getattr_parser, getattr_scalar, getattr, setattr, bind, library, lift, ret.
  rewrite lookup_insert_eq, lookup_insert_ne by done. rewrite Hpath.
  rewrite insert_insert_eq.
  by destruct (config_read fs path SafeConfigParser).1 as [[] | e].
Qed.

(** *** [reload_config] *)

(** X19. [reload_config] changes no attribute of the object but
    [config_path] and [_config]: the key prefix, the expiry, the client
    and the scripts that the queue methods use stay what the constructor
    made them. [config_path] is replaced exactly when the argument is
    given and true; the file it then names is read into a new parser,
    which is kept as [_config] also when the reading raises. *)
Theorem reload_config_rereads_only (fs : files) (config_path : kwarg) (self : object) :
  let path := or_default SNone config_path in
  let run := reload_config fs config_path self in
  (forall name, name <> "_config" -> name <> "config_path" -> run.2 !! name = self !! name)
  /\ as_SharQ run.2 = as_SharQ self
  /\ run.2 !! "config_path"
     = (if truthy path then Some (AScalar path) else self !! "config_path")
  /\ (forall file, run.2 !! "config_path" = Some (AScalar file) ->
        let read := config_read fs file SafeConfigParser in
        run.2 !! "_config" = Some (AParser read.2)
        /\ run.1 = match read.1 with
                   | Ok _ => Ok tt
                   | Raise e => Raise (Library e)
                   end).
Proof.
  intros path run.
  assert (Hrun : exists self1,
    (forall name, name <> "config_path" -> self1 !! name = self !! name)
    /\ self1 !! "config_path" = (if truthy path then Some (AScalar path) else self !! "config_path")
    /\ run = _load_config fs self1).
  { subst run. unfold reload_config. fold path. unfold bind at 1.
    destruct (truthy path); simpl.
    - eexists. split_and!; [| | reflexivity].
      + intros name Hname. by rewrite lookup_insert_ne.
      + by rewrite lookup_insert_eq.
    - by exists self. }
  destruct Hrun as (self1 & Hsame & Hpath & ->).
  assert (Hkeeps : forall name, name <> "_config" ->
            (_load_config fs self1).2 !! name = self1 !! name).
  { intros name Hname.
    unfold _load_config, getattr_parser, getattr_scalar, getattr, setattr, bind, library,
      lift, ret, raise.
    rewrite lookup_insert_eq, lookup_insert_ne by done.
    destruct (self1 !! "config_path") as [[x | p | r | f] |]; simpl;
      rewrite ?lookup_insert_ne by done; try done.
    all: destruct (config_read fs x SafeConfigParser).1 as [[] | e]; simpl;
      by rewrite !lookup_insert_ne. }
  split_and!.
  - intros name Hc Hp. by rewrite Hkeeps, Hsame.
  - unfold as_SharQ. by rewrite !Hkeeps, !Hsame.
  - by rewrite Hkeeps.
  - intros file Hfile. rewrite Hkeeps in Hfile by done.
    rewrite (_load_config_run _ _ file) by done. simpl. by rewrite lookup_insert_eq.
Qed.

(** *** [reload_lua_scripts] *)


(** X20. On an object with a client, when the six script
    files can be read and registered, [reload_lua_scripts] succeeds,
    stores each text and its registered script under the attributes of
    that script, and leaves the key prefix, the expiry, the client and
    the configuration as they were. *)
Theorem reload_lua_scripts_replaces (fs : files) (self : object) (r : client)
    (text : string -> string) (f : string -> script) :
  let run := reload_lua_scripts fs self in
  self !! "_r" = Some (AClient r) ->
  (forall n, n ∈ script_names ->
     open_read fs (script_file n) = Ok (text n)
     /\ register_script r (SStr (text n)) = Ok (f n)) ->
  run.1 = Ok tt
  /\ (forall n, n ∈ script_names ->
        run.2 !! ("_lua_" +:+ n) = Some (AScript (f n))
        /\ run.2 !! ("_lua_" +:+ n +:+ "_script") = Some (AScalar (SStr (text n))))
  /\ run.2 !! "_key_prefix" = self !! "_key_prefix"
  /\ run.2 !! "_job_expire_interval" = self !! "_job_expire_interval"
  /\ run.2 !! "_r" = self !! "_r"
  /\ run.2 !! "_config" = self !! "_config"
  /\ run.2 !! "config_path" = self !! "config_path".
Proof.
  intros run Hr Hall. subst run. unfold reload_lua_scripts.
  rewrite _load_lua_scripts_loop, (load_scripts_run _ r text f) by done.
  cbn [fst snd]. split_and!; try done; try (unfold script_names; by lookup_attr).
  intros n Hn. script_cases Hn; split; unfold script_names; by lookup_attr.
Qed.

(** X21. [reload_lua_scripts] is not atomic: when a
    script file cannot be read, or its text cannot be registered, the
    error is raised, the scripts loaded before it have already been
    replaced, and that script and those after it stay registered as they
    were. The text of the failing script is the new one if the file was
    read, so that it no longer is the text of the script registered
    under that name. *)
Theorem reload_lua_scripts_stops_at_failure (fs : files) (self : object) (r : client)
    (text : string -> string) (f : string -> script)
    (loaded rest : list string) (name : string) (e : failure) :
  let run := reload_lua_scripts fs self in
  self !! "_r" = Some (AClient r) ->
  script_names = loaded ++ name :: rest ->
  (forall n, n ∈ loaded ->
     open_read fs (script_file n) = Ok (text n)
     /\ register_script r (SStr (text n)) = Ok (f n)) ->
  open_read fs (script_file name) = Raise e
  \/ open_read fs (script_file name) = Ok (text name)
     /\ register_script r (SStr (text name)) = Raise e ->
  run.1 = Raise (Library e)
  /\ (forall n, n ∈ loaded -> run.2 !! ("_lua_" +:+ n) = Some (AScript (f n)))
  /\ (forall n, n ∈ name :: rest -> run.2 !! ("_lua_" +:+ n) = self !! ("_lua_" +:+ n))
  /\ run.2 !! ("_lua_" +:+ name +:+ "_script")
     = match open_read fs (script_file name) with
       | Ok new_text => Some (AScalar (SStr new_text))
       | Raise _ => self !! ("_lua_" +:+ name +:+ "_script")
       end.
Proof.
  intros run Hr Hsplit Hall Hfail.
  assert (Hrun : run =
    (Raise (Library e),
     match open_read fs (script_file name) with
     | Ok new_text =>
         <["_lua_" +:+ name +:+ "_script" := AScalar (SStr new_text)]>
           (foldl (with_script text f) self loaded)
     | Raise _ => foldl (with_script text f) self loaded
     end)).
  { subst run. unfold reload_lua_scripts.
    rewrite _load_lua_scripts_loop, Hsplit, load_scripts_app.
    rewrite (load_scripts_run _ r text f) by done.
    cbn [for_each]. unfold bind. rewrite load_script_run.
    assert (Hclient : foldl (with_script text f) self loaded !! "_r" = Some (AClient r)).
    { clear Hsplit Hall. revert self Hr. induction loaded as [|n loaded IH]; [done |].
      intros self Hr. cbn [foldl]. apply IH. by rewrite with_script_client. }
    rewrite Hclient. unfold script_file in Hfail |- *.
    by destruct Hfail as [-> | [-> ->]]. }
  rewrite Hrun. cbn [fst snd]. clear Hrun Hall Hr run.
  unfold script_names in Hsplit.
  split_and!; [done | | |].
  - intros n Hn.
    repeat (destruct loaded as [|? loaded]; cbn [app] in *; simplify_eq;
            try (by apply elem_of_nil in Hn));
    repeat (apply elem_of_cons in Hn as [-> | Hn]);
    try (by apply elem_of_nil in Hn);
    destruct (open_read fs _); by lookup_attr.
  - intros n Hn.
    repeat (destruct loaded as [|? loaded]; cbn [app] in *; simplify_eq;
            try (by apply elem_of_nil in Hn));
    repeat (apply elem_of_cons in Hn as [-> | Hn]);
    try (by apply elem_of_nil in Hn);
    destruct (open_read fs _); by lookup_attr.
  - repeat (destruct loaded as [|? loaded]; cbn [app] in *; simplify_eq);
    destruct (open_read fs _); by lookup_attr.
Qed.

End ConstructionProperties.

Section InitProperties.

Context {H : Host}.

Lemma _initialize_run fs (self : object) config key_prefix expiry n conn_type db :
  self !! "_config" = Some (AParser config) ->
  config_get config "redis" "key_prefix" = Ok key_prefix ->
  config_get config "sharq" "job_expire_interval" = Ok expiry ->
  int (SStr expiry) = Ok n ->
  config_get config "redis" "conn_type" = Ok conn_type ->
  config_get config "redis" "db" = Ok db ->
  _initialize fs self
  = ((if String.eqb conn_type "unix_sock" then
        let* unix_socket_path := option_of "redis" "unix_socket_path" in
        let* r := library (StrictRedis [("db", db); ("unix_socket_path", unix_socket_path)]) in
        setattr "_r" (AClient r)
      else if String.eqb conn_type "tcp_sock" then
        let* host := option_of "redis" "host" in
        let* port := option_of "redis" "port" in
        let* r := library (StrictRedis [("db", db); ("host", host); ("port", port)]) in
        setattr "_r" (AClient r)
      else
        ret tt) ;;
     _load_lua_scripts fs) (configured key_prefix n self).
Proof.
  intros Hconfig Hprefix Hexpiry Hint Htype Hdb. unfold _initialize.
  unfold bind at 1. rewrite (option_of_run _ _ _ config), Hprefix by done.
  unfold bind at 1. unfold setattr at 1.
  unfold bind at 1. rewrite (option_of_run _ _ _ config), Hexpiry
    by (by rewrite lookup_insert_ne).
  unfold bind at 1. unfold builtin at 1. rewrite Hint. unfold lift at 1.
  unfold bind at 1. unfold setattr at 1.
  unfold bind at 1. rewrite (option_of_run _ _ _ config), Htype
    by (by rewrite !lookup_insert_ne).
  unfold bind at 1. rewrite (option_of_run _ _ _ config), Hdb
    by (by rewrite !lookup_insert_ne).
  done.
Qed.

Lemma configured_config key_prefix n (self : object) :
  configured key_prefix n self !! "_config" = self !! "_config".
Proof. unfold configured. by rewrite !lookup_insert_ne. Qed.

(** X22. Given a configuration that has the key prefix, an integer
    expiry, the database and a connection type [unix_sock] (with its
    socket path) or [tcp_sock] (with its host and port), and six script
    files that can be read and registered, the constructor succeeds on a
    fresh object: the attributes the queue methods read are the
    configured prefix and expiry and the six registered scripts, the
    client is the one built from the configured keywords, and
    [config_path] is the path given. *)
Theorem init_constructs (fs : files) (config_path : scalar) (config : parser)
    (key_prefix expiry conn_type db : string) (n : Z)
    (kwargs : list (string * string)) (r : client)
    (text : string -> string) (f : string -> script) :
  let run := __init__ fs config_path ∅ in
  config_read fs config_path SafeConfigParser = (Ok tt, config) ->
  config_get config "redis" "key_prefix" = Ok key_prefix ->
  config_get config "sharq" "job_expire_interval" = Ok expiry ->
  int (SStr expiry) = Ok n ->
  config_get config "redis" "conn_type" = Ok conn_type ->
  config_get config "redis" "db" = Ok db ->
  (conn_type = "unix_sock"
   /\ (exists unix_socket_path,
         config_get config "redis" "unix_socket_path" = Ok unix_socket_path
         /\ kwargs = [("db", db); ("unix_socket_path", unix_socket_path)])
   \/ conn_type = "tcp_sock"
      /\ (exists host port,
            config_get config "redis" "host" = Ok host
            /\ config_get config "redis" "port" = Ok port
            /\ kwargs = [("db", db); ("host", host); ("port", port)])) ->
  StrictRedis kwargs = Ok r ->
  (forall name, name ∈ script_names ->
     open_read fs (script_file name) = Ok (text name)
     /\ register_script r (SStr (text name)) = Ok (f name)) ->
  run.1 = Ok tt
  /\ as_SharQ run.2
     = Some {| _key_prefix := key_prefix;
               _job_expire_interval := n;
               _lua_enqueue := f "enqueue";
               _lua_dequeue := f "dequeue";
               _lua_finish := f "finish";
               _lua_interval := f "interval";
               _lua_requeue := f "requeue";
               _lua_metrics := f "metrics" |}
  /\ run.2 !! "_r" = Some (AClient r)
  /\ run.2 !! "config_path" = Some (AScalar config_path)
  /\ run.2 !! "_config" = Some (AParser config).
Proof.
  intros run Hread Hprefix Hexpiry Hint Htype Hdb Hconn Hclient Hscripts.
  assert (Hrun : run =
    (Ok tt, foldl (with_script text f)
              (<["_r" := AClient r]>
                 (configured key_prefix n
                    (<["_config" := AParser config]>
                       (<["config_path" := AScalar config_path]> ∅)))) script_names)).
  { subst run. unfold __init__.
    unfold bind at 1. unfold setattr at 1.
    unfold bind at 1. rewrite (_load_config_run _ _ config_path) by (by rewrite lookup_insert_eq).
    rewrite Hread. cbn [fst snd].
    rewrite (_initialize_run _ _ config key_prefix expiry n conn_type db)
      by (done || by rewrite lookup_insert_eq).
    assert (Hconfig : configured key_prefix n
              (<["_config" := AParser config]> (<["config_path" := AScalar config_path]> ∅))
              !! "_config" = Some (AParser config))
      by (by rewrite configured_config, lookup_insert_eq).
    destruct Hconn as [[-> (unix_socket_path & Hpath & ->)]
                      | [-> (host & port & Hhost & Hport & ->)]]; cbn [String.eqb Ascii.eqb Bool.eqb].
    - unfold bind at 1. unfold bind at 1.
      rewrite (option_of_run _ _ _ config), Hpath by done. cbn beta iota.
      unfold bind at 1. rewrite Hclient. unfold library, lift, setattr. cbn beta iota.
      rewrite _load_lua_scripts_loop.
      apply (load_scripts_run _ r); [by rewrite lookup_insert_eq | done].
    - unfold bind at 1. unfold bind at 1.
      rewrite (option_of_run _ _ _ config), Hhost by done. cbn beta iota.
      unfold bind at 1. rewrite (option_of_run _ _ _ config), Hport by done. cbn beta iota.
      unfold bind at 1. rewrite Hclient. unfold library, lift, setattr. cbn beta iota.
      rewrite _load_lua_scripts_loop.
      apply (load_scripts_run _ r); [by rewrite lookup_insert_eq | done]. }
  rewrite Hrun. cbn [fst snd]. unfold script_names, configured.
  split_and!; [done | | by lookup_attr ..].
  unfold as_SharQ. lookup_attr. reflexivity.
Qed.


(** X23. With a connection type other than [unix_sock] and
    [tcp_sock] the constructor never succeeds: no client is made, and
    loading the first script raises the [AttributeError] for [_r], or
    the error of the file system when [enqueue.lua] cannot be read. *)
Theorem init_unsupported_conn_type (fs : files) (config_path : scalar) (config : parser)
    (key_prefix expiry conn_type db : string) (n : Z) :
  let run := __init__ fs config_path ∅ in
  config_read fs config_path SafeConfigParser = (Ok tt, config) ->
  config_get config "redis" "key_prefix" = Ok key_prefix ->
  config_get config "sharq" "job_expire_interval" = Ok expiry ->
  int (SStr expiry) = Ok n ->
  config_get config "redis" "conn_type" = Ok conn_type ->
  config_get config "redis" "db" = Ok db ->
  conn_type <> "unix_sock" ->
  conn_type <> "tcp_sock" ->
  run.1 = match open_read fs (script_file "enqueue") with
          | Ok _ => Raise (AttributeError "'SharQ' object has no attribute '_r'")
          | Raise e => Raise (Library e)
          end
  /\ run.2 !! "_r" = None
  /\ run.2 !! "_lua_enqueue" = None.
Proof.
  intros run Hread Hprefix Hexpiry Hint Htype Hdb Hunix Htcp.
  assert (Hrun : run =
    load_script fs (path_join module_dir "scripts/lua") "enqueue"
      (configured key_prefix n
         (<["_config" := AParser config]> (<["config_path" := AScalar config_path]> ∅)))).
  { subst run. unfold __init__.
    unfold bind at 1. unfold setattr at 1.
    unfold bind at 1. rewrite (_load_config_run _ _ config_path) by (by rewrite lookup_insert_eq).
    rewrite Hread. cbn [fst snd].
    rewrite (_initialize_run _ _ config key_prefix expiry n conn_type db)
      by (done || by rewrite lookup_insert_eq).
    apply String.eqb_neq in Hunix as ->. apply String.eqb_neq in Htcp as ->.
    unfold bind at 1. unfold ret at 1. unfold _load_lua_scripts.
    unfold bind at 1.
    match goal with |- context [load_script ?a ?b ?c ?d] =>
      assert (Hfails : (load_script a b c d).1 <> Ok tt);
      [| by destruct (load_script a b c d) as [[[] | e] self'] ] end.
    rewrite load_script_run. unfold configured.
    rewrite !lookup_insert_ne, lookup_empty by done.
    by destruct (open_read fs _). }
  rewrite Hrun, load_script_run. unfold configured.
  rewrite !lookup_insert_ne, lookup_empty by done.
  fold (script_file "enqueue").
  destruct (open_read fs (script_file "enqueue")); cbn [fst snd String.append];
    split_and!; try done; by rewrite !lookup_insert_ne.
Qed.


(** X24. The constructor reads the options [key_prefix],
    [job_expire_interval], [conn_type] and [db] in this order, the
    expiry being an integer literal where it is there: it raises what
    the parser raises for the first of them that cannot be read, before
    a client is made or a script file opened. *)
Theorem init_fails_at_first_missing_option (fs : files) (config_path : scalar)
    (config : parser) (found rest : list (string * string)) (section option : string)
    (e : failure) :
  let run := __init__ fs config_path ∅ in
  config_read fs config_path SafeConfigParser = (Ok tt, config) ->
  common_options = found ++ (section, option) :: rest ->
  (forall s o, (s, o) ∈ found -> exists v, config_get config s o = Ok v) ->
  (forall v, config_get config "sharq" "job_expire_interval" = Ok v ->
     exists n, int (SStr v) = Ok n) ->
  config_get config section option = Raise e ->
  run.1 = Raise (Library e)
  /\ run.2 !! "_r" = None
  /\ (forall name, name ∈ script_names -> run.2 !! ("_lua_" +:+ name) = None).
Proof.
  intros run Hread Hsplit Hfound Hint Hmissing.
  assert (Hrun : run = _initialize fs
            (<["_config" := AParser config]> (<["config_path" := AScalar config_path]> ∅))).
  { subst run. unfold __init__.
    unfold bind at 1. unfold setattr at 1.
    unfold bind at 1. rewrite (_load_config_run _ _ config_path) by (by rewrite lookup_insert_eq).
    by rewrite Hread. }
  assert (Hpair : exists self' : object,
            _initialize fs
              (<["_config" := AParser config]> (<["config_path" := AScalar config_path]> ∅))
            = (Raise (Library e), self')
            /\ forall k, k <> "_config" -> k <> "config_path" -> k <> "_key_prefix" ->
                         k <> "_job_expire_interval" -> self' !! k = None).
  { unfold common_options in Hsplit.
    repeat (destruct found as [|[? ?] found]; cbn [app] in *; simplify_eq).
    - eexists. split; [unfold _initialize | shelve].
      unfold bind at 1. rewrite (option_of_run _ _ _ config), Hmissing
        by (rewrite ?lookup_insert_ne by done; apply lookup_insert_eq).
      reflexivity.
    - destruct (Hfound "redis" "key_prefix") as [p Hp]; [by left |].
      eexists. split; [unfold _initialize | shelve].
      unfold bind at 1. rewrite (option_of_run _ _ _ config), Hp
        by (rewrite ?lookup_insert_ne by done; apply lookup_insert_eq).
      unfold bind at 1. unfold setattr at 1.
      unfold bind at 1. rewrite (option_of_run _ _ _ config), Hmissing
        by (rewrite ?lookup_insert_ne by done; apply lookup_insert_eq).
      reflexivity.
    - destruct (Hfound "redis" "key_prefix") as [p Hp]; [by left |].
      destruct (Hfound "sharq" "job_expire_interval") as [v Hv]; [by right; left |].
      destruct (Hint v Hv) as [n Hn].
      eexists. split; [unfold _initialize | shelve].
      unfold bind at 1. rewrite (option_of_run _ _ _ config), Hp
        by (rewrite ?lookup_insert_ne by done; apply lookup_insert_eq).
      unfold bind at 1. unfold setattr at 1.
      unfold bind at 1. rewrite (option_of_run _ _ _ config), Hv
        by (rewrite ?lookup_insert_ne by done; apply lookup_insert_eq).
      unfold bind at 1. unfold builtin at 1. rewrite Hn. unfold lift at 1.
      unfold bind at 1. unfold setattr at 1.
      unfold bind at 1. rewrite (option_of_run _ _ _ config), Hmissing
        by (rewrite ?lookup_insert_ne by done; apply lookup_insert_eq).
      reflexivity.
    - destruct (Hfound "redis" "key_prefix") as [p Hp]; [by left |].
      destruct (Hfound "sharq" "job_expire_interval") as [v Hv]; [by right; left |].
      destruct (Hfound "redis" "conn_type") as [c Hc]; [by right; right; left |].
      destruct (Hint v Hv) as [n Hn].
      eexists. split; [unfold _initialize | shelve].
      unfold bind at 1. rewrite (option_of_run _ _ _ config), Hp
        by (rewrite ?lookup_insert_ne by done; apply lookup_insert_eq).
      unfold bind at 1. unfold setattr at 1.
      unfold bind at 1. rewrite (option_of_run _ _ _ config), Hv
        by (rewrite ?lookup_insert_ne by done; apply lookup_insert_eq).
      unfold bind at 1. unfold builtin at 1. rewrite Hn. unfold lift at 1.
      unfold bind at 1. unfold setattr at 1.
      unfold bind at 1. rewrite (option_of_run _ _ _ config), Hc
        by (rewrite ?lookup_insert_ne by done; apply lookup_insert_eq).
      unfold bind at 1. rewrite (option_of_run _ _ _ config), Hmissing
        by (rewrite ?lookup_insert_ne by done; apply lookup_insert_eq).
      reflexivity.
    Unshelve. all: intros k ? ? ? ?; by rewrite !lookup_insert_ne. }
  destruct Hpair as (self' & Hpair & Hnone). rewrite Hrun, Hpair. cbn [fst snd].
  split_and!; [done | by apply Hnone |].
  intros name Hn. script_cases Hn; by apply Hnone.
Qed.

End InitProperties.

(** ** The properties at work *)

Section Instances.

Import SpecUtils.

(** The helpers of [SpecUtils] meet what the properties ask of a
    validator and of a codec. *)
Lemma spec_identifier_nonempty (n : nat) (x : scalar) :
  SpecUtils.is_valid_identifier n x = true -> truthy x = true.
Proof.
  destruct x as [| |s]; simpl; try done.
  intros H. apply andb_true_iff in H as [H _]. by apply andb_true_iff in H as [H _].
Qed.

Lemma spec_codec_round_trip (x : value) (s : string) :
  SpecUtils.serialize_payload x = Ok s -> SpecUtils.deserialize_payload (Atom (SStr s)) = Ok x.
Proof. destruct x; simpl; try done. by intros [= ->]. Qed.

Lemma spec_codec_TypeError (x : value) (e : exn) :
  SpecUtils.serialize_payload x = Raise e -> exists message, e = TypeError message.
Proof. destruct x; simpl; try done; intros [= <-]; by eexists. Qed.

(** C2 at work: a payload the codec rejects is a bad argument, and the
    world stays as it was. *)
Lemma enqueue_bad_argument_or_queued_witness :
  let run := enqueue (U := utils) sharq (VInt 7) (SInt 5000) (SStr "j1") (SStr "q1") sms
               (boot [0%Z]) in
  bad_argument run.1 /\ run.2 = boot [0%Z].
Proof.
  destruct (enqueue_bad_argument_or_queued (U := utils) sharq (VInt 7) (SInt 5000)
              (SStr "j1") (SStr "q1") sms (boot [0%Z]) (spec_codec_TypeError (VInt 7)))
    as (Hiff & Hsame & _).
  assert (Hbad : bad_argument
            (enqueue (U := utils) sharq (VInt 7) (SInt 5000) (SStr "j1") (SStr "q1") sms
               (boot [0%Z])).1).
  { apply Hiff. do 4 right. eexists. reflexivity. }
  split; [exact Hbad | exact (Hsame Hbad)].
Defined.

(** C3 at work: nothing to dequeue from an empty store, and the job
    that was queued otherwise. *)
Lemma dequeue_failure_or_success_witness :
  (dequeue (U := utils) sharq sms (boot [0%Z])).1 = Ok (status "failure")
  /\ (dequeue (U := utils) sharq sms one_queued).1
     = Ok [("status", VStr "success"); ("queue_id", VStr "q1"); ("job_id", VStr "j1");
           ("payload", VStr "hello")].
Proof.
  split.
  - apply (dequeue_failure_or_success (U := utils) sharq sms (boot [0%Z]) []);
      [reflexivity | vm_compute; reflexivity | simpl; lia | simpl; lia].
  - destruct (dequeue_failure_or_success (U := utils) sharq sms one_queued
                [Atom (SStr "q1"); Atom (SStr "j1"); Atom (SStr (payload_token "hello"))])
      as [_ Hsuccess]; [reflexivity | vm_compute; reflexivity | simpl; lia |].
    destruct Hsuccess as (queue_id & job_id & token & [= <- <- <-] & Hreply); [simpl; lia |].
    apply (Hreply (Atom (SStr "hello")) (VStr "hello")); reflexivity.
Defined.

(** C1 at work: what was enqueued under the default type comes back. *)
Lemma payload_round_trip_witness :
  let w := after (enqueue (U := utils) sharq (VStr "world") (SInt 1000) (SStr "j9") (SStr "q7")
                    Omitted) (boot [7%Z]) in
  (dequeue (U := utils) sharq Omitted w).1
  = Ok [("status", VStr "success"); ("queue_id", VStr "q7"); ("job_id", VStr "j9");
        ("payload", VStr "world")].
Proof.
  intros w.
  destruct (payload_round_trip (U := utils) sharq (VStr "world") (SInt 1000) (SStr "j9")
              (SStr "q7") Omitted (boot [7%Z]) "world" spec_codec_round_trip
              eq_refl eq_refl eq_refl eq_refl eq_refl) as (token & -> & _ & Hdequeue).
  apply (Hdequeue Omitted w (Atom (SStr "q7")) (Atom (SStr "j9")));
    [reflexivity | vm_compute; reflexivity].
Defined.

(** C4 at work: the job in flight is finished once, not twice. *)
Lemma finish_failure_iff_zero_witness :
  let first := finish (U := utils) sharq (SStr "j1") (SStr "q1") sms one_in_flight in
  let again := finish (U := utils) sharq (SStr "j1") (SStr "q1") sms first.2 in
  first.1 = Ok (status "success")
  /\ again.1 = Ok (status "failure")
  /\ redis again.2 = redis first.2.
Proof.
  assert (Hfirst : (finish (U := utils) sharq (SStr "j1") (SStr "q1") sms one_in_flight).1
                   = Ok (status "success")) by (vm_compute; reflexivity).
  split; [exact Hfirst |].
  exact (proj2 (finish_failure_iff_zero (U := utils) sharq (SStr "j1") (SStr "q1") sms
                  one_in_flight eq_refl eq_refl eq_refl) eq_refl Hfirst).
Defined.

(** C5 at work: one active type, one run of the script. *)
Lemma requeue_one_script_per_type_witness :
  let run := requeue sharq one_in_flight in
  run.1 = Ok tt
  /\ trace run.2 = trace one_in_flight ++
       [EvEpoch 0; EvSmembers "sharq:active:queue_type";
        EvScript Requeue [SStr "sharq"; SStr "sms"] [SStr "0"]].
Proof.
  destruct (requeue_one_script_per_type sharq one_in_flight {["sms"]})
    as (n & Htrace & _ & _ & Hall & _); [vm_compute; reflexivity |].
  assert (Hok : (requeue sharq one_in_flight).1 = Ok tt) by (vm_compute; reflexivity).
  split; [exact Hok |].
  rewrite Htrace, (Hall Hok). reflexivity.
Defined.

(** C7 at work: the tenant [q2] has a job ready and the tenant [q1] the
    job [j1] in flight, under the token [q1:j1]; the queue ids are [q1]
    and [q2]. *)
Lemma metrics_queue_ids_witness :
  let run := metrics (U := utils) sharq sms Omitted two_tenants in
  run.1 = Ok [("status", VStr "success"); ("queue_ids", VList [VStr "q1"; VStr "q2"])]
  /\ run.2 = World (redis two_tenants) (clock two_tenants) (reads two_tenants)
               (trace two_tenants ++
                [EvTransaction [Zrange "sharq:sms" 0 (-1); Zrange "sharq:sms:active" 0 (-1)]])
  /\ tenants_of {["q2" := 0%Z]} {["q1:j1" := 2000%Z]} ["q1"; "q2"].
Proof.
  destruct (metrics_queue_ids (U := utils) sharq sms Omitted two_tenants
              {["q2" := 0%Z]} {["q1:j1" := 2000%Z]}) as (ids & Hrun & Htenants);
    [reflexivity | reflexivity | reflexivity | vm_compute; reflexivity | vm_compute; reflexivity
    |].
  assert (Hreply : (metrics (U := utils) sharq sms Omitted two_tenants).1
                   = Ok [("status", VStr "success");
                         ("queue_ids", VList [VStr "q1"; VStr "q2"])])
    by (vm_compute; reflexivity).
  assert (Hids : ids = ["q1"; "q2"]).
  { rewrite Hrun in Hreply. injection Hreply as Hreply.
    destruct ids as [|a [|b [|c ids]]]; try discriminate Hreply.
    by injection Hreply as -> ->. }
  rewrite Hids in Hrun, Htenants.
  split; [exact Hreply |]. split; [exact (f_equal snd Hrun) | exact Htenants].
Defined.

(** C9 at work: an invalid queue id without a type, and an invalid
    type with a valid id. *)
Lemma metrics_validates_first_witness :
  metrics (U := utils) sharq Omitted (Given (SStr "not an id")) (boot [0%Z])
  = (Raise (BadArgumentException "`queue_id` has an invalid value."), boot [0%Z])
  /\ metrics (U := utils) sharq (Given (SStr "not a type")) (Given (SStr "q1")) (boot [0%Z])
     = (Raise (BadArgumentException "`queue_type` has an invalid value."), boot [0%Z]).
Proof.
  split.
  - apply (proj1 (metrics_validates_first (U := utils) sharq Omitted
                    (Given (SStr "not an id")) (boot [0%Z]))); [discriminate | reflexivity].
  - apply (proj2 (metrics_validates_first (U := utils) sharq (Given (SStr "not a type"))
                    (Given (SStr "q1")) (boot [0%Z]))); [by right | discriminate | reflexivity].
Defined.

(** C6 at work: a valid queue id alone. *)
Lemma metrics_id_without_type_witness :
  metrics (U := utils) sharq Omitted (Given (SStr "q1")) (boot [0%Z])
  = (Raise (BadArgumentException "`queue_id` should be accompanied by `queue_type`."),
     boot [0%Z]).
Proof.
  apply (metrics_id_without_type (U := utils) sharq Omitted (SStr "q1") (boot [0%Z])
           (spec_identifier_nonempty 100)); [reflexivity | discriminate].
Defined.

(** C8 as stated fails for [metrics]: on an empty store, the call
    without a queue type reports the global rates, the call with
    [queue_type='default'] the queue ids of that type. *)
Lemma metrics_default_differs :
  metrics (U := utils) sharq Omitted Omitted (boot [0%Z])
  <> metrics (U := utils) sharq (Given (SStr "default")) Omitted (boot [0%Z]).
Proof. vm_compute. discriminate. Qed.

End Instances.

(** ** The further properties at work *)

Section MoreInstances.

Import SpecUtils SpecDoubles.

Lemma spec_codec_no_bad_argument (token : item) (message : string) :
  SpecUtils.deserialize_payload token <> Raise (BadArgumentException message).
Proof. by destruct token as [[| |]|]. Qed.

Lemma dequeue_request_witness :
  let run := dequeue (U := utils) sharq sms (boot [5%Z]) in
  trace run.2
  = [EvEpoch 5; EvScript Dequeue [SStr "sharq"; SStr "sms"] [SStr "5"; SInt 2000]]
  /\ reads run.2 = 1.
Proof.
  destruct (dequeue_request (U := utils) sharq sms (boot [5%Z]) eq_refl)
    as (Htrace & Hreads & _).
  split; [exact Htrace | exact Hreads].
Defined.

Lemma dequeue_reply_shape_witness :
  [("status", VStr "success"); ("queue_id", VStr "q1"); ("job_id", VStr "j1");
   ("payload", VStr "hello")] = status "failure"
  \/ exists queue_id job_id payload,
       [("status", VStr "success"); ("queue_id", VStr "q1"); ("job_id", VStr "j1");
        ("payload", VStr "hello")]
       = [("status", VStr "success"); ("queue_id", queue_id); ("job_id", job_id);
          ("payload", payload)].
Proof.
  apply (dequeue_reply_shape (U := utils) sharq sms one_queued). vm_compute. reflexivity.
Defined.

Lemma dequeue_too_many_values_witness :
  let run := dequeue (U := utils) talkative sms (boot [0%Z]) in
  run.1 = Raise (ValueError "too many values to unpack") /\ redis run.2 = ∅.
Proof.
  apply (dequeue_too_many_values (U := utils) talkative sms (boot [0%Z])
           [Atom (SStr "q1"); Atom (SStr "j1"); Atom (SStr (payload_token "hello"));
            Atom (SStr "more")]); [reflexivity | reflexivity | simpl; lia].
Defined.

Lemma dequeue_bad_argument_witness :
  let run := dequeue (U := utils) sharq (Given (SStr "no type")) (boot [0%Z]) in
  bad_argument run.1
  /\ run = (Raise (BadArgumentException "`queue_type` has an invalid value."), boot [0%Z]).
Proof.
  destruct (dequeue_bad_argument (U := utils) sharq (Given (SStr "no type")) (boot [0%Z])
              spec_codec_no_bad_argument) as [Hiff Hrun].
  assert (Hbad : bad_argument
            (dequeue (U := utils) sharq (Given (SStr "no type")) (boot [0%Z])).1)
    by (apply Hiff; reflexivity).
  split; [exact Hbad | exact (Hrun Hbad)].
Defined.

Lemma interval_reply_witness :
  let run := interval (U := utils) sharq (SInt 10000) (SStr "qX") sms (boot [0%Z]) in
  run.1 = Ok (status "failure")
  /\ trace run.2
     = [EvScript Interval [SStr "sharq:interval"; SStr "sms:qX"] [SInt 10000]].
Proof.
  destruct (interval_reply (U := utils) sharq (SInt 10000) (SStr "qX") sms (boot [0%Z])
              eq_refl eq_refl eq_refl) as (_ & Hzero & Hworld).
  split.
  - apply (Hzero (Single (SInt 0))); [vm_compute |]; reflexivity.
  - exact (f_equal trace Hworld).
Defined.

Lemma enqueue_request_witness :
  let run := enqueue (U := utils) sharq (VStr "hello") (SInt 5000) (SStr "j1") (SStr "q1") sms
               (boot [3%Z]) in
  run.1 = Ok (status "queued")
  /\ trace run.2
     = [EvEpoch 3;
        EvScript Enqueue [SStr "sharq"; SStr "sms"]
          [SStr "3"; SStr "q1"; SStr "j1"; SStr (payload_token "hello"); SInt 5000]].
Proof.
  destruct (enqueue_request (U := utils) sharq (VStr "hello") (SInt 5000) (SStr "j1")
              (SStr "q1") sms (boot [3%Z]) "hello" eq_refl eq_refl eq_refl eq_refl eq_refl)
    as (Hworld & Hqueued & _).
  split.
  - apply (Hqueued (Single (SStr "queued"))). vm_compute. reflexivity.
  - exact (f_equal trace Hworld).
Defined.

Lemma finish_request_witness :
  let run := finish (U := utils) sharq (SStr "j1") (SStr "q1") sms (boot [0%Z]) in
  trace run.2 = [EvScript Finish [SStr "sharq"; SStr "sms"] [SStr "q1"; SStr "j1"]]
  /\ reads run.2 = 0.
Proof.
  destruct (finish_request (U := utils) sharq (SStr "j1") (SStr "q1") sms (boot [0%Z])
              eq_refl eq_refl eq_refl) as (Hworld & _).
  split; [exact (f_equal trace Hworld) | exact (f_equal reads Hworld)].
Defined.

Lemma requeue_stops_at_first_error_witness :
  let run := requeue failing three_types in
  elements ({["a"; "b"; "c"]} : gset string) = ["c"; "a"; "b"]
  /\ run.1 = Raise (RedisError "ERR")
  /\ trace run.2
     = [EvEpoch 7; EvSmembers "sharq:active:queue_type";
        EvScript Requeue [SStr "sharq"; SStr "c"] [SStr "7"];
        EvScript Requeue [SStr "sharq"; SStr "a"] [SStr "7"]].
Proof.
  pose proof (requeue_stops_at_first_error failing three_types
                (World (redis three_types) (clock three_types) 1
                   [EvEpoch 7; EvSmembers "sharq:active:queue_type";
                    EvScript Requeue [SStr "sharq"; SStr "c"] [SStr "7"]])
                {["a"; "b"; "c"]} ["c"] ["b"] "a" "ERR") as Hrun.
  cbv zeta in Hrun.
  rewrite Hrun; [split_and!; [vm_compute |..]; reflexivity | vm_compute; reflexivity
                | vm_compute; reflexivity | reflexivity | reflexivity].
Defined.


Lemma count_details_decodes_witness :
  count_details (Row [SStr "0"; SStr "3"; SStr "-1"; SNone])
                (Row [SStr "0"; SInt 1; SStr "-1"; SNone; SStr "-2"; SStr "9"])
  = Ok ([("0", VInt 3); ("-1", VInt 0)], [("0", VInt 1); ("-1", VInt 0)]).
Proof.
  apply (count_details_decodes [(SStr "0", SStr "3"); (SStr "-1", SNone)]
           [(SStr "0", SInt 1); (SStr "-1", SNone)] [(SStr "-2", SStr "9")]);
    [reflexivity | |]; repeat (constructor; [by eexists |]); constructor.
Defined.

Lemma count_details_short_dequeue_row_witness :
  count_details (Row [SStr "0"; SStr "3"; SStr "-1"; SNone]) (Row [SStr "0"; SInt 1])
  = Raise (IndexError "list index out of range").
Proof.
  apply (count_details_short_dequeue_row [(SStr "0", SStr "3"); (SStr "-1", SNone)]
           [(SStr "0", SInt 1)]); [simpl; lia | |];
    repeat (constructor; [by eexists |]); constructor.
Defined.

Lemma metrics_global_witness :
  (metrics (U := utils) sharq Omitted Omitted one_queued).1
  = Ok [("status", VStr "success"); ("queue_types", VList [VStr "sms"]);
        ("enqueue_counts", VDict (ten_counts 1)); ("dequeue_counts", VDict (ten_counts 0))].
Proof.
  exact (f_equal fst
           (metrics_global (U := utils) sharq Omitted Omitted one_queued ∅ {["sms"]}
              (ten_minutes (SStr "1")) (ten_minutes SNone) (ten_counts 1) (ten_counts 0)
              eq_refl eq_refl
              ltac:(vm_compute; reflexivity) ltac:(vm_compute; reflexivity)
              ltac:(vm_compute; reflexivity) ltac:(vm_compute; reflexivity))).
Defined.

Lemma metrics_queue_length_witness :
  (metrics (U := utils) sharq sms (Given (SStr "q1")) one_queued).1
  = Ok [("status", VStr "success"); ("queue_length", VInt 1);
        ("enqueue_counts", VDict (ten_counts 1)); ("dequeue_counts", VDict (ten_counts 0))].
Proof.
  exact (f_equal fst
           (metrics_queue_length (U := utils) sharq sms (Given (SStr "q1")) one_queued
              ∅ {["sms"]} (ten_minutes (SStr "1")) (ten_minutes SNone) (ten_counts 1) (ten_counts 0) ["j1"]
              eq_refl eq_refl eq_refl eq_refl
              ltac:(vm_compute; reflexivity) ltac:(vm_compute; reflexivity)
              ltac:(vm_compute; reflexivity) ltac:(vm_compute; reflexivity)
              ltac:(vm_compute; reflexivity))).
Defined.

Lemma metrics_never_failure_witness :
  dict_get "status" [("status", VStr "success"); ("queue_ids", VList [])]
  = Some (VStr "success").
Proof.
  apply (metrics_never_failure (U := utils) sharq sms Omitted (boot [0%Z])).
  vm_compute. reflexivity.
Defined.

Lemma metrics_lists_tenant_in_flight_witness :
  exists ids,
    (metrics (U := utils) sharq sms Omitted two_tenants).1
    = Ok [("status", VStr "success"); ("queue_ids", VList (VStr <$> ids))]
    /\ "q1" ∈ ids.
Proof.
  apply (metrics_lists_tenant_in_flight (U := utils) sharq sms Omitted two_tenants
           {["q2" := 0%Z]} {["q1:j1" := 2000%Z]} "q1" "j1");
    [reflexivity | reflexivity | reflexivity | vm_compute; reflexivity
    | vm_compute; reflexivity | repeat constructor; discriminate
    | by apply elem_of_dom_2 with 2000%Z].
Defined.

End MoreInstances.

Section HostInstances.

Import SpecHost.


Lemma init_constructs_witness :
  let run := __init__ (H := host) installed (SStr "/etc/sharq.conf") ∅ in
  run.1 = Ok tt /\ as_SharQ run.2 = Some SpecUtils.sharq.
Proof.
  destruct (init_constructs (H := host) installed (SStr "/etc/sharq.conf")
              (tcp_config "tcp_sock") "sharq" "2000" "tcp_sock" "0" 2000 tcp_client tcp_client
              (fun name => name) registered)
    as (Hok & Hview & _); try reflexivity.
  - right. split; [reflexivity |]. by exists "127.0.0.1", "6379".
  - intros name Hn. script_cases Hn; (split; [reflexivity | reflexivity]).
  - split; [exact Hok | exact Hview].
Defined.


Lemma init_unsupported_conn_type_witness :
  let run := __init__ (H := host) misconfigured (SStr "/etc/sharq.conf") ∅ in
  run.1 = Raise (AttributeError "'SharQ' object has no attribute '_r'")
  /\ run.2 !! "_r" = None.
Proof.
  destruct (init_unsupported_conn_type (H := host) misconfigured (SStr "/etc/sharq.conf")
              (tcp_config "tcp") "sharq" "2000" "tcp" "0" 2000)
    as (Hraise & Hclient & _); try reflexivity; try discriminate.
  split; [| exact Hclient].
  rewrite Hraise. reflexivity.
Defined.

Lemma reload_lua_scripts_replaces_witness :
  let run := reload_lua_scripts (H := host) installed connected in
  run.1 = Ok tt
  /\ run.2 !! "_lua_requeue" = Some (AScript Lua.requeue)
  /\ run.2 !! "_lua_requeue_script" = Some (AScalar (SStr "requeue")).
Proof.
  destruct (reload_lua_scripts_replaces (H := host) installed connected tcp_client
              (fun name => name) registered) as (Hok & Hscripts & _).
  - apply lookup_singleton_eq.
  - intros name Hn. script_cases Hn; (split; [reflexivity | reflexivity]).
  - split; [exact Hok |]. apply (Hscripts "requeue"). by repeat constructor.
Defined.

Lemma reload_lua_scripts_stops_at_failure_witness :
  let run := reload_lua_scripts (H := host) finish_removed connected in
  run.1 = Raise (Library (H := host) "IOError")
  /\ run.2 !! "_lua_dequeue" = Some (AScript Lua.dequeue)
  /\ run.2 !! "_lua_requeue" = None.
Proof.
  destruct (reload_lua_scripts_stops_at_failure (H := host) finish_removed connected
              tcp_client (fun name => name) registered ["enqueue"; "dequeue"]
              ["interval"; "requeue"; "metrics"] "finish" "IOError")
    as (Hraise & Hloaded & Hkept & _).
  - apply lookup_singleton_eq.
  - reflexivity.
  - intros name Hn.
    repeat (apply elem_of_cons in Hn as [-> | Hn]); [.. | by apply elem_of_nil in Hn];
      (split; [reflexivity | reflexivity]).
  - left. reflexivity.
  - split_and!; [exact Hraise | apply (Hloaded "dequeue"); by repeat constructor |].
    etrans; [apply (Hkept "requeue"); by repeat constructor |].
    apply lookup_singleton_ne. discriminate.
Defined.


Lemma init_fails_at_first_missing_option_witness :
  (__init__ (H := host) incomplete (SStr "/etc/without_sharq.conf") ∅).1
  = Raise (Library (H := host) "NoSectionError: No section: 'sharq'")
  /\ (__init__ (H := host) incomplete (SStr "/etc/without_db.conf") ∅).1
     = Raise (Library (H := host) "NoOptionError: No option 'db' in section: 'redis'").
Proof.
  split.
  - destruct (init_fails_at_first_missing_option (H := host) incomplete
                (SStr "/etc/without_sharq.conf") without_sharq
                [("redis", "key_prefix")] [("redis", "conn_type"); ("redis", "db")]
                "sharq" "job_expire_interval" "NoSectionError: No section: 'sharq'")
      as (Hraise & _).
    + reflexivity.
    + reflexivity.
    + intros s o Hin.
      apply elem_of_cons in Hin as [Hin | Hin]; [| by apply elem_of_nil in Hin].
      injection Hin as -> ->. by exists "sharq".
    + intros v Hv. discriminate Hv.
    + reflexivity.
    + exact Hraise.
  - destruct (init_fails_at_first_missing_option (H := host) incomplete
                (SStr "/etc/without_db.conf") without_db
                [("redis", "key_prefix"); ("sharq", "job_expire_interval");
                 ("redis", "conn_type")] []
                "redis" "db" "NoOptionError: No option 'db' in section: 'redis'")
      as (Hraise & _).
    + reflexivity.
    + reflexivity.
    + intros s o Hin.
      repeat (apply elem_of_cons in Hin as [Hin | Hin]; [injection Hin as -> -> |]);
        [by exists "sharq" | by exists "2000" | by exists "tcp_sock"
        | by apply elem_of_nil in Hin].
    + intros v Hv. injection Hv as <-. by exists 2000%Z.
    + reflexivity.
    + exact Hraise.
Defined.

End HostInstances.

(** ** The scenarios of the specification

    Section 8 of the specification gives six scenarios with literal
    values, under the prefix [sharq]. Run on the client of [SpecUtils],
    whose scripts are those of [Lua], they come out as written. *)

Section Scenarios.

Import SpecUtils.

Let enqueue' := enqueue (U := utils) sharq.
Let dequeue' := dequeue (U := utils) sharq.
Let finish' := finish (U := utils) sharq.
Let interval' := interval (U := utils) sharq.
Let metrics' := metrics (U := utils) sharq.

(** 1. A single tenant under its rate limit. *)
Example scenario_single_tenant_rate_limit :
  replies
    [enqueue' (VStr "hello") (SInt 5000) (SStr "j1") (SStr "q1") sms;
     enqueue' (VStr "world") (SInt 5000) (SStr "j2") (SStr "q1") sms;
     dequeue' sms;
     dequeue' sms;
     finish' (SStr "j1") (SStr "q1") sms;
     dequeue' sms]
    (boot [0; 0; 0; 1000; 5000]%Z)
  = [Ok (status "queued");
     Ok (status "queued");
     Ok [("status", VStr "success"); ("queue_id", VStr "q1"); ("job_id", VStr "j1");
         ("payload", VStr "hello")];
     Ok (status "failure");
     Ok (status "success");
     Ok [("status", VStr "success"); ("queue_id", VStr "q1"); ("job_id", VStr "j2");
         ("payload", VStr "world")]].
Proof. vm_compute. reflexivity. Qed.

(** 2. Round-robin across tenants. *)
Example scenario_round_robin :
  replies
    [enqueue' (VStr "a") (SInt 60000) (SStr "j1") (SStr "q1") sms;
     enqueue' (VStr "b") (SInt 60000) (SStr "j2") (SStr "q2") sms;
     dequeue' sms;
     dequeue' sms;
     dequeue' sms]
    (boot [0%Z])
  = [Ok (status "queued");
     Ok (status "queued");
     Ok [("status", VStr "success"); ("queue_id", VStr "q1"); ("job_id", VStr "j1");
         ("payload", VStr "a")];
     Ok [("status", VStr "success"); ("queue_id", VStr "q2"); ("job_id", VStr "j2");
         ("payload", VStr "b")];
     Ok (status "failure")].
Proof. vm_compute. reflexivity. Qed.

(** 3. Expiry and requeue, the expiry being 2000 ms. *)
Example scenario_expiry_and_requeue :
  replies
    [enqueue' (VStr "hello") (SInt 5000) (SStr "j1") (SStr "q1") sms;
     dequeue' sms;
     no_reply (requeue sharq);
     dequeue' sms]
    (boot [0; 0; 3000; 3000]%Z)
  = [Ok (status "queued");
     Ok [("status", VStr "success"); ("queue_id", VStr "q1"); ("job_id", VStr "j1");
         ("payload", VStr "hello")];
     Ok [];
     Ok [("status", VStr "success"); ("queue_id", VStr "q1"); ("job_id", VStr "j1");
         ("payload", VStr "hello")]].
Proof. vm_compute. reflexivity. Qed.

(** 4. An interval update for a tenant nobody enqueued for. *)
Example scenario_unknown_interval_update :
  replies [interval' (SInt 10000) (SStr "qX") sms] (boot [0%Z]) = [Ok (status "failure")].
Proof. vm_compute. reflexivity. Qed.

(** 5. Global metrics after three enqueues and one dequeue within the
    minute 0. *)
Example scenario_metrics_global :
  match last (replies
                [enqueue' (VStr "a") (SInt 5000) (SStr "j1") (SStr "q1") sms;
                 enqueue' (VStr "b") (SInt 5000) (SStr "j2") (SStr "q1") sms;
                 enqueue' (VStr "c") (SInt 5000) (SStr "j3") (SStr "q2") sms;
                 dequeue' sms;
                 metrics' Omitted Omitted]
                (boot [0; 10; 20; 30; 40]%Z)) with
  | Some (Ok reply) =>
      dict_get "queue_types" reply = Some (VList [VStr "sms"])
      /\ (dict_get "enqueue_counts" reply ≫= fun counts =>
            match counts with VDict counts => dict_get "0" counts | _ => None end)
         = Some (VInt 3)
      /\ (dict_get "dequeue_counts" reply ≫= fun counts =>
            match counts with VDict counts => dict_get "0" counts | _ => None end)
         = Some (VInt 1)
  | _ => False
  end.
Proof. vm_compute. by split_and!. Qed.

(** 6. Validation: nothing changes. *)
Example scenario_validation :
  enqueue' (VStr "hello") (SInt 50) (SStr "j1") (SStr "q1") sms (boot [0%Z])
  = (Raise (BadArgumentException "`interval` has an invalid value."), boot [0%Z])
  /\ metrics' Omitted (Given (SStr "q1")) (boot [0%Z])
     = (Raise (BadArgumentException "`queue_id` should be accompanied by `queue_type`."),
        boot [0%Z]).
Proof. by split. Qed.

End Scenarios.
